(** * Suscan/Library.cpp: the layered configuration catalog

    A shallow embedding of the [Suscan::Singleton] registry of SigDigger
    (src/Suscan/Library.cpp): the entity codecs, the layered loaders, the
    typed register / replace / remove operations, the synchronizer and the
    lazy subsystem gates, followed by the properties proved about them.

    Conventions.  A C++ method [Singleton::m] that only touches the
    registry becomes a function on [Singleton]; one that also writes a
    configuration context threads the [ConfDB]; one that calls into the
    external library threads the library state.  A [Suscan::Exception]
    leaving a call is the [Throw] outcome of [Exc]; the state reached at the
    throw is returned next to it, as C++ keeps every effect performed before
    the exception was raised.  [QMap]s are kept as association lists sorted
    by key, which is the order in which Qt iterates them. *)

From Stdlib Require Import ZArith List String Ascii Bool Lia PrimFloat Uint63.
From Stdlib Require OrderedTypeEx.
Import ListNotations.

Set Implicit Arguments.
Set Warnings "-inexact-float".

(* ================================================================== *)
(** * Part I: the embedding                                            *)
(* ================================================================== *)

(** ** Exceptions *)

(** Outcome of a call that may raise [Suscan::Exception]. *)
Inductive Exc (A : Type) : Type :=
| Return (a : A)
| Throw.
Arguments Throw {A}.

Definition returned {A : Type} (r : Exc A) : bool :=
  match r with Return _ => true | Throw => false end.

(** ** Ordered keys *)

(** The comparison a [QMap] (or [std::map]) orders its keys with:
    [operator<] on [qint64], on [std::string] and on [QString]. *)
Class KeyOrder (K : Type) := key_compare : K -> K -> comparison.

#[export] Instance qint64_order : KeyOrder Z := Z.compare.
#[export] Instance string_order : KeyOrder string := String.compare.

Definition key_lt {K : Type} `{KeyOrder K} (a b : K) : Prop :=
  key_compare a b = Lt.

Definition key_le {K : Type} `{KeyOrder K} (a b : K) : Prop :=
  key_compare a b <> Gt.

Class KeyOrderLaws (K : Type) {O : KeyOrder K} : Prop := {
  key_compare_eq : forall a b : K, key_compare a b = Eq <-> a = b;
  key_compare_antisym :
    forall a b : K, key_compare b a = CompOpp (key_compare a b);
  key_compare_trans :
    forall a b c : K,
      key_compare a b = Lt -> key_compare b c = Lt -> key_compare a c = Lt
}.
Arguments KeyOrderLaws K {O}.

(** ** QMap *)

(** [QMap<K, V>] as the list of its (key, value) pairs in iteration order,
    that is by ascending key.  An iterator is the suffix of the list that
    starts at the element it points to; [end()] is the empty suffix. *)
Module QMap.

Definition t (K V : Type) : Type := list (K * V).

Section Ops.
Context {K V : Type} `{KeyOrder K}.

Definition empty : t K V := [].

(** [m.find(k)], read through [option]: [None] is [m.end()]. *)
Fixpoint find (k : K) (m : t K V) : option V :=
  match m with
  | [] => None
  | (k', v) :: m' =>
      match key_compare k k' with
      | Eq => Some v
      | _ => find k m'
      end
  end.

Definition contains (k : K) (m : t K V) : bool :=
  match find k m with Some _ => true | None => false end.

(** [m[k] = v]: overwrites the value of an existing key, inserts a new
    key at its place in the order. *)
Fixpoint insert (k : K) (v : V) (m : t K V) : t K V :=
  match m with
  | [] => [(k, v)]
  | (k', v') :: m' =>
      match key_compare k k' with
      | Lt => (k, v) :: (k', v') :: m'
      | Eq => (k, v) :: m'
      | Gt => (k', v') :: insert k v m'
      end
  end.

(** [m.remove(k)]. *)
Fixpoint remove (k : K) (m : t K V) : t K V :=
  match m with
  | [] => []
  | (k', v') :: m' =>
      match key_compare k k' with
      | Eq => remove k m'
      | _ => (k', v') :: remove k m'
      end
  end.

(** [m.lowerBound(k)]: the iterator to the first item whose key is not
    less than [k]. *)
Fixpoint lowerBound (k : K) (m : t K V) : t K V :=
  match m with
  | [] => []
  | (k', v') :: m' =>
      match key_compare k' k with
      | Lt => lowerBound k m'
      | _ => m
      end
  end.

(** [m.keys()] and the values a range-for over [m] visits. *)
Definition keys (m : t K V) : list K := map fst m.
Definition values (m : t K V) : list V := map snd m.

(** Keys strictly ascending: the representation invariant. *)
Fixpoint lower_than_all (k : K) (m : t K V) : Prop :=
  match m with
  | [] => True
  | (k', _) :: m' => key_lt k k' /\ lower_than_all k m'
  end.

Fixpoint sorted (m : t K V) : Prop :=
  match m with
  | [] => True
  | (k, _) :: m' => lower_than_all k m' /\ sorted m'
  end.
End Ops.

End QMap.

(** ** Suscan::Object *)

(** Modelled from the spec: the value a field of a [Suscan::Object] holds.
    Object.h is not part of the sources; the codecs store strings, doubles
    and integers through [Object::set]. *)
Inductive Value : Type :=
| VString (s : string)
| VDouble (d : float)
| VInt (z : Z).

(** Modelled from the spec: the kinds of object the catalog tells apart
    with [getType()] (declared in the external library). *)
Inductive ObjectType : Type :=
| SUSCAN_OBJECT_TYPE_OBJECT
| SUSCAN_OBJECT_TYPE_FIELD
| SUSCAN_OBJECT_TYPE_SET.

(** Modelled from the spec: a record of the object store, with its kind,
    its class name and its named fields in the order they were set
    (Object.h is not part of the sources). *)
Record ObjectData : Type := mkObjectData {
  objectType : ObjectType;
  className : string;
  fields : list (string * Value)
}.

(** Modelled from the spec: the C++ handle on a record.  A handle is
    "borrowed" while it still refers to the record of the backing store it
    was read from, and owned once the caller has replaced it. *)
Record Object : Type := mkObject {
  instance : ObjectData;
  borrowed : bool
}.

Module Obj.

(** Modelled from the spec: [Object obj(SUSCAN_OBJECT_TYPE_OBJECT)], a
    new record without class or fields, owned by the caller. *)
Definition make : Object :=
  mkObject (mkObjectData SUSCAN_OBJECT_TYPE_OBJECT EmptyString []) false.

(** Modelled from the spec: [Object::makeField(value)], a record that is
    a bare field. *)
Definition makeField (v : string) : Object :=
  mkObject
    (mkObjectData SUSCAN_OBJECT_TYPE_FIELD EmptyString
       [(EmptyString, VString v)])
    false.

(** Modelled from the spec: [obj.setClass(name)], [obj.getType()] and
    [obj.getClass()]. *)
Definition setClass (c : string) (o : Object) : Object :=
  mkObject (mkObjectData (objectType (instance o)) c (fields (instance o)))
           (borrowed o).

Definition getType (o : Object) : ObjectType := objectType (instance o).
Definition getClass (o : Object) : string := className (instance o).

(** Modelled from the spec: the fields of a record after one of them is
    set: an existing field is overwritten in place, a new one goes last. *)
Fixpoint set_field (n : string) (v : Value) (fs : list (string * Value))
  : list (string * Value) :=
  match fs with
  | [] => [(n, v)]
  | (n', v') :: fs' =>
      if String.eqb n n' then (n, v) :: fs' else (n', v') :: set_field n v fs'
  end.

(** Modelled from the spec: [obj.set(name, value)]. *)
Definition set (n : string) (v : Value) (o : Object) : Object :=
  mkObject
    (mkObjectData (objectType (instance o)) (className (instance o))
                  (set_field n v (fields (instance o))))
    (borrowed o).

(** Modelled from the spec: the value stored under a field name. *)
Fixpoint get_field (n : string) (fs : list (string * Value)) : option Value :=
  match fs with
  | [] => None
  | (n', v) :: fs' => if String.eqb n n' then Some v else get_field n fs'
  end.

(** Modelled from the spec: [conf.get(name, dfl)] on a string: the value
    of the field, or [dfl] when the record has no such string field
    ("unknown/malformed fields are skipped, not fatal"). *)
Definition get_string (conf : Object) (n : string) (dfl : string) : string :=
  match get_field n (fields (instance conf)) with
  | Some (VString s) => s
  | _ => dfl
  end.

(** Modelled from the spec: [conf.get(name, dfl)] on a double. *)
Definition get_double (conf : Object) (n : string) (dfl : float) : float :=
  match get_field n (fields (instance conf)) with
  | Some (VDouble d) => d
  | _ => dfl
  end.



(** Modelled from the spec: [obj.isBorrowed()]. *)
Definition isBorrowed (o : Object) : bool := borrowed o.

(** Modelled from the spec: [list[i]], the borrowed handle on a record of
    a context's list. *)
Definition wrap (d : ObjectData) : Object := mkObject d true.

End Obj.

(** ** Configuration contexts *)

(** Modelled from the spec: the record list [ctx.listObject()] of a named
    [ConfigContext], "an ordered sequence of records" (ConfigContext.h is
    not part of the sources).  The save flag set by [ctx.setSave] is read
    by the external store only and is left out. *)
Definition ConfigContext : Type := list ObjectData.

Module Ctx.

(** Modelled from the spec: [list.clear()]. *)
Definition clear (l : ConfigContext) : ConfigContext := [].

(** Modelled from the spec: [list.append(obj)] adds the record at the
    end of the sequence. *)
Definition append (o : Object) (l : ConfigContext) : ConfigContext :=
  l ++ [instance o].

(** The list with the record at [pos] replaced, when there is one. *)
Fixpoint replace_at (pos : nat) (d : ObjectData) (l : ConfigContext)
  : ConfigContext :=
  match l, pos with
  | [], _ => []
  | _ :: l', O => d :: l'
  | x :: l', S p => x :: replace_at p d l'
  end.

(** Modelled from the spec: [list.put(obj, pos)] overwrites the record at
    [pos] and raises when "that position no longer exists in the backing
    store". *)
Definition put (o : Object) (pos : nat) (l : ConfigContext)
  : Exc ConfigContext :=
  if Nat.ltb pos (List.length l) then Return (replace_at pos (instance o) l)
  else Throw.

(** Records of the context as the loaders read them: [list[i]] for
    [i = 0 .. list.length() - 1]. *)
Definition items (l : ConfigContext) : list Object := map Obj.wrap l.

End Ctx.

(** The contexts the catalog reads and writes, by name. *)
Record ConfDB : Type := mkConfDB {
  ctx_bookmarks : ConfigContext;        (* "bookmarks" *)
  ctx_locations : ConfigContext;        (* "locations" *)
  ctx_user_locations : ConfigContext;   (* "user_locations" *)
  ctx_qth : ConfigContext;              (* "qth" *)
  ctx_tle : ConfigContext;              (* "tle" *)
  ctx_user_tle : ConfigContext;         (* "user_tle" *)
  ctx_uiconfig : ConfigContext;         (* "uiconfig" *)
  ctx_recent : ConfigContext            (* "recent" *)
}.

Definition set_ctx_recent (l : ConfigContext) (db : ConfDB) : ConfDB :=
  mkConfDB (ctx_bookmarks db) (ctx_locations db) (ctx_user_locations db)
           (ctx_qth db) (ctx_tle db) (ctx_user_tle db) (ctx_uiconfig db) l.

Definition set_ctx_bookmarks (l : ConfigContext) (db : ConfDB) : ConfDB :=
  mkConfDB l (ctx_locations db) (ctx_user_locations db) (ctx_qth db)
           (ctx_tle db) (ctx_user_tle db) (ctx_uiconfig db) (ctx_recent db).

Definition set_ctx_user_locations (l : ConfigContext) (db : ConfDB) : ConfDB :=
  mkConfDB (ctx_bookmarks db) (ctx_locations db) l (ctx_qth db)
           (ctx_tle db) (ctx_user_tle db) (ctx_uiconfig db) (ctx_recent db).

Definition set_ctx_qth (l : ConfigContext) (db : ConfDB) : ConfDB :=
  mkConfDB (ctx_bookmarks db) (ctx_locations db) (ctx_user_locations db) l
           (ctx_tle db) (ctx_user_tle db) (ctx_uiconfig db) (ctx_recent db).

Definition set_ctx_user_tle (l : ConfigContext) (db : ConfDB) : ConfDB :=
  mkConfDB (ctx_bookmarks db) (ctx_locations db) (ctx_user_locations db)
           (ctx_qth db) (ctx_tle db) l (ctx_uiconfig db) (ctx_recent db).

Definition set_ctx_uiconfig (l : ConfigContext) (db : ConfDB) : ConfDB :=
  mkConfDB (ctx_bookmarks db) (ctx_locations db) (ctx_user_locations db)
           (ctx_qth db) (ctx_tle db) (ctx_user_tle db) l (ctx_recent db).

(** ** Entities and their codecs *)

(** Modelled from the spec: [xyz_t], the site coordinates of a location
    (declared in the external library). *)
Record xyz_t : Type := mkXyz {
  lat : float;
  lon : float;
  height : float
}.

Module Location.

(** Modelled from the spec: the fields of [Suscan::Location] (Library.h is
    not part of the sources): "country, latitude, longitude, altitude,
    userLocation flag". *)
Record t : Type := mk {
  name : string;
  country : string;
  site : xyz_t;
  userLocation : bool
}.

(** Modelled from the spec: a default-constructed [Location]. *)
Definition fresh : t := mk EmptyString EmptyString (mkXyz 0 0 0) false.

(** Modelled from the spec: [getLocationName()] is defined in Library.h;
    the data model of the spec keys a Location by its name. *)
Definition getLocationName (this : t) : string := name this.

Definition set_userLocation (b : bool) (this : t) : t :=
  mk (name this) (country this) (site this) b.

Definition set_height (h : float) (this : t) : t :=
  mk (name this) (country this)
     (mkXyz (lat (site this)) (lon (site this)) h) (userLocation this).

(** [Location::deserialize]: every [LOAD] reads a field with the current
    value of the member as default, then the altitude is scaled. *)
Definition deserialize (conf : Object) (this : t) : t :=
  let name' := Obj.get_string conf "name" (name this) in
  let country' := Obj.get_string conf "country" (country this) in
  let lat' := Obj.get_double conf "lat" (lat (site this)) in
  let lon' := Obj.get_double conf "lon" (lon (site this)) in
  let height' := Obj.get_double conf "alt" (height (site this)) in
  mk name' country' (mkXyz lat' lon' (height' * 1e-3)%float)
     (userLocation this).

(** [Location::serialize]; [persist] is [Serializable::persist], which
    is declared outside the sources and may raise. *)
Definition serialize (persist : Object -> Exc Object) (this : t)
  : Exc Object :=
  let obj := Obj.make in
  let obj := Obj.setClass "Location" obj in
  let obj := Obj.set "name" (VString (name this)) obj in
  let obj := Obj.set "country" (VString (country this)) obj in
  let obj := Obj.set "lat" (VDouble (lat (site this))) obj in
  let obj := Obj.set "lon" (VDouble (lon (site this))) obj in
  let obj := Obj.set "alt" (VDouble (height (site this) * 1e3)%float) obj in
  persist obj.

End Location.

Module TLESource.

(** Modelled from the spec: the fields of [Suscan::TLESource]: "URL,
    user flag", keyed by name. *)
Record t : Type := mk {
  name : string;
  url : string;
  user : bool
}.

(** Modelled from the spec: a default-constructed [TLESource]. *)
Definition fresh : t := mk EmptyString EmptyString false.

Definition set_user (b : bool) (this : t) : t :=
  mk (name this) (url this) b.

(** [TLESource::deserialize]. *)
Definition deserialize (conf : Object) (this : t) : t :=
  let name' := Obj.get_string conf "name" (name this) in
  let url' := Obj.get_string conf "url" (url this) in
  mk name' url' (user this).

(** [TLESource::serialize]. *)
Definition serialize (persist : Object -> Exc Object) (this : t)
  : Exc Object :=
  let obj := Obj.make in
  let obj := Obj.setClass "tle_source" obj in
  let obj := Obj.set "name" (VString (name this)) obj in
  let obj := Obj.set "url" (VString (url this)) obj in
  persist obj.

End TLESource.

(** Modelled from the spec: [BookmarkInfo] (declared outside the sources):
    "display name, color, frequency, optional modulation + band-edges". *)
Record BookmarkInfo : Type := mkBookmarkInfo {
  bm_name : string;
  frequency : Z;             (* qint64 *)
  color : string;            (* QColor, by its name *)
  lowFreqCut : Z;            (* int *)
  highFreqCut : Z;           (* int *)
  modulation : string
}.

(** Modelled from the spec: [Bookmark] pairs the information with the
    position of its record in the "bookmarks" context. *)
Record Bookmark : Type := mkBookmark {
  info : BookmarkInfo;
  entry : Z                  (* int *)
}.

(** Modelled from the spec: a default-constructed [Bookmark]; "a
    Bookmark's backing-store index is -1 exactly when it was created in the
    current session and not yet assigned a slot". *)
Definition Bookmark_fresh : Bookmark :=
  mkBookmark (mkBookmarkInfo EmptyString 0 EmptyString 0 0 EmptyString) (-1).

Definition set_info (i : BookmarkInfo) (bm : Bookmark) : Bookmark :=
  mkBookmark i (entry bm).

(** [static_cast<unsigned>(e)] on a 32-bit [int]. *)
Definition to_unsigned (e : Z) : nat := Z.to_nat (e mod 2 ^ 32).

(** [static_cast<double>(f)] on a [qint64]. *)
Definition double_of_qint64 (z : Z) : float :=
  if (z =? - 2 ^ 63)%Z then (- 0x1p63)%float
  else if (z <? 0)%Z then (- of_uint63 (Uint63.of_Z (- z)))%float
  else of_uint63 (Uint63.of_Z z).

(** Modelled from the spec: [SpectrumUnit]: "dB-per-unit scale factor,
    zero-point offset", keyed by name. *)
Record SpectrumUnit : Type := mkSpectrumUnit {
  su_name : string;
  dBPerUnit : float;
  zeroPoint : float
}.

(** Modelled from the spec: what the catalog reads of a source
    configuration of the external library: its label, possibly null. *)
Record suscan_source_config_t : Type := mkConfig {
  config_label : option string;
  config_handle : Z
}.

(** Modelled from the spec: a device descriptor of the external library:
    "descriptor, driver id, remote flag". *)
Record suscan_source_device_t : Type := mkDevice {
  device_desc : string;
  device_driver : string;
  device_remote : bool
}.

(** ** The registry *)

(** The members of [Suscan::Singleton] the operations below use. *)
Record Singleton : Type := mkSingleton {
  sources_initd : bool;
  estimators_initd : bool;
  spectrum_sources_initd : bool;
  inspectors_initd : bool;
  profiles : QMap.t string suscan_source_config_t;
  devices : list (suscan_source_device_t * nat);
  uiConfig : list Object;
  bookmarks : QMap.t Z Bookmark;
  locations : QMap.t string Location.t;
  tleSources : QMap.t string TLESource.t;
  spectrumUnits : QMap.t string SpectrumUnit;
  qth : Location.t;
  have_qth : bool;
  recentProfiles : list string
}.

Definition set_sources_initd (b : bool) (s : Singleton) : Singleton :=
  mkSingleton b (estimators_initd s) (spectrum_sources_initd s)
    (inspectors_initd s) (profiles s) (devices s) (uiConfig s) (bookmarks s)
    (locations s) (tleSources s) (spectrumUnits s) (qth s) (have_qth s) (recentProfiles s).

Definition set_estimators_initd (b : bool) (s : Singleton) : Singleton :=
  mkSingleton (sources_initd s) b (spectrum_sources_initd s)
    (inspectors_initd s) (profiles s) (devices s) (uiConfig s) (bookmarks s)
    (locations s) (tleSources s) (spectrumUnits s) (qth s) (have_qth s) (recentProfiles s).

Definition set_spectrum_sources_initd (b : bool) (s : Singleton) : Singleton :=
  mkSingleton (sources_initd s) (estimators_initd s) b
    (inspectors_initd s) (profiles s) (devices s) (uiConfig s) (bookmarks s)
    (locations s) (tleSources s) (spectrumUnits s) (qth s) (have_qth s) (recentProfiles s).

Definition set_inspectors_initd (b : bool) (s : Singleton) : Singleton :=
  mkSingleton (sources_initd s) (estimators_initd s)
    (spectrum_sources_initd s) b (profiles s) (devices s) (uiConfig s)
    (bookmarks s) (locations s) (tleSources s) (spectrumUnits s) (qth s)
    (have_qth s) (recentProfiles s).

Definition set_profiles (m : QMap.t string suscan_source_config_t)
  (s : Singleton) : Singleton :=
  mkSingleton (sources_initd s) (estimators_initd s)
    (spectrum_sources_initd s) (inspectors_initd s) m (devices s)
    (uiConfig s) (bookmarks s) (locations s) (tleSources s)
    (spectrumUnits s) (qth s) (have_qth s) (recentProfiles s).

Definition set_devices (d : list (suscan_source_device_t * nat))
  (s : Singleton) : Singleton :=
  mkSingleton (sources_initd s) (estimators_initd s)
    (spectrum_sources_initd s) (inspectors_initd s) (profiles s) d
    (uiConfig s) (bookmarks s) (locations s) (tleSources s)
    (spectrumUnits s) (qth s) (have_qth s) (recentProfiles s).

Definition set_bookmarks (m : QMap.t Z Bookmark) (s : Singleton) : Singleton :=
  mkSingleton (sources_initd s) (estimators_initd s)
    (spectrum_sources_initd s) (inspectors_initd s) (profiles s) (devices s)
    (uiConfig s) m (locations s) (tleSources s) (spectrumUnits s) (qth s)
    (have_qth s) (recentProfiles s).

Definition set_locations (m : QMap.t string Location.t) (s : Singleton)
  : Singleton :=
  mkSingleton (sources_initd s) (estimators_initd s)
    (spectrum_sources_initd s) (inspectors_initd s) (profiles s) (devices s)
    (uiConfig s) (bookmarks s) m (tleSources s) (spectrumUnits s) (qth s)
    (have_qth s) (recentProfiles s).

Definition set_tleSources (m : QMap.t string TLESource.t) (s : Singleton)
  : Singleton :=
  mkSingleton (sources_initd s) (estimators_initd s)
    (spectrum_sources_initd s) (inspectors_initd s) (profiles s) (devices s)
    (uiConfig s) (bookmarks s) (locations s) m (spectrumUnits s) (qth s)
    (have_qth s) (recentProfiles s).

Definition set_spectrumUnits (m : QMap.t string SpectrumUnit) (s : Singleton)
  : Singleton :=
  mkSingleton (sources_initd s) (estimators_initd s)
    (spectrum_sources_initd s) (inspectors_initd s) (profiles s) (devices s)
    (uiConfig s) (bookmarks s) (locations s) (tleSources s) m (qth s)
    (have_qth s) (recentProfiles s).

Definition set_qth (l : Location.t) (s : Singleton) : Singleton :=
  mkSingleton (sources_initd s) (estimators_initd s)
    (spectrum_sources_initd s) (inspectors_initd s) (profiles s) (devices s)
    (uiConfig s) (bookmarks s) (locations s) (tleSources s) (spectrumUnits s)
    l true (recentProfiles s).

(** The registry with every collection empty and every gate closed: the
    members as the constructor finds them. *)
Definition Singleton_blank : Singleton :=
  mkSingleton false false false false QMap.empty [] [] QMap.empty QMap.empty
    QMap.empty QMap.empty Location.fresh false [].

(** ** Layered loaders *)

(** The loop of [Singleton::initLocationsFromContext]: [loc] is the one
    [Location] declared before the loop, deserialized into at every
    iteration and copied into the map under its name. *)
Fixpoint loadLocations (lst : list Object) (loc : Location.t)
  (m : QMap.t string Location.t) : QMap.t string Location.t :=
  match lst with
  | [] => m
  | r :: rest =>
      let loc' := Location.deserialize r loc in
      loadLocations rest loc' (QMap.insert (Location.getLocationName loc') loc' m)
  end.

(** The target of the loop as [initLocationsFromContext] prepares it. *)
Definition location_target (user : bool) : Location.t :=
  Location.set_height 0 (Location.set_userLocation user Location.fresh).

Definition initLocationsFromContext (ctx : ConfigContext) (user : bool)
  (this : Singleton) : Singleton :=
  let lst := Ctx.items ctx in
  let loc := location_target user in
  set_locations (loadLocations lst loc (locations this)) this.

(** The locations part of [Singleton::init_locations], then the QTH. *)
Definition init_locations (db : ConfDB) (this : Singleton) : Singleton :=
  let lst := Ctx.items (ctx_qth db) in
  let this := initLocationsFromContext (ctx_locations db) false this in
  let this := initLocationsFromContext (ctx_user_locations db) true this in
  match lst with
  | r :: _ =>
      match Obj.getType r with
      | SUSCAN_OBJECT_TYPE_OBJECT =>
          if String.eqb (Obj.getClass r) "Location"
          then set_qth (Location.deserialize r (qth this)) this
          else this
      | _ => this
      end
  | [] => this
  end.

(** The loop of [Singleton::initTLESourcesFromContext]. *)
Fixpoint loadTLESources (lst : list Object) (src : TLESource.t)
  (m : QMap.t string TLESource.t) : QMap.t string TLESource.t :=
  match lst with
  | [] => m
  | r :: rest =>
      let src' := TLESource.deserialize r src in
      loadTLESources rest src' (QMap.insert (TLESource.name src') src' m)
  end.

Definition initTLESourcesFromContext (ctx : ConfigContext) (user : bool)
  (this : Singleton) : Singleton :=
  let lst := Ctx.items ctx in
  let src := TLESource.set_user user TLESource.fresh in
  set_tleSources (loadTLESources lst src (tleSources this)) this.

Definition init_tle_sources (db : ConfDB) (this : Singleton) : Singleton :=
  let this := initTLESourcesFromContext (ctx_tle db) false this in
  initTLESourcesFromContext (ctx_user_tle db) true this.

(** The entities the loop of a loader produces, one per record, in order:
    what each iteration stores in the map. *)
Fixpoint loadedLocations (lst : list Object) (loc : Location.t)
  : list Location.t :=
  match lst with
  | [] => []
  | r :: rest =>
      let loc' := Location.deserialize r loc in
      loc' :: loadedLocations rest loc'
  end.

Fixpoint loadedTLESources (lst : list Object) (src : TLESource.t)
  : list TLESource.t :=
  match lst with
  | [] => []
  | r :: rest =>
      let src' := TLESource.deserialize r src in
      src' :: loadedTLESources rest src'
  end.

(** The last entity of a list that carries the key [k]. *)
Fixpoint last_with_key {V : Type} (key : V -> string) (k : string)
  (l : list V) : option V :=
  match l with
  | [] => None
  | v :: l' =>
      match last_with_key key k l' with
      | Some w => Some w
      | None => if String.eqb (key v) k then Some v else None
      end
  end.

(** ** Typed register / replace / remove *)

(** [Singleton::registerBookmark]. *)
Definition registerBookmark (info : BookmarkInfo) (this : Singleton)
  : bool * Singleton :=
  if QMap.contains (frequency info) (bookmarks this) then (false, this)
  else
    let bm := set_info info Bookmark_fresh in
    (true, set_bookmarks (QMap.insert (frequency info) bm (bookmarks this)) this).

(** [Singleton::registerLocation]. *)
Definition registerLocation (loc : Location.t) (this : Singleton)
  : bool * Singleton :=
  if QMap.contains (Location.getLocationName loc) (locations this)
  then (false, this)
  else
    let newLoc := Location.set_userLocation true loc in
    (true,
     set_locations
       (QMap.insert (Location.getLocationName newLoc) newLoc (locations this))
       this).

(** [Singleton::registerTLESource]. *)
Definition registerTLESource (tleSrc : TLESource.t) (this : Singleton)
  : bool * Singleton :=
  if QMap.contains (TLESource.name tleSrc) (tleSources this) then (false, this)
  else
    let newSrc := TLESource.set_user true tleSrc in
    (true,
     set_tleSources (QMap.insert (TLESource.name newSrc) newSrc (tleSources this))
       this).

(** [Singleton::removeTLESource]. *)
Definition removeTLESource (name : string) (this : Singleton)
  : bool * Singleton :=
  match QMap.find name (tleSources this) with
  | None => (false, this)
  | Some src =>
      if negb (TLESource.user src) then (false, this)
      else (true, set_tleSources (QMap.remove name (tleSources this)) this)
  end.

(** [Singleton::registerSpectrumUnit]. *)
Definition registerSpectrumUnit (name : string) (dBPerUnit0 zeroPoint0 : float)
  (this : Singleton) : bool * Singleton :=
  if QMap.contains name (spectrumUnits this) then (false, this)
  else
    let su := mkSpectrumUnit name dBPerUnit0 zeroPoint0 in
    (true, set_spectrumUnits (QMap.insert name su (spectrumUnits this)) this).

(** [Singleton::removeSpectrumUnit]. *)
Definition removeSpectrumUnit (name : string) (this : Singleton) : Singleton :=
  if QMap.contains name (spectrumUnits this)
  then set_spectrumUnits (QMap.remove name (spectrumUnits this)) this
  else this.

(** [Singleton::replaceSpectrumUnit]. *)
Definition replaceSpectrumUnit (name : string) (dBPerUnit0 zeroPoint0 : float)
  (this : Singleton) : Singleton :=
  let su := mkSpectrumUnit name dBPerUnit0 zeroPoint0 in
  let this := removeSpectrumUnit name this in
  set_spectrumUnits (QMap.insert name su (spectrumUnits this)) this.

(** [Singleton::getBookmarkFrom] and [Singleton::getSpectrumUnitFrom]. *)
Definition getBookmarkFrom (freq : Z) (this : Singleton) : QMap.t Z Bookmark :=
  QMap.lowerBound freq (bookmarks this).

Definition getSpectrumUnitFrom (name : string) (this : Singleton)
  : QMap.t string SpectrumUnit :=
  QMap.lowerBound name (spectrumUnits this).

(** [Singleton::getLastBookmark] and [getLastSpectrumUnit]: [cend()]. *)
Definition getLastBookmark (this : Singleton) : QMap.t Z Bookmark := [].
Definition getLastSpectrumUnit (this : Singleton)
  : QMap.t string SpectrumUnit := [].

(** [Singleton::removeBookmark] and [Singleton::replaceBookmark].  The
    positional delete [list.remove(pos)] of the object store is external
    and may raise; it is the parameter [list_remove]. *)
Section BookmarkRemoval.
Variable list_remove : nat -> ConfigContext -> Exc ConfigContext.

Definition removeBookmark (freq : Z) (this : Singleton) (db : ConfDB)
  : Exc unit * Singleton * ConfDB :=
  match QMap.find freq (bookmarks this) with
  | Some bm =>
      let this := set_bookmarks (QMap.remove freq (bookmarks this)) this in
      if negb (entry bm =? -1)%Z then
        match list_remove (to_unsigned (entry bm)) (ctx_bookmarks db) with
        | Return l => (Return tt, this, set_ctx_bookmarks l db)
        | Throw => (Throw, this, db)
        end
      else (Return tt, this, db)
  | None => (Return tt, this, db)
  end.

Definition replaceBookmark (info : BookmarkInfo) (this : Singleton)
  (db : ConfDB) : Exc unit * Singleton * ConfDB :=
  let bm := set_info info Bookmark_fresh in
  match removeBookmark (frequency info) this db with
  | (Return _, this, db) =>
      (Return tt,
       set_bookmarks (QMap.insert (frequency info) bm (bookmarks this)) this,
       db)
  | (Throw, this, db) => (Throw, this, db)
  end.
End BookmarkRemoval.

(** ** Synchronizer *)

(** [this->bookmarks[p]] for a key [p] of the map. *)
Definition bookmark_at (p : Z) (this : Singleton) : Bookmark :=
  match QMap.find p (bookmarks this) with
  | Some bm => bm
  | None => Bookmark_fresh
  end.

(** The record [Singleton::syncBookmarks] builds for a bookmark. *)
Definition bookmark_record (bm : Bookmark) : Object :=
  let obj := Obj.make in
  let obj := Obj.set "name" (VString (bm_name (info bm))) obj in
  let obj :=
    Obj.set "frequency" (VDouble (double_of_qint64 (frequency (info bm)))) obj in
  let obj := Obj.set "color" (VString (color (info bm))) obj in
  let obj := Obj.set "low_freq_cut" (VInt (lowFreqCut (info bm))) obj in
  let obj := Obj.set "high_freq_cut" (VInt (highFreqCut (info bm))) obj in
  Obj.set "modulation" (VString (modulation (info bm))) obj.

(** One iteration of the loop of [Singleton::syncBookmarks]. *)
Definition syncBookmarks_step (this : Singleton) (lst : ConfigContext) (p : Z)
  : ConfigContext :=
  if (entry (bookmark_at p this) =? -1)%Z
  then Ctx.append (bookmark_record (bookmark_at p this)) lst
  else lst.

(** [Singleton::syncBookmarks]. *)
Definition syncBookmarks (this : Singleton) (db : ConfDB) : ConfDB :=
  let lst := ctx_bookmarks db in
  set_ctx_bookmarks
    (fold_left (syncBookmarks_step this) (QMap.keys (bookmarks this)) lst) db.

(** The loop of [Singleton::syncUI], at index [i] with the configurations
    [uiConfig[i ..]] still to visit. *)
Fixpoint syncUI_loop (i : nat) (conf : list Object) (lst : ConfigContext)
  : ConfigContext :=
  match conf with
  | [] => lst
  | o :: rest =>
      let lst' :=
        if negb (Obj.isBorrowed o) then
          match Ctx.put o i lst with
          | Return l => l
          | Throw => Ctx.append o lst
          end
        else lst in
      syncUI_loop (S i) rest lst'
  end.

(** [Singleton::syncUI]. *)
Definition syncUI (this : Singleton) (db : ConfDB) : ConfDB :=
  set_ctx_uiconfig (syncUI_loop 0 (uiConfig this) (ctx_uiconfig db)) db.

(** [Singleton::syncRecent]. *)
Definition syncRecent (this : Singleton) (db : ConfDB) : ConfDB :=
  let lst := Ctx.clear (ctx_recent db) in
  set_ctx_recent
    (fold_left (fun l p => Ctx.append (Obj.makeField p) l)
       (recentProfiles this) lst) db.

Section Synchronizer.
(** [Serializable::persist], external: may raise. *)
Variable persist : Object -> Exc Object.

(** One iteration of the loop of [Singleton::syncLocations]: the [try]
    block with its empty handler. *)
Definition syncLocations_step (lst : ConfigContext) (p : Location.t)
  : ConfigContext :=
  if Location.userLocation p then
    match Location.serialize persist p with
    | Return obj => Ctx.append obj lst
    | Throw => lst
    end
  else lst.

(** [Singleton::syncLocations]. *)
Definition syncLocations (this : Singleton) (db : ConfDB)
  : Exc unit * ConfDB :=
  let lst := Ctx.clear (ctx_user_locations db) in
  let lst := fold_left syncLocations_step (QMap.values (locations this)) lst in
  let db := set_ctx_user_locations lst db in
  if have_qth this then
    let qlst := Ctx.clear (ctx_qth db) in
    match Location.serialize persist (qth this) with
    | Return obj => (Return tt, set_ctx_qth (Ctx.append obj qlst) db)
    | Throw => (Throw, set_ctx_qth qlst db)
    end
  else (Return tt, db).

Definition syncTLESources_step (lst : ConfigContext) (p : TLESource.t)
  : ConfigContext :=
  if TLESource.user p then
    match TLESource.serialize persist p with
    | Return obj => Ctx.append obj lst
    | Throw => lst
    end
  else lst.

(** [Singleton::syncTLESources]. *)
Definition syncTLESources (this : Singleton) (db : ConfDB) : ConfDB :=
  let lst := Ctx.clear (ctx_user_tle db) in
  set_ctx_user_tle
    (fold_left syncTLESources_step (QMap.values (tleSources this)) lst) db.

(** [Singleton::sync]. *)
Definition sync (this : Singleton) (db : ConfDB) : Exc unit * ConfDB :=
  let db := syncRecent this db in
  let db := syncUI this db in
  let db := syncBookmarks this db in
  match syncLocations this db with
  | (Return _, db) => (Return tt, syncTLESources this db)
  | (Throw, db) => (Throw, db)
  end.

(** The records a full rewrite should leave in the context: one per
    entity that serializes, in the order of the entities. *)
Fixpoint serialized {V : Type} (ser : V -> Exc Object) (l : list V)
  : list ObjectData :=
  match l with
  | [] => []
  | v :: l' =>
      match ser v with
      | Return obj => instance obj :: serialized ser l'
      | Throw => serialized ser l'
      end
  end.
End Synchronizer.

(** ** Lazy subsystem gates *)

Inductive Gate : Type :=
| GSources
| GEstimators
| GSpectrumSources
| GInspectors.

Definition Gate_eqb (a b : Gate) : bool :=
  match a, b with
  | GSources, GSources => true
  | GEstimators, GEstimators => true
  | GSpectrumSources, GSpectrumSources => true
  | GInspectors, GInspectors => true
  | _, _ => false
  end.

(** The flag a gate guards. *)
Definition gate_flag (g : Gate) (this : Singleton) : bool :=
  match g with
  | GSources => sources_initd this
  | GEstimators => estimators_initd this
  | GSpectrumSources => spectrum_sources_initd this
  | GInspectors => inspectors_initd this
  end.

(** [Singleton::registerSourceConfig], the visitor of the profile walk. *)
Definition registerSourceConfig (config : suscan_source_config_t)
  (this : Singleton) : Singleton :=
  let label :=
    match config_label config with
    | Some l => l
    | None => "(Null profile)"%string
    end in
  set_profiles (QMap.insert label config (profiles this)) this.

(** [Singleton::registerSourceDevice], the visitor of the device walk. *)
Definition registerSourceDevice (dev : suscan_source_device_t)
  (this : Singleton) : Singleton :=
  set_devices (devices this ++ [(dev, 0%nat)]) this.

Section Gates.
(** The external library: its state, its four initializers, each
    returning [SU_TRUE] or [SU_FALSE], and the items its two walks
    visit. *)
Variable Lib : Type.
Variable suscan_init_sources : Lib -> bool * Lib.
Variable suscan_init_estimators : Lib -> bool * Lib.
Variable suscan_init_spectsrcs : Lib -> bool * Lib.
Variable suscan_init_inspectors : Lib -> bool * Lib.
Variable suscan_source_config_walk : Lib -> list suscan_source_config_t.
Variable suscan_source_device_walk : Lib -> list suscan_source_device_t.

(** [SU_ATTEMPT(expr)]: raise unless [expr] is true. *)
Definition SU_ATTEMPT (r : bool * Lib) : Exc unit * Lib :=
  if fst r then (Return tt, snd r) else (Throw, snd r).

(** [Singleton::init_sources]. *)
Definition init_sources (this : Singleton) (lib : Lib)
  : Exc unit * Singleton * Lib :=
  if negb (sources_initd this) then
    match SU_ATTEMPT (suscan_init_sources lib) with
    | (Return _, lib) =>
        let this :=
          fold_left (fun s c => registerSourceConfig c s)
            (suscan_source_config_walk lib) this in
        let this :=
          fold_left (fun s d => registerSourceDevice d s)
            (suscan_source_device_walk lib) this in
        (Return tt, set_sources_initd true this, lib)
    | (Throw, lib) => (Throw, this, lib)
    end
  else (Return tt, this, lib).

(** [Singleton::init_estimators]. *)
Definition init_estimators (this : Singleton) (lib : Lib)
  : Exc unit * Singleton * Lib :=
  if negb (estimators_initd this) then
    match SU_ATTEMPT (suscan_init_estimators lib) with
    | (Return _, lib) => (Return tt, set_estimators_initd true this, lib)
    | (Throw, lib) => (Throw, this, lib)
    end
  else (Return tt, this, lib).

(** [Singleton::init_spectrum_sources]. *)
Definition init_spectrum_sources (this : Singleton) (lib : Lib)
  : Exc unit * Singleton * Lib :=
  if negb (spectrum_sources_initd this) then
    match SU_ATTEMPT (suscan_init_spectsrcs lib) with
    | (Return _, lib) => (Return tt, set_spectrum_sources_initd true this, lib)
    | (Throw, lib) => (Throw, this, lib)
    end
  else (Return tt, this, lib).

(** [Singleton::init_inspectors]. *)
Definition init_inspectors (this : Singleton) (lib : Lib)
  : Exc unit * Singleton * Lib :=
  if negb (inspectors_initd this) then
    match SU_ATTEMPT (suscan_init_inspectors lib) with
    | (Return _, lib) => (Return tt, set_inspectors_initd true this, lib)
    | (Throw, lib) => (Throw, this, lib)
    end
  else (Return tt, this, lib).

(** The gate function and the external initializer of each gate. *)
Definition init_gate (g : Gate)
  : Singleton -> Lib -> Exc unit * Singleton * Lib :=
  match g with
  | GSources => init_sources
  | GEstimators => init_estimators
  | GSpectrumSources => init_spectrum_sources
  | GInspectors => init_inspectors
  end.

Definition initializer (g : Gate) : Lib -> bool * Lib :=
  match g with
  | GSources => suscan_init_sources
  | GEstimators => suscan_init_estimators
  | GSpectrumSources => suscan_init_spectsrcs
  | GInspectors => suscan_init_inspectors
  end.

(** A caller that invokes the gates [calls] one after the other,
    catching whatever each of them raises. *)
Fixpoint run_gates (calls : list Gate) (this : Singleton) (lib : Lib)
  : Singleton * Lib :=
  match calls with
  | [] => (this, lib)
  | g :: rest =>
      match init_gate g this lib with
      | (_, this', lib') => run_gates rest this' lib'
      end
  end.
End Gates.

(** The library instrumented with the log of the initializer invocations:
    every invocation appends the gate and the outcome it returned. *)
Section Instrumented.
Variable Lib : Type.
Variable initializers : Gate -> Lib -> bool * Lib.

Definition Logged : Type := (Lib * list (Gate * bool))%type.

Definition logged (g : Gate) (l : Logged) : bool * Logged :=
  let r := initializers g (fst l) in
  (fst r, (snd r, snd l ++ [(g, fst r)])).
End Instrumented.

(** The invocations of the initializer of [g] in a log, by outcome. *)
Definition outcomes_of (g : Gate) (log : list (Gate * bool)) : list bool :=
  map snd (filter (fun e => Gate_eqb (fst e) g) log).

(** ** Vocabulary of the statements *)

(** [m'] is [m] with the entry [k |-> v] added or overwritten, every other
    key as it was. *)
Definition inserted {K V : Type} `{KeyOrder K} (k : K) (v : V)
  (m m' : QMap.t K V) : Prop :=
  QMap.find k m' = Some v /\
  forall k', k' <> k -> QMap.find k' m' = QMap.find k' m.

(** [m'] is [m] without the key [k], every other key as it was. *)
Definition removed {K V : Type} `{KeyOrder K} (k : K)
  (m m' : QMap.t K V) : Prop :=
  QMap.find k m' = None /\
  forall k', k' <> k -> QMap.find k' m' = QMap.find k' m.

(** The iterator [it] is the lower bound of [k] in [m]: it is a suffix of
    the iteration order of [m], every item before it has a key below [k],
    and it is either [end()], with every key of [m] below [k], or points to
    an item whose key is at least [k] and is the least such key of [m]. *)
Definition is_lower_bound {K V : Type} `{KeyOrder K} (k : K)
  (m it : QMap.t K V) : Prop :=
  (exists before, m = before ++ it /\
     forall k1 v1, In (k1, v1) before -> key_lt k1 k) /\
  match it with
  | [] => forall k1 v1, In (k1, v1) m -> key_lt k1 k
  | (k', _) :: _ =>
      key_le k k' /\
      forall k1 v1, In (k1, v1) m -> key_le k k1 -> key_le k' k1
  end.

(** What the two range queries of the registry answer: the lower bound
    of the query key, which is the end iterator exactly when every key of
    the collection is below the query. *)
Definition answers_lower_bound (this : Singleton) : Prop :=
  (forall freq : Z,
      is_lower_bound freq (bookmarks this) (getBookmarkFrom freq this) /\
      (getBookmarkFrom freq this = getLastBookmark this <->
       forall k1 v1, In (k1, v1) (bookmarks this) -> key_lt k1 freq)) /\
  (forall name : string,
      is_lower_bound name (spectrumUnits this) (getSpectrumUnitFrom name this) /\
      (getSpectrumUnitFrom name this = getLastSpectrumUnit this <->
       forall k1 v1, In (k1, v1) (spectrumUnits this) -> key_lt k1 name)).

(** The three units of the lower-bound scenario, registered in the order
    the scenario names them. *)
Definition three_units : Singleton :=
  let s := snd (registerSpectrumUnit "dBFS" 1 0 Singleton_blank) in
  let s := snd (registerSpectrumUnit "dBK" 1 (-228.600006103515625) s) in
  snd (registerSpectrumUnit "dBW/Hz" 1 0 s).

(** The records of the merge scenario: a system context holding A and B
    and a user context holding B and C, every record complete.  The two
    copies of B agree on name and country and differ in their
    coordinates. *)
Definition location_record (name country : string) (la lo al : float)
  : ObjectData :=
  mkObjectData SUSCAN_OBJECT_TYPE_OBJECT "Location"
    [("name", VString name); ("country", VString country);
     ("lat", VDouble la); ("lon", VDouble lo); ("alt", VDouble al)]%string.

Definition tle_record (name url : string) : ObjectData :=
  mkObjectData SUSCAN_OBJECT_TYPE_OBJECT "tle_source"
    [("name", VString name); ("url", VString url)]%string.

Definition merge_db : ConfDB :=
  mkConfDB []
    [location_record "A" "ES" 1 1 1000; location_record "B" "ES" 2 2 2000]
    [location_record "B" "ES" 3 3 3000; location_record "C" "ES" 4 4 4000]
    []
    [tle_record "A" "sys://a"; tle_record "B" "sys://b"]
    [tle_record "B" "usr://b"; tle_record "C" "usr://c"]
    [] [].

(** A collection seen as the list of its keys with the layer of each
    entity: [true] for the user layer. *)
Definition location_layers (this : Singleton) : list (string * bool) :=
  map (fun e => (fst e, Location.userLocation (snd e))) (locations this).

Definition tle_layers (this : Singleton) : list (string * bool) :=
  map (fun e => (fst e, TLESource.user (snd e))) (tleSources this).

(** The state of the deserialization target after the records [lst]. *)
Definition target_after (lst : list Object) (loc : Location.t) : Location.t :=
  fold_left (fun l r => Location.deserialize r l) lst loc.

(** A context whose second record names nothing but itself. *)
Definition sparse_context : ConfigContext :=
  [location_record "A" "X" 10 20 1000;
   mkObjectData SUSCAN_OBJECT_TYPE_OBJECT "Location" [("name", VString "B")]%string].

(** The best-effort scenario: five user locations L1 .. L5 and a
    [persist] that raises on the record named L3. *)
Definition persist_but_L3 (obj : Object) : Exc Object :=
  if String.eqb (Obj.get_string obj "name" EmptyString) "L3" then Throw
  else Return obj.

Definition user_location (name : string) : Location.t :=
  Location.mk name "user" (mkXyz 1 2 3) false.

Definition five_locations : Singleton :=
  let s := snd (registerLocation (user_location "L1") Singleton_blank) in
  let s := snd (registerLocation (user_location "L2") s) in
  let s := snd (registerLocation (user_location "L3") s) in
  let s := snd (registerLocation (user_location "L4") s) in
  snd (registerLocation (user_location "L5") s).

Definition empty_db : ConfDB := mkConfDB [] [] [] [] [] [] [] [].

(** The names of the records of a context. *)
Definition record_names (l : ConfigContext) : list string :=
  map (fun d => Obj.get_string (Obj.wrap d) "name" EmptyString) l.

(** The records [l] after every owned configuration of [conf] has been put
    at its own position: position [i] takes [conf[i]] when that handle is
    not borrowed, and keeps its record otherwise. *)
Fixpoint overlay (conf : list Object) (l : ConfigContext) : ConfigContext :=
  match conf, l with
  | o :: conf', x :: l' =>
      (if negb (Obj.isBorrowed o) then instance o else x) :: overlay conf' l'
  | _, _ => l
  end.

Definition owned (o : Object) : bool := negb (Obj.isBorrowed o).

(** A bookmark that was never given a slot of the backing context. *)
Definition unsaved (bm : Bookmark) : bool := (entry bm =? -1)%Z.

(** The positional scenario: five records in the bookmarks context and a
    registry whose one bookmark sits at backing index 3 with a name that
    differs from the stored one. *)
Definition stored_bookmark (name : string) (f : Z) : ObjectData :=
  instance (bookmark_record
              (mkBookmark (mkBookmarkInfo name f "#ff0000" 0 0 "FM") 0)).

Definition bookmarks_db : ConfDB :=
  set_ctx_bookmarks
    [stored_bookmark "b0" 100; stored_bookmark "b1" 200;
     stored_bookmark "b2" 300; stored_bookmark "old" 400;
     stored_bookmark "b4" 500] empty_db.

Definition modified_info : BookmarkInfo :=
  mkBookmarkInfo "new" 400 "#ff0000" 0 0 "FM".

Definition one_bookmark : Singleton :=
  set_bookmarks [(400%Z, mkBookmark modified_info 3)] Singleton_blank.

(** Modelled from the spec: a positional delete of the object store, for
    the scenarios: it takes the record out of the sequence when the
    position exists and raises otherwise. *)
Definition remove_slot (pos : nat) (l : ConfigContext) : Exc ConfigContext :=
  if Nat.ltb pos (List.length l)
  then Return (firstn pos l ++ skipn (S pos) l)
  else Throw.

(** The registry of the positional scenario before the modification: the
    bookmark as it was loaded from slot 3. *)
Definition loaded_bookmark : Singleton :=
  set_bookmarks
    [(400%Z, mkBookmark (mkBookmarkInfo "old" 400 "#ff0000" 0 0 "FM") 3)]
    Singleton_blank.

(** What an upsert of [info] over the registry [this] and the store [db]
    comes to: the call returns, the bookmarks are the old ones with the
    fresh, unsaved bookmark under the frequency of [info], and the
    bookmarks context is the old one after the positional delete of the
    slot of the bookmark that was replaced, when it had one. *)
Definition upsert_outcome
  (list_remove : nat -> ConfigContext -> Exc ConfigContext)
  (info : BookmarkInfo) (this : Singleton) (db : ConfDB) : Prop :=
  exists (this' : Singleton) (db' : ConfDB),
    replaceBookmark list_remove info this db = (Return tt, this', db') /\
    (exists m', this' = set_bookmarks m' this /\
       inserted (frequency info) (mkBookmark info (-1)) (bookmarks this) m') /\
    match QMap.find (frequency info) (bookmarks this) with
    | None => db' = db
    | Some old =>
        (entry old = (-1)%Z -> db' = db) /\
        (entry old <> (-1)%Z ->
         exists l,
           list_remove (to_unsigned (entry old)) (ctx_bookmarks db) = Return l /\
           db' = set_ctx_bookmarks l db) /\
        ((0 <= entry old < 2 ^ 31)%Z ->
         exists l,
           list_remove (Z.to_nat (entry old)) (ctx_bookmarks db) = Return l /\
           db' = set_ctx_bookmarks l db)
    end.

(** The log of initializer invocations a caller produces with the gate
    calls [calls]: the gates are run against the instrumented library,
    starting from an empty log. *)
Definition gate_log (Lib : Type)
  (i1 i2 i3 i4 : Lib -> bool * Lib)
  (cw : Lib -> list suscan_source_config_t)
  (dw : Lib -> list suscan_source_device_t)
  (calls : list Gate) (this : Singleton) (lib : Lib)
  : Singleton * list (Gate * bool) :=
  let inits := initializer i1 i2 i3 i4 in
  let r :=
    run_gates (logged inits GSources) (logged inits GEstimators)
      (logged inits GSpectrumSources) (logged inits GInspectors)
      (fun l => cw (fst l)) (fun l => dw (fst l)) calls this (lib, []) in
  (fst r, snd (snd r)).

(** The outcomes of the invocations of one initializer over a run: any
    number of failures, closed by one success exactly when the run opened
    the gate; no invocation at all when the gate was open from the start. *)
Definition once_initialized (was now : bool) (outcomes : list bool) : Prop :=
  if was then now = true /\ outcomes = []
  else exists n, outcomes = repeat false n ++ (if now then [true] else []).

(** An initializer that fails on its first invocation and succeeds from
    the second on; the library state counts the invocations. *)
Definition second_time_lucky (n : nat) : bool * nat :=
  (Nat.leb 1 n, S n).

(** The run of the retry scenario: the estimators gate is called three
    times against [second_time_lucky]. *)
Definition retry_run : Singleton * list (Gate * bool) :=
  gate_log second_time_lucky second_time_lucky second_time_lucky
    second_time_lucky (fun _ => []) (fun _ => [])
    [GEstimators; GEstimators; GEstimators] Singleton_blank 0%nat.

(** The keyed collections of the registry are in key order. *)
Definition well_formed (this : Singleton) : Prop :=
  QMap.sorted (bookmarks this) /\ QMap.sorted (locations this) /\
  QMap.sorted (tleSources this) /\ QMap.sorted (spectrumUnits this).

(* ------------------------------------------------------------------ *)
(** ** Further members and methods of the registry *)

(** Setters of the members the methods below assign. *)
Definition set_uiConfig (c : list Object) (s : Singleton) : Singleton :=
  mkSingleton (sources_initd s) (estimators_initd s)
    (spectrum_sources_initd s) (inspectors_initd s) (profiles s) (devices s)
    c (bookmarks s) (locations s) (tleSources s) (spectrumUnits s) (qth s)
    (have_qth s) (recentProfiles s).

Definition set_recentProfiles (r : list string) (s : Singleton) : Singleton :=
  mkSingleton (sources_initd s) (estimators_initd s)
    (spectrum_sources_initd s) (inspectors_initd s) (profiles s) (devices s)
    (uiConfig s) (bookmarks s) (locations s) (tleSources s) (spectrumUnits s)
    (qth s) (have_qth s) r.

(** *** The most-recently-used list *)

(** The loop of [Singleton::removeRecent] over the [std::list]: the
    iterator [p] stands between the elements already visited, [before]
    (nearest first), and the elements from [p] on, [after].  On a match
    the loop steps one element back from [p], erases [p] and continues
    from the element that follows.  Stepping back from the first element
    of a [std::list] has no defined behaviour: that outcome is [None]. *)
Fixpoint removeRecent_loop (name : string) (before after : list string)
  (found : bool) : option (bool * list string) :=
  match after with
  | [] => Some (found, rev before)
  | x :: after' =>
      if String.eqb x name then
        match before with
        | [] => None
        | _ :: _ => removeRecent_loop name before after' true
        end
      else removeRecent_loop name (x :: before) after' found
  end.

(** [Singleton::removeRecent]. *)
Definition removeRecent (name : string) (this : Singleton)
  : option (bool * Singleton) :=
  match removeRecent_loop name [] (recentProfiles this) false with
  | Some (found, l) => Some (found, set_recentProfiles l this)
  | None => None
  end.

(** [Singleton::notifyRecent]. *)
Definition notifyRecent (name : string) (this : Singleton)
  : option (bool * Singleton) :=
  match removeRecent name this with
  | Some (found, this) =>
      Some (found, set_recentProfiles (name :: recentProfiles this) this)
  | None => None
  end.

(** [Singleton::clearRecent]. *)
Definition clearRecent (this : Singleton) : Singleton :=
  set_recentProfiles [] this.

(** Modelled from the spec: [obj.value()] on a record that is a bare
    field, the string [Object::makeField] was given. *)
Definition field_value (o : Object) : string :=
  match fields (instance o) with
  | (_, VString s) :: _ => s
  | _ => EmptyString
  end.

(** One iteration of the loop of [Singleton::init_recent_list]. *)
Definition init_recent_list_step (recent : list string) (r : Object)
  : list string :=
  match Obj.getType r with
  | SUSCAN_OBJECT_TYPE_FIELD => recent ++ [field_value r]
  | _ => recent
  end.

(** [Singleton::init_recent_list], on the records of the context
    "recent". *)
Definition init_recent_list (db : ConfDB) (this : Singleton) : Singleton :=
  set_recentProfiles
    (fold_left init_recent_list_step (Ctx.items (ctx_recent db))
       (recentProfiles this))
    this.

(** *** UI configuration slots *)

(** [v[pos] = x] on a vector that has the position. *)
Fixpoint assign_at {A : Type} (pos : nat) (x : A) (v : list A) : list A :=
  match v, pos with
  | [], _ => []
  | _ :: v', O => x :: v'
  | y :: v', S p => y :: assign_at p x v'
  end.

(** [pos + 1] on an [unsigned int]: the sum wraps around at 2^32. *)
Definition uint_succ (pos : nat) : nat :=
  Z.to_nat ((Z.of_nat pos + 1) mod 2 ^ 32).

(** [std::vector::resize(n)]: the first [n] elements are kept and the
    vector is filled up to [n] with default-constructed elements. *)
Definition resize {A : Type} (blank : A) (n : nat) (v : list A) : list A :=
  firstn n v ++ repeat blank (n - List.length v).

(** [Singleton::putUIConfig]; [pos] is an [unsigned int] and [blank] is
    the default-constructed [Object] that [resize] fills new slots with
    (Object.h is not part of the sources).  The size of the vector is a
    [size_t], so the comparison is on the full width, while the argument
    of [resize] is computed on 32 bits.  The assignment [uiConfig[pos]] is
    unchecked: past the end of the vector its behaviour is undefined,
    which is [None]. *)
Definition putUIConfig (blank : Object) (pos : nat) (rv : Object)
  (this : Singleton) : option Singleton :=
  let v := uiConfig this in
  let v :=
    if Nat.leb (List.length v) pos
    then resize blank (uint_succ pos) v
    else v in
  if Nat.ltb pos (List.length v)
  then Some (set_uiConfig (assign_at pos rv v) this)
  else None.

(** [Singleton::getDeviceAt]: [None] is [nullptr]. *)
Definition getDeviceAt (index : nat) (this : Singleton)
  : option (suscan_source_device_t * nat) :=
  if Nat.ltb index (List.length (devices this))
  then nth_error (devices this) index
  else None.

(** [Singleton::getProfile]: [None] is [nullptr]. *)
Definition getProfile (name : string) (this : Singleton)
  : option suscan_source_config_t :=
  if QMap.contains name (profiles this) then QMap.find name (profiles this)
  else None.

(** [Singleton::haveQth], [getQth] and [setQth]; [suscan_set_qth] is the
    call into the external library that receives the site. *)
Definition haveQth (this : Singleton) : bool := have_qth this.
Definition getQth (this : Singleton) : Location.t := qth this.

Definition setQth (Lib : Type) (suscan_set_qth : xyz_t -> Lib -> Lib)
  (loc : Location.t) (this : Singleton) (lib : Lib) : Singleton * Lib :=
  (set_qth loc this, suscan_set_qth (Location.site loc) lib).

(** *** Palettes, auto-gain presets and frequency allocation tables *)

(** The members of [Suscan::Singleton] that hold plain records. *)
Record Presets : Type := mkPresets {
  palettes : list Object;
  autoGains : list Object;
  FATs : list Object
}.

(** Modelled from the spec: [obj.getField(name)], which raises when the
    record has no such field. *)
Definition getField (n : string) (o : Object) : Exc Value :=
  match Obj.get_field n (fields (instance o)) with
  | Some v => Return v
  | None => Throw
  end.

Section NamedRecords.
(** [value()] on a field: the string the store keeps for it. *)
Variable value : Value -> string.

(** [p->getField("name").value()], with the exception it may raise. *)
Definition record_name (o : Object) : Exc string :=
  match getField "name" o with
  | Return v => Return (value v)
  | Throw => Throw
  end.

(** The body shared by [Singleton::havePalette], [haveAutoGain] and
    [haveFAT]: the first record whose name is [name] answers true, a
    record without a name is passed over. *)
Fixpoint haveNamed (name : string) (l : list Object) : bool :=
  match l with
  | [] => false
  | p :: l' =>
      match record_name p with
      | Return n => if String.eqb n name then true else haveNamed name l'
      | Throw => haveNamed name l'
      end
  end.



(** [Singleton::havePalette], [haveAutoGain], [haveFAT]. *)
Definition havePalette (name : string) (this : Presets) : bool :=
  haveNamed name (palettes this).
Definition haveAutoGain (name : string) (this : Presets) : bool :=
  haveNamed name (autoGains this).
Definition haveFAT (name : string) (this : Presets) : bool :=
  haveNamed name (FATs this).


End NamedRecords.

(** The string kept for a field in the scenarios: a string field is its
    own value. *)
Definition plain_value (v : Value) : string :=
  match v with
  | VString s => s
  | _ => EmptyString
  end.

(** *** Profiles and devices *)

Section Discovery.
Variable Lib : Type.
Variable suscan_source_device_walk : Lib -> list suscan_source_device_t.
(** [suscan_source_config_register], which may fail, and
    [Config::label()], both declared outside the sources. *)
Variable suscan_source_config_register :
  suscan_source_config_t -> Lib -> bool * Lib.
Variable label : suscan_source_config_t -> string.

(** [Singleton::refreshDevices]. *)
Definition refreshDevices (this : Singleton) (lib : Lib) : Singleton :=
  let this := set_devices [] this in
  fold_left (fun s d => registerSourceDevice d s)
    (suscan_source_device_walk lib) this.

(** [Singleton::saveProfile]. *)
Definition saveProfile (profile : suscan_source_config_t)
  (this : Singleton) (lib : Lib) : Exc unit * Singleton * Lib :=
  let this :=
    set_profiles (QMap.insert (label profile) profile (profiles this)) this in
  let r :=
    (* this->profiles[profile.label()], the entry just assigned *)
    match QMap.find (label profile) (profiles this) with
    | Some stored => suscan_source_config_register stored lib
    | None => suscan_source_config_register profile lib
    end in
  if fst r then (Return tt, this, snd r) else (Throw, this, snd r).
End Discovery.

(** The label [registerSourceConfig] files a configuration under. *)
Definition discovered_label (config : suscan_source_config_t) : string :=
  match config_label config with
  | Some l => l
  | None => "(Null profile)"%string
  end.

(** *** Loading the bookmarks *)

(** [static_cast<int>(i)] on an [unsigned int]. *)
Definition to_int (i : nat) : Z :=
  let z := (Z.of_nat i mod 2 ^ 32)%Z in
  if (z <? 2 ^ 31)%Z then z else (z - 2 ^ 32)%Z.

Section LoadBookmarks.
(** Declared outside the sources: [value()] on a field, the two [sscanf]
    conversions ([None] when nothing was converted), the cast of a
    [double] to [qint64] and the name of the [QColor] made from a
    string. *)
Variable value : Value -> string.
Variable scan_lg : string -> option float.
Variable scan_d : string -> option Z.
Variable qint64_of_double : float -> Z.
Variable QColor : string -> string.

Definition field_string (n : string) (o : Object) : Exc string :=
  match getField n o with
  | Return v => Return (value v)
  | Throw => Throw
  end.

Definition set_cuts_and_modulation (lo hi : Z) (m : string)
  (i : BookmarkInfo) : BookmarkInfo :=
  mkBookmarkInfo (bm_name i) (frequency i) (color i) lo hi m.

(** The inner [try] of the loop: the extended information.  The three
    fields are read first; a missing one leaves the bookmark as it is. *)
Definition load_extended (r : Object) (i : BookmarkInfo) : BookmarkInfo :=
  match field_string "low_freq_cut" r with
  | Throw => i
  | Return lowFreqCut0 =>
      match field_string "high_freq_cut" r with
      | Throw => i
      | Return highFreqCut0 =>
          match field_string "modulation" r with
          | Throw => i
          | Return modulation0 =>
              let lo :=
                match scan_d lowFreqCut0 with
                | Some z => z
                | None => lowFreqCut i
                end in
              let hi :=
                match scan_d highFreqCut0 with
                | Some z => z
                | None => highFreqCut i
                end in
              set_cuts_and_modulation lo hi modulation0 i
          end
      end
  end.

(** One iteration of the loop of [Singleton::init_bookmarks], on the
    record [r] at position [i]. *)
Definition init_bookmarks_step (i : nat) (r : Object)
  (m : QMap.t Z Bookmark) : QMap.t Z Bookmark :=
  match field_string "frequency" r with
  | Throw => m
  | Return frequency0 =>
      match field_string "name" r with
      | Throw => m
      | Return name0 =>
          match field_string "color" r with
          | Throw => m
          | Return color0 =>
              let info0 :=
                mkBookmarkInfo name0 (frequency (info Bookmark_fresh))
                  (QColor color0) (lowFreqCut (info Bookmark_fresh))
                  (highFreqCut (info Bookmark_fresh))
                  (modulation (info Bookmark_fresh)) in
              let info0 := load_extended r info0 in
              match scan_lg frequency0 with
              | Some freq =>
                  if Nat.ltb 0 (String.length name0) then
                    let info0 :=
                      mkBookmarkInfo (bm_name info0) (qint64_of_double freq)
                        (color info0) (lowFreqCut info0) (highFreqCut info0)
                        (modulation info0) in
                    QMap.insert (frequency info0)
                      (mkBookmark info0 (to_int i)) m
                  else m
              | None => m
              end
          end
      end
  end.

Fixpoint init_bookmarks_loop (i : nat) (lst : list Object)
  (m : QMap.t Z Bookmark) : QMap.t Z Bookmark :=
  match lst with
  | [] => m
  | r :: rest => init_bookmarks_loop (S i) rest (init_bookmarks_step i r m)
  end.

(** [Singleton::init_bookmarks]. *)
Definition init_bookmarks (db : ConfDB) (this : Singleton) : Singleton :=
  set_bookmarks
    (init_bookmarks_loop 0 (Ctx.items (ctx_bookmarks db)) (bookmarks this))
    this.
End LoadBookmarks.

(** *** Names of TLE files *)

Section NormalizeTLEName.
(** [QChar::isSpace], of the Qt library. *)
Variable isSpace : ascii -> bool.

Fixpoint trim_left (s : string) : string :=
  match s with
  | EmptyString => EmptyString
  | String c s' => if isSpace c then trim_left s' else s
  end.

Fixpoint trim_right (s : string) : string :=
  match s with
  | EmptyString => EmptyString
  | String c s' =>
      match trim_right s' with
      | EmptyString => if isSpace c then EmptyString else String c EmptyString
      | t => String c t
      end
  end.

(** [QString::trimmed]: the string without the white space at its start
    and at its end.  A [QString] is taken as the sequence of its code
    units, here those below 256. *)
Definition trimmed (s : string) : string := trim_right (trim_left s).

(** The class [-a-zA-Z0-9()] of the regular expression. *)
Definition in_class (c : ascii) : bool :=
  let n := nat_of_ascii c in
  Nat.eqb n 45
  || (Nat.leb 97 n && Nat.leb n 122)
  || (Nat.leb 65 n && Nat.leb n 90)
  || (Nat.leb 48 n && Nat.leb n 57)
  || Nat.eqb n 40 || Nat.eqb n 41.

(** [replace(QRegExp("[^-a-zA-Z0-9()]"), "_")]: every character outside
    the class becomes an underscore. *)
Fixpoint replace_outside_class (s : string) : string :=
  match s with
  | EmptyString => EmptyString
  | String c s' =>
      String (if in_class c then c else "_"%char) (replace_outside_class s')
  end.

(** [Singleton::normalizeTLEName]. *)
Definition normalizeTLEName (name : string) : string :=
  replace_outside_class (trimmed name).
End NormalizeTLEName.

(** Modelled from the spec: [QChar::isSpace] on the characters below 256:
    the blank, the controls from tab to carriage return, NEL and the
    no-break space. *)
Definition latin1_isSpace (c : ascii) : bool :=
  let n := nat_of_ascii c in
  Nat.eqb n 32 || (Nat.leb 9 n && Nat.leb n 13) || Nat.eqb n 133
  || Nat.eqb n 160.

(** Every character of a string satisfies [p]. *)
Fixpoint all_chars (p : ascii -> bool) (s : string) : bool :=
  match s with
  | EmptyString => true
  | String c s' => p c && all_chars p s'
  end.

(** *** Vocabulary of the further statements *)

(** Every entity of a collection is filed under its own name. *)
Definition tle_keyed (m : QMap.t string TLESource.t) : Prop :=
  forall k e, In (k, e) m -> TLESource.name e = k.

Definition locations_keyed (m : QMap.t string Location.t) : Prop :=
  forall k e, In (k, e) m -> Location.getLocationName e = k.

(** [persist] hands back the object it is given. *)
Definition persist_returns (persist : Object -> Exc Object) : Prop :=
  forall o, persist o = Return o.

(** A [Location] after its altitude went through the store: written in
    metres times 1e3, read back times 1e-3. *)
Definition through_store (user : bool) (l : Location.t) : Location.t :=
  Location.mk (Location.name l) (Location.country l)
    (mkXyz (lat (Location.site l)) (lon (Location.site l))
       (height (Location.site l) * 1e3 * 1e-3)%float)
    user.

(** A store that accepts the positional delete of every position it
    holds. *)
Definition deletes_in_range
  (list_remove : nat -> ConfigContext -> Exc ConfigContext) : Prop :=
  forall pos l, pos < List.length l -> returned (list_remove pos l) = true.

(** The recent list of the scenarios. *)
Definition recent_three : Singleton :=
  set_recentProfiles ["alpha"; "beta"; "gamma"]%string Singleton_blank.

Definition differs_from (name : string) (x : string) : bool :=
  negb (String.eqb x name).

(** The entries of a collection that belong to the user layer. *)
Definition user_tle_sources (m : QMap.t string TLESource.t)
  : QMap.t string TLESource.t :=
  filter (fun e => TLESource.user (snd e)) m.

Definition user_locations (m : QMap.t string Location.t)
  : QMap.t string Location.t :=
  filter (fun e => Location.userLocation (snd e)) m.

(** A persist that never raises, for the scenarios. *)
Definition persist_id (o : Object) : Exc Object := Return o.

(** The registry of the merge scenario once both layers are loaded. *)
Definition merged : Singleton :=
  init_tle_sources merge_db (init_locations merge_db Singleton_blank).

(** Both layer-aware collections file every entity under its own name
    and are in key order. *)
Definition layered_ok (this : Singleton) : Prop :=
  tle_keyed (tleSources this) /\ locations_keyed (locations this) /\
  QMap.sorted (tleSources this) /\ QMap.sorted (locations this).

(** An owned configuration and the store of the slot scenario. *)
Definition panel_config : Object :=
  Obj.set "panel" (VString "inspector") Obj.make.

Definition blank_object : Object :=
  mkObject (mkObjectData SUSCAN_OBJECT_TYPE_OBJECT EmptyString []) true.


(** The devices a walk hands to [registerSourceDevice], as stored. *)
Definition walked_devices (ds : list suscan_source_device_t)
  : list (suscan_source_device_t * nat) :=
  map (fun d => (d, 0%nat)) ds.

(** The profiles after a walk over the configurations [cs]: under every
    label the last configuration walked with it, else what was there. *)
Definition profiles_after_walk (cs : list suscan_source_config_t)
  (old new : QMap.t string suscan_source_config_t) : Prop :=
  forall k,
    QMap.find k new =
    match last_with_key discovered_label k cs with
    | Some c => Some c
    | None => QMap.find k old
    end.

(** A library of the scenarios: its state counts the calls, its walks
    visit two profiles, one of them without a label, and one device. *)
Definition walk_configs (n : nat) : list suscan_source_config_t :=
  [mkConfig (Some "rtl"%string) 1; mkConfig None 2].

Definition walk_devices (n : nat) : list suscan_source_device_t :=
  [mkDevice "RTL-SDR" "rtlsdr" false].

Definition always_ok (n : nat) : bool * nat := (true, S n).

(** A bookmark of the map that [init_bookmarks] stored from the record at
    a position below [n]: filed under its own frequency, named, with the
    position as its backing index. *)
Definition loaded_from_slot (n : nat) (k : Z) (bm : Bookmark) : Prop :=
  frequency (info bm) = k /\
  bm_name (info bm) <> EmptyString /\
  exists i, i < n /\ entry bm = to_int i.

(** Conversions of the scenarios: a frequency is read from a numeric
    field, nothing else is converted. *)
Definition no_scan (s : string) : option Z := None.

Definition scan_100MHz (s : string) : option float :=
  if String.eqb s "100000000" then Some 100000000%float else None.

Definition cast_100MHz (f : float) : Z := 100000000%Z.

Definition bookmark_fields (name freq : string) : ObjectData :=
  mkObjectData SUSCAN_OBJECT_TYPE_OBJECT EmptyString
    [("name", VString name); ("frequency", VString freq);
     ("color", VString "#ff0000")]%string.

Definition text_bookmarks_db : ConfDB :=
  set_ctx_bookmarks
    [bookmark_fields "skipped" "none"; bookmark_fields "beacon" "100000000"]
    empty_db.

(** The characters a normalized TLE name is made of. *)
Definition safe_char (c : ascii) : bool :=
  in_class c || Ascii.eqb c "_"%char.

Definition not_separator (c : ascii) : bool :=
  negb (Ascii.eqb c "/"%char) && negb (Ascii.eqb c "."%char).

(** The best-effort scenario with a home location: the registry of
    [five_locations] after the user has made L3 the home location and
    registered one TLE source, and a store whose "user_tle" context
    still holds the record of an earlier run. *)
Definition five_locations_home_L3 : Singleton :=
  let s :=
    fst (setQth (fun _ (lib : unit) => lib) (user_location "L3")
           five_locations tt) in
  snd (registerTLESource (TLESource.mk "mine" "usr://mine" false) s).

Definition stale_tle_db : ConfDB :=
  set_ctx_user_tle [tle_record "stale" "usr://stale"] empty_db.





(** The bookmark [bm] holds what the loop of [init_bookmarks] reads from
    the record [r]: its name is the value of the field "name" and its
    frequency is the one converted from the field "frequency". *)
Definition read_from (value : Value -> string)
  (scan_lg : string -> option float) (qint64_of_double : float -> Z)
  (r : Object) (bm : Bookmark) : Prop :=
  field_string value "name" r = Return (bm_name (info bm)) /\
  exists (f : string) (freq : float),
    field_string value "frequency" r = Return f /\
    scan_lg f = Some freq /\
    frequency (info bm) = qint64_of_double freq.

(* ================================================================== *)
(** * Part II: properties                                              *)
(* ================================================================== *)

(** ** The key orders are total orders *)

#[export] Instance qint64_order_laws : KeyOrderLaws Z.
Proof.
  split; unfold key_compare, qint64_order.
  - intros a b. apply Z.compare_eq_iff.
  - intros a b. apply Z.compare_antisym.
  - intros a b c Hab Hbc.
    rewrite Z.compare_lt_iff in *. lia.
Qed.

#[export] Instance string_order_laws : KeyOrderLaws string.
Proof.
  split; unfold key_compare, string_order.
  - intros a b. apply OrderedTypeEx.String_as_OT.cmp_eq.
  - intros a b. apply String.compare_antisym.
  - intros a b c Hab Hbc.
    apply OrderedTypeEx.String_as_OT.cmp_lt.
    apply OrderedTypeEx.String_as_OT.lt_trans with b;
      apply OrderedTypeEx.String_as_OT.cmp_lt; assumption.
Qed.

Section KeyFacts.
Context {K : Type} `{KeyOrderLaws K}.

Lemma key_compare_refl (a : K) : key_compare a a = Eq.
Proof. apply key_compare_eq. reflexivity. Qed.

Lemma key_compare_gt_lt (a b : K) :
  key_compare a b = Gt <-> key_compare b a = Lt.
Proof.
  rewrite (key_compare_antisym a b).
  destruct (key_compare a b); simpl; split; congruence.
Qed.

Lemma key_compare_neq (a b : K) : a <> b -> key_compare a b <> Eq.
Proof. intros Hne Heq. apply Hne. apply key_compare_eq. assumption. Qed.

Lemma key_lt_trans (a b c : K) : key_lt a b -> key_lt b c -> key_lt a c.
Proof. apply key_compare_trans. Qed.

Lemma key_lt_le (a b : K) : key_lt a b -> key_le a b.
Proof. unfold key_lt, key_le. intros ->. discriminate. Qed.

Lemma key_le_refl (a : K) : key_le a a.
Proof. unfold key_le. rewrite key_compare_refl. discriminate. Qed.

Lemma key_not_lt_le (a b : K) : key_compare a b <> Lt -> key_le b a.
Proof.
  unfold key_le. intros Hn Hgt. apply Hn.
  apply key_compare_gt_lt. assumption.
Qed.
End KeyFacts.

(** ** QMap: lookups after updates, and the order invariant *)

Section QMapFacts.
Context {K V : Type} `{KeyOrderLaws K}.
Implicit Types (k : K) (v : V) (m : QMap.t K V).

Lemma find_insert_same k v m : QMap.find k (QMap.insert k v m) = Some v.
Proof.
  induction m as [|[k' v'] m IH]; simpl.
  - rewrite key_compare_refl. reflexivity.
  - destruct (key_compare k k') eqn:E; simpl.
    + rewrite key_compare_refl. reflexivity.
    + rewrite key_compare_refl. reflexivity.
    + rewrite E. exact IH.
Qed.

Lemma find_insert_other k k0 v m :
  k0 <> k -> QMap.find k0 (QMap.insert k v m) = QMap.find k0 m.
Proof.
  intros Hne.
  assert (Hk : key_compare k0 k <> Eq) by (apply key_compare_neq; assumption).
  induction m as [|[k' v'] m IH]; simpl.
  - destruct (key_compare k0 k); congruence.
  - destruct (key_compare k k') eqn:E; simpl.
    + apply key_compare_eq in E. subst k'.
      destruct (key_compare k0 k); congruence.
    + destruct (key_compare k0 k); congruence.
    + rewrite IH. reflexivity.
Qed.

Lemma find_remove_same k m : QMap.find k (QMap.remove k m) = None.
Proof.
  induction m as [|[k' v'] m IH]; simpl; auto.
  destruct (key_compare k k') eqn:E; simpl; try rewrite E; auto.
Qed.

Lemma find_remove_other k k0 m :
  k0 <> k -> QMap.find k0 (QMap.remove k m) = QMap.find k0 m.
Proof.
  intros Hne.
  assert (Hk : key_compare k0 k <> Eq) by (apply key_compare_neq; assumption).
  induction m as [|[k' v'] m IH]; simpl; auto.
  destruct (key_compare k k') eqn:E; simpl.
  - apply key_compare_eq in E. subst k'.
    destruct (key_compare k0 k); congruence.
  - rewrite IH. reflexivity.
  - rewrite IH. reflexivity.
Qed.

Lemma contains_find k m :
  QMap.contains k m = true <-> QMap.find k m <> None.
Proof.
  unfold QMap.contains. destruct (QMap.find k m); split; congruence.
Qed.

Lemma contains_false_find k m :
  QMap.contains k m = false <-> QMap.find k m = None.
Proof.
  unfold QMap.contains. destruct (QMap.find k m); split; congruence.
Qed.

Lemma lower_than_all_In k m k' v' :
  QMap.lower_than_all k m -> In (k', v') m -> key_lt k k'.
Proof.
  induction m as [|[k1 v1] m IH]; simpl; [tauto|].
  intros [Hlt Hrest] [Heq | Hin].
  - inversion Heq; subst. assumption.
  - auto.
Qed.

Lemma lower_than_all_weaken k k' m :
  key_lt k k' -> QMap.lower_than_all k' m -> QMap.lower_than_all k m.
Proof.
  intros Hlt. induction m as [|[k1 v1] m IH]; simpl; auto.
  intros [H1 H2]. split; auto. eapply key_lt_trans; eassumption.
Qed.

Lemma In_find k v m : QMap.sorted m -> In (k, v) m -> QMap.find k m = Some v.
Proof.
  induction m as [|[k' v'] m IH]; simpl; [tauto|].
  intros [Hlow Hs] [Heq | Hin].
  - inversion Heq; subst. rewrite key_compare_refl. reflexivity.
  - assert (Hlt : key_lt k' k) by (eapply lower_than_all_In; eassumption).
    apply key_compare_gt_lt in Hlt. rewrite Hlt. auto.
Qed.

Lemma lower_than_all_insert k0 k v m :
  key_lt k0 k -> QMap.lower_than_all k0 m ->
  QMap.lower_than_all k0 (QMap.insert k v m).
Proof.
  intros Hlt. induction m as [|[k' v'] m IH]; simpl.
  - auto.
  - intros [H1 H2]. destruct (key_compare k k'); simpl; auto.
Qed.

Lemma insert_sorted k v m : QMap.sorted m -> QMap.sorted (QMap.insert k v m).
Proof.
  induction m as [|[k' v'] m IH]; simpl; auto.
  intros [Hlow Hs].
  destruct (key_compare k k') eqn:E; simpl.
  - apply key_compare_eq in E. subst. auto.
  - repeat split; auto.
    eapply lower_than_all_weaken; eassumption.
  - split; auto. apply lower_than_all_insert; auto.
    apply key_compare_gt_lt. assumption.
Qed.

Lemma lower_than_all_remove k0 k m :
  QMap.lower_than_all k0 m -> QMap.lower_than_all k0 (QMap.remove k m).
Proof.
  induction m as [|[k' v'] m IH]; simpl; auto.
  intros [H1 H2]. destruct (key_compare k k'); simpl; auto.
Qed.

Lemma remove_sorted k m : QMap.sorted m -> QMap.sorted (QMap.remove k m).
Proof.
  induction m as [|[k' v'] m IH]; simpl; auto.
  intros [Hlow Hs].
  destruct (key_compare k k'); simpl; auto using lower_than_all_remove.
Qed.
End QMapFacts.

(** ** Register, remove *)

(** C4.  Each register operation (bookmarks by frequency, locations by
    name, TLE sources by name, spectrum units by name) returns true exactly
    when the key was absent, and then the collection is the old one with the
    new entity under its key; on a collision it returns false, raises
    nothing and hands back the registry it was given. *)
Theorem register_inserts_iff_absent :
  (forall (info : BookmarkInfo) (this : Singleton),
      let r := registerBookmark info this in
      (fst r = true <-> QMap.find (frequency info) (bookmarks this) = None) /\
      (fst r = true ->
       exists m', snd r = set_bookmarks m' this /\
         inserted (frequency info) (mkBookmark info (-1)) (bookmarks this) m') /\
      (fst r = false -> snd r = this)) /\
  (forall (loc : Location.t) (this : Singleton),
      let r := registerLocation loc this in
      (fst r = true <->
       QMap.find (Location.getLocationName loc) (locations this) = None) /\
      (fst r = true ->
       exists m', snd r = set_locations m' this /\
         inserted (Location.getLocationName loc)
           (Location.set_userLocation true loc) (locations this) m') /\
      (fst r = false -> snd r = this)) /\
  (forall (src : TLESource.t) (this : Singleton),
      let r := registerTLESource src this in
      (fst r = true <-> QMap.find (TLESource.name src) (tleSources this) = None) /\
      (fst r = true ->
       exists m', snd r = set_tleSources m' this /\
         inserted (TLESource.name src) (TLESource.set_user true src)
           (tleSources this) m') /\
      (fst r = false -> snd r = this)) /\
  (forall (name : string) (dB zero : float) (this : Singleton),
      let r := registerSpectrumUnit name dB zero this in
      (fst r = true <-> QMap.find name (spectrumUnits this) = None) /\
      (fst r = true ->
       exists m', snd r = set_spectrumUnits m' this /\
         inserted name (mkSpectrumUnit name dB zero) (spectrumUnits this) m') /\
      (fst r = false -> snd r = this)).
Proof.
  repeat apply conj; intros ? ?; intros; subst r.
  all: unfold registerBookmark, registerLocation, registerTLESource,
         registerSpectrumUnit.
  all: match goal with
       | |- context [QMap.contains ?k ?m] =>
           destruct (QMap.contains k m) eqn:E; simpl
       end.
  all: repeat apply conj; try discriminate; try reflexivity; intros.
  all: try (apply contains_find in E; congruence).
  all: try (apply contains_false_find in E; assumption).
  all: eexists; split; [reflexivity|]; split;
         [apply find_insert_same | intros; apply find_insert_other; assumption].
Qed.

(** C5.  [removeTLESource], the remove operation of the layer-aware
    collections of the catalog: false and no change when the name is
    absent, false and no change when the source is not user-owned, true
    and the source gone (everything else as it was) when it is
    user-owned. *)
Theorem remove_respects_ownership :
  forall (name : string) (this : Singleton),
    let r := removeTLESource name this in
    (QMap.find name (tleSources this) = None -> r = (false, this)) /\
    (forall src, QMap.find name (tleSources this) = Some src ->
                 TLESource.user src = false -> r = (false, this)) /\
    (forall src, QMap.find name (tleSources this) = Some src ->
                 TLESource.user src = true ->
                 fst r = true /\
                 exists m', snd r = set_tleSources m' this /\
                            removed name (tleSources this) m').
Proof.
  intros name this r. subst r. unfold removeTLESource.
  repeat apply conj.
  - intros ->. reflexivity.
  - intros src -> ->. reflexivity.
  - intros src -> ->. simpl. split; [reflexivity|].
    eexists. split; [reflexivity|]. split.
    + apply find_remove_same.
    + intros k' Hk'. apply find_remove_other. assumption.
Qed.

(** C9.  A successful [registerLocation] or [registerTLESource] stores the
    entity with its user flag set, whatever flag the caller passed: the
    stored entity is the argument with the flag forced to true, and a TLE
    source registered this way can be removed again. *)
Theorem register_marks_user_owned :
  (forall (loc : Location.t) (this : Singleton),
      fst (registerLocation loc this) = true ->
      exists stored,
        QMap.find (Location.getLocationName loc)
          (locations (snd (registerLocation loc this))) = Some stored /\
        Location.userLocation stored = true /\
        stored = Location.set_userLocation true loc) /\
  (forall (src : TLESource.t) (this : Singleton),
      fst (registerTLESource src this) = true ->
      (exists stored,
        QMap.find (TLESource.name src)
          (tleSources (snd (registerTLESource src this))) = Some stored /\
        TLESource.user stored = true /\
        stored = TLESource.set_user true src) /\
      fst (removeTLESource (TLESource.name src)
             (snd (registerTLESource src this))) = true).
Proof.
  split.
  - intros loc this. unfold registerLocation.
    destruct (QMap.contains _ (locations this)); simpl; [discriminate|].
    intros _. eexists. split; [apply find_insert_same|]. split; reflexivity.
  - intros src this. unfold registerTLESource.
    destruct (QMap.contains _ (tleSources this)); simpl; [discriminate|].
    intros _. split.
    + eexists. split; [apply find_insert_same|]. split; reflexivity.
    + unfold removeTLESource. simpl.
      rewrite (find_insert_same (TLESource.name src)). reflexivity.
Qed.

(** ** Range queries *)

Section LowerBound.
Context {K V : Type} `{KeyOrderLaws K}.

Lemma lowerBound_is_lower_bound (k : K) (m : QMap.t K V) :
  QMap.sorted m -> is_lower_bound k m (QMap.lowerBound k m).
Proof.
  unfold is_lower_bound.
  induction m as [|[k0 v0] m IH]; simpl.
  - intros _. split; [exists []; simpl; tauto | tauto].
  - intros [Hlow Hs]. specialize (IH Hs). destruct IH as [[before [Hm Hb]] IH].
    destruct (key_compare k0 k) eqn:E.
    + split.
      * exists []. simpl. split; [reflexivity | tauto].
      * apply key_compare_eq in E. subst k0. split; [apply key_le_refl|].
        intros k1 v1 [Heq | Hin] _.
        -- inversion Heq. apply key_le_refl.
        -- apply key_lt_le. eapply lower_than_all_In; eassumption.
    + split.
      * exists ((k0, v0) :: before). simpl. split; [congruence|].
        intros k1 v1 [Heq | Hin]; [inversion Heq; subst; exact E | eauto].
      * destruct (QMap.lowerBound k m) as [|[k' v'] rest].
        -- intros k1 v1 [Heq | Hin]; [inversion Heq; subst; exact E | eauto].
        -- destruct IH as [Hle Hmin]. split; [assumption|].
           intros k1 v1 [Heq | Hin] Hk1; [|eauto].
           inversion Heq; subst. exfalso. apply Hk1.
           apply key_compare_gt_lt. exact E.
    + split.
      * exists []. simpl. split; [reflexivity | tauto].
      * split.
        -- apply key_not_lt_le. rewrite E. discriminate.
        -- intros k1 v1 [Heq | Hin] _.
           ++ inversion Heq. apply key_le_refl.
           ++ apply key_lt_le. eapply lower_than_all_In; eassumption.
Qed.

Lemma is_lower_bound_end (k : K) (m it : QMap.t K V) :
  is_lower_bound k m it ->
  (it = [] <-> forall k1 v1, In (k1, v1) m -> key_lt k1 k).
Proof.
  unfold is_lower_bound. intros [[before [Hm Hb]] Hit]. split.
  - intros ->. exact Hit.
  - intros Hall. destruct it as [|[k' v'] rest]; [reflexivity|].
    destruct Hit as [Hle _]. exfalso. apply Hle.
    apply key_compare_gt_lt. apply (Hall k' v').
    rewrite Hm. apply in_or_app. right. left. reflexivity.
Qed.
End LowerBound.

(** The three units of the scenario are held in ascending order of name. *)
Lemma three_units_sorted : QMap.sorted (spectrumUnits three_units).
Proof. vm_compute. repeat split. Qed.

(** In the scenario the lower bound of dBJy is the unit dBK: dBFS is
    below dBJy, dBK and dBW/Hz are above it. *)
Example three_units_from_dBJy :
  map fst (getSpectrumUnitFrom "dBJy" three_units) = ["dBK"; "dBW/Hz"]%string.
Proof. reflexivity. Qed.

(** C8.  [getBookmarkFrom] and [getSpectrumUnitFrom] return the lower
    bound of the query key: the first item, in iteration order, whose key
    is greater than or equal to the query, which is the least such key of
    the collection, or the end iterator when every key is below the
    query. *)
Theorem range_query_is_lower_bound :
  forall this : Singleton,
    QMap.sorted (bookmarks this) ->
    QMap.sorted (spectrumUnits this) ->
    answers_lower_bound this.
Proof.
  intros this Hb Hu. split; intros q; split.
  - apply lowerBound_is_lower_bound. assumption.
  - apply is_lower_bound_end. apply lowerBound_is_lower_bound. assumption.
  - apply lowerBound_is_lower_bound. assumption.
  - apply is_lower_bound_end. apply lowerBound_is_lower_bound. assumption.
Qed.

(** The lower-bound scenario of the units dBFS, dBK and dBW/Hz. *)
Lemma range_query_three_units : answers_lower_bound three_units.
Proof.
  apply (range_query_is_lower_bound three_units).
  - simpl. exact I.
  - vm_compute. repeat split.
Defined.

(** ** Layered load *)

Lemma last_with_key_app {V : Type} (key : V -> string) (k : string)
  (a b : list V) :
  last_with_key key k (a ++ b) =
  match last_with_key key k b with
  | Some e => Some e
  | None => last_with_key key k a
  end.
Proof.
  induction a as [|v a IH]; simpl.
  - destruct (last_with_key key k b); reflexivity.
  - rewrite IH. destruct (last_with_key key k b); reflexivity.
Qed.

Lemma last_with_key_In {V : Type} (key : V -> string) (k : string)
  (l : list V) (e : V) :
  last_with_key key k l = Some e -> In e l /\ key e = k.
Proof.
  induction l as [|v l IH]; simpl; [discriminate|].
  destruct (last_with_key key k l) as [w|].
  - intros Hw. inversion Hw; subst. destruct (IH eq_refl). auto.
  - destruct (String.eqb (key v) k) eqn:E; [|discriminate].
    intros Hv. inversion Hv; subst. apply String.eqb_eq in E. auto.
Qed.

(** The map a loader builds holds, under each key, the last entity loaded
    with that key; keys no record carries keep what the map held. *)
Lemma loadLocations_find (lst : list Object) :
  forall (loc : Location.t) (m : QMap.t string Location.t) (k : string),
    QMap.find k (loadLocations lst loc m) =
    match last_with_key Location.getLocationName k (loadedLocations lst loc) with
    | Some e => Some e
    | None => QMap.find k m
    end.
Proof.
  induction lst as [|r rest IH]; intros loc m k; simpl; [reflexivity|].
  rewrite IH.
  destruct (last_with_key _ k (loadedLocations rest _)); [reflexivity|].
  destruct (String.eqb _ k) eqn:E.
  - apply String.eqb_eq in E. rewrite <- E. apply find_insert_same.
  - apply String.eqb_neq in E. apply find_insert_other. congruence.
Qed.

Lemma loadTLESources_find (lst : list Object) :
  forall (src : TLESource.t) (m : QMap.t string TLESource.t) (k : string),
    QMap.find k (loadTLESources lst src m) =
    match last_with_key TLESource.name k (loadedTLESources lst src) with
    | Some e => Some e
    | None => QMap.find k m
    end.
Proof.
  induction lst as [|r rest IH]; intros src m k; simpl; [reflexivity|].
  rewrite IH.
  destruct (last_with_key _ k (loadedTLESources rest _)); [reflexivity|].
  destruct (String.eqb _ k) eqn:E.
  - apply String.eqb_eq in E. rewrite <- E. apply find_insert_same.
  - apply String.eqb_neq in E. apply find_insert_other. congruence.
Qed.

(** Every entity a loader produces carries the layer flag of its target. *)
Lemma loadedLocations_layer (lst : list Object) :
  forall (loc : Location.t) (e : Location.t),
    In e (loadedLocations lst loc) ->
    Location.userLocation e = Location.userLocation loc.
Proof.
  induction lst as [|r rest IH]; intros loc e; simpl; [tauto|].
  intros [<- | Hin]; [reflexivity|].
  rewrite (IH _ _ Hin). reflexivity.
Qed.

Lemma loadedTLESources_layer (lst : list Object) :
  forall (src : TLESource.t) (e : TLESource.t),
    In e (loadedTLESources lst src) ->
    TLESource.user e = TLESource.user src.
Proof.
  induction lst as [|r rest IH]; intros src e; simpl; [tauto|].
  intros [<- | Hin]; [reflexivity|].
  rewrite (IH _ _ Hin). reflexivity.
Qed.

Lemma locations_init_locations (db : ConfDB) (this : Singleton) :
  locations (init_locations db this) =
  loadLocations (Ctx.items (ctx_user_locations db)) (location_target true)
    (loadLocations (Ctx.items (ctx_locations db)) (location_target false)
       (locations this)).
Proof.
  unfold init_locations.
  destruct (Ctx.items (ctx_qth db)) as [|r rest]; [reflexivity|].
  destruct (Obj.getType r); try reflexivity.
  destruct (String.eqb _ _); reflexivity.
Qed.

(** C1, as the claim states it, fails on the merge scenario: with A and B
    in the system context and B and C in the user context, the entity kept
    under B is the one of the user context, for Locations and for TLE
    sources alike. *)
Lemma layered_load_first_wins_fails :
  ~ (location_layers (init_locations merge_db Singleton_blank)
     = [("A", false); ("B", false); ("C", true)]%string) /\
  location_layers (init_locations merge_db Singleton_blank)
    = [("A", false); ("B", true); ("C", true)]%string /\
  option_map (fun e => lat (Location.site e))
    (QMap.find "B"%string (locations (init_locations merge_db Singleton_blank)))
    = Some 3%float /\
  tle_layers (init_tle_sources merge_db Singleton_blank)
    = [("A", false); ("B", true); ("C", true)]%string /\
  option_map TLESource.url
    (QMap.find "B"%string (tleSources (init_tle_sources merge_db Singleton_blank)))
    = Some "usr://b"%string.
Proof.
  repeat apply conj; try reflexivity.
  vm_compute. discriminate.
Qed.

(** C1, amended.  Loading the system context and then the user context
    keeps, under every key, the last entity loaded with that key: the
    system layer is read first, each record overwrites the entry of its
    key, so a key present in both layers ends with the entity of the user
    layer, tagged user-owned, and a key no record carries keeps what the
    collection held before. *)
Theorem layered_load_last_wins :
  forall (db : ConfDB) (this : Singleton) (k : string),
    let sysL :=
      loadedLocations (Ctx.items (ctx_locations db)) (location_target false) in
    let usrL :=
      loadedLocations (Ctx.items (ctx_user_locations db)) (location_target true) in
    let sysT :=
      loadedTLESources (Ctx.items (ctx_tle db))
        (TLESource.set_user false TLESource.fresh) in
    let usrT :=
      loadedTLESources (Ctx.items (ctx_user_tle db))
        (TLESource.set_user true TLESource.fresh) in
    (QMap.find k (locations (init_locations db this)) =
       match last_with_key Location.getLocationName k (sysL ++ usrL) with
       | Some e => Some e
       | None => QMap.find k (locations this)
       end) /\
    (forall e, last_with_key Location.getLocationName k usrL = Some e ->
               QMap.find k (locations (init_locations db this)) = Some e /\
               Location.userLocation e = true) /\
    (forall e, In e sysL -> Location.userLocation e = false) /\
    (QMap.find k (tleSources (init_tle_sources db this)) =
       match last_with_key TLESource.name k (sysT ++ usrT) with
       | Some e => Some e
       | None => QMap.find k (tleSources this)
       end) /\
    (forall e, last_with_key TLESource.name k usrT = Some e ->
               QMap.find k (tleSources (init_tle_sources db this)) = Some e /\
               TLESource.user e = true) /\
    (forall e, In e sysT -> TLESource.user e = false).
Proof.
  intros db this k sysL usrL sysT usrT.
  assert (HL : QMap.find k (locations (init_locations db this)) =
               match last_with_key Location.getLocationName k (sysL ++ usrL) with
               | Some e => Some e
               | None => QMap.find k (locations this)
               end).
  { rewrite locations_init_locations, loadLocations_find, loadLocations_find.
    rewrite last_with_key_app. fold sysL usrL.
    destruct (last_with_key _ k usrL); reflexivity. }
  assert (HT : QMap.find k (tleSources (init_tle_sources db this)) =
               match last_with_key TLESource.name k (sysT ++ usrT) with
               | Some e => Some e
               | None => QMap.find k (tleSources this)
               end).
  { unfold init_tle_sources, initTLESourcesFromContext. simpl.
    rewrite loadTLESources_find, loadTLESources_find.
    rewrite last_with_key_app. fold sysT usrT.
    destruct (last_with_key _ k usrT); reflexivity. }
  repeat apply conj.
  - exact HL.
  - intros e He. rewrite HL, last_with_key_app, He. split; [reflexivity|].
    apply last_with_key_In in He. destruct He as [Hin _].
    apply loadedLocations_layer in Hin. exact Hin.
  - intros e Hin. apply loadedLocations_layer in Hin. exact Hin.
  - exact HT.
  - intros e He. rewrite HT, last_with_key_app, He. split; [reflexivity|].
    apply last_with_key_In in He. destruct He as [Hin _].
    apply loadedTLESources_layer in Hin. exact Hin.
  - intros e Hin. apply loadedTLESources_layer in Hin. exact Hin.
Qed.

(** ** The deserialization target *)

Lemma loadedLocations_app (a b : list Object) :
  forall loc : Location.t,
    loadedLocations (a ++ b) loc =
    loadedLocations a loc ++ loadedLocations b (target_after a loc).
Proof.
  induction a as [|r a IH]; intros loc; simpl; [reflexivity|].
  rewrite IH. reflexivity.
Qed.

(** The map a loader builds is the map it was given with the loaded
    entities stored one after the other, each under its name. *)
Lemma loadLocations_stores_loaded (lst : list Object) :
  forall (loc : Location.t) (m : QMap.t string Location.t),
    loadLocations lst loc m =
    fold_left (fun m e => QMap.insert (Location.getLocationName e) e m)
      (loadedLocations lst loc) m.
Proof.
  induction lst as [|r rest IH]; intros loc m; simpl; [reflexivity|].
  apply IH.
Qed.



(** The second record of [sparse_context] has no country, coordinates or
    altitude: the entity loaded from it takes the country and coordinates
    of the first record, and its altitude is the altitude loaded from the
    first record scaled once more. *)
Example sparse_context_inherits :
  map (fun e => (fst e, Location.country (snd e), height (Location.site (snd e))))
    (locations (initLocationsFromContext sparse_context true Singleton_blank))
  = [("A", "X", 1)%float; ("B", "X", 1 * 1e-3)%float]%string.
Proof. vm_compute. reflexivity. Qed.




(** ** Full rewrite *)

Section FullRewrite.
Variable persist : Object -> Exc Object.

Lemma syncLocations_loop (vals : list Location.t) :
  forall lst : ConfigContext,
    fold_left (syncLocations_step persist) vals lst =
    lst ++ serialized (Location.serialize persist)
             (filter Location.userLocation vals).
Proof.
  induction vals as [|p vals IH]; intros lst; simpl.
  - rewrite app_nil_r. reflexivity.
  - rewrite IH. unfold syncLocations_step.
    destruct (Location.userLocation p); [|reflexivity].
    simpl. destruct (Location.serialize persist p); [|reflexivity].
    unfold Ctx.append. rewrite <- app_assoc. reflexivity.
Qed.

Lemma syncTLESources_loop (vals : list TLESource.t) :
  forall lst : ConfigContext,
    fold_left (syncTLESources_step persist) vals lst =
    lst ++ serialized (TLESource.serialize persist)
             (filter TLESource.user vals).
Proof.
  induction vals as [|p vals IH]; intros lst; simpl.
  - rewrite app_nil_r. reflexivity.
  - rewrite IH. unfold syncTLESources_step.
    destruct (TLESource.user p); [|reflexivity].
    simpl. destruct (TLESource.serialize persist p); [|reflexivity].
    unfold Ctx.append. rewrite <- app_assoc. reflexivity.
Qed.

(** The user locations context after [syncLocations], whether or not the
    call returns. *)
Lemma syncLocations_user_locations (this : Singleton) (db : ConfDB) :
  ctx_user_locations (snd (syncLocations persist this db)) =
  serialized (Location.serialize persist)
    (filter Location.userLocation (QMap.values (locations this))).
Proof.
  unfold syncLocations. rewrite syncLocations_loop. simpl.
  destruct (have_qth this); [|reflexivity].
  destruct (Location.serialize persist (qth this)); reflexivity.
Qed.

Lemma syncLocations_returns (this : Singleton) (db : ConfDB) :
  (have_qth this = true ->
   returned (Location.serialize persist (qth this)) = true) ->
  fst (syncLocations persist this db) = Return tt.
Proof.
  intros Hq. unfold syncLocations.
  destruct (have_qth this); [|reflexivity].
  specialize (Hq eq_refl).
  destruct (Location.serialize persist (qth this)); [reflexivity|discriminate].
Qed.

(** The write of the home location is outside every [try]: when its
    serialization raises, the exception leaves [syncLocations] and
    [sync]. *)
Lemma syncLocations_qth_failure_escapes (this : Singleton) (db : ConfDB) :
  have_qth this = true ->
  Location.serialize persist (qth this) = Throw ->
  fst (syncLocations persist this db) = Throw /\
  fst (sync persist this db) = Throw.
Proof.
  intros Hq Hs. unfold sync, syncLocations. rewrite Hq, Hs. simpl. auto.
Qed.

Lemma syncTLESources_user_tle (this : Singleton) (db : ConfDB) :
  ctx_user_tle (syncTLESources persist this db) =
  serialized (TLESource.serialize persist)
    (filter TLESource.user (QMap.values (tleSources this))).
Proof.
  unfold syncTLESources. rewrite syncTLESources_loop. reflexivity.
Qed.
End FullRewrite.

(** In the scenario the record of L3 is the only one [persist] refuses:
    the user locations context ends with L1, L2, L4 and L5, in that order,
    whatever it held before, and [sync] returns. *)
Example five_locations_sync :
  forall stale : ConfigContext,
    let db := set_ctx_user_locations stale empty_db in
    fst (sync persist_but_L3 five_locations db) = Return tt /\
    record_names (ctx_user_locations (snd (sync persist_but_L3 five_locations db)))
    = ["L1"; "L2"; "L4"; "L5"]%string.
Proof. intros stale db. split; reflexivity. Qed.

(** The guarded part of a full rewrite.  The loops of [syncLocations] and
    [syncTLESources] skip exactly the entities whose serialization raises,
    and the cleared context holds the records of the user-owned entities
    that serialized, in the order of the collection.  When no home
    location is set, or the home location serializes, the calls return. *)
Lemma full_rewrite_skips_failed_records :
  forall (persist : Object -> Exc Object) (this : Singleton) (db : ConfDB),
    (have_qth this = true ->
     returned (Location.serialize persist (qth this)) = true) ->
    fst (syncLocations persist this db) = Return tt /\
    ctx_user_locations (snd (syncLocations persist this db)) =
      serialized (Location.serialize persist)
        (filter Location.userLocation (QMap.values (locations this))) /\
    ctx_user_tle (syncTLESources persist this db) =
      serialized (TLESource.serialize persist)
        (filter TLESource.user (QMap.values (tleSources this))) /\
    fst (sync persist this db) = Return tt /\
    ctx_user_locations (snd (sync persist this db)) =
      serialized (Location.serialize persist)
        (filter Location.userLocation (QMap.values (locations this))) /\
    ctx_user_tle (snd (sync persist this db)) =
      serialized (TLESource.serialize persist)
        (filter TLESource.user (QMap.values (tleSources this))).
Proof.
  intros persist this db Hq.
  pose proof (syncLocations_returns persist this) as Hret.
  pose proof (syncLocations_user_locations persist this) as Hloc.
  repeat apply conj.
  - apply Hret. assumption.
  - apply Hloc.
  - apply syncTLESources_user_tle.
  - unfold sync.
    specialize (Hret (syncBookmarks this (syncUI this (syncRecent this db))) Hq).
    destruct (syncLocations persist this _) as [[[]|] db']; simpl in *;
      [reflexivity | discriminate].
  - unfold sync.
    specialize (Hret (syncBookmarks this (syncUI this (syncRecent this db))) Hq).
    specialize (Hloc (syncBookmarks this (syncUI this (syncRecent this db)))).
    destruct (syncLocations persist this _) as [[[]|] db']; simpl in *;
      [exact Hloc | discriminate].
  - unfold sync.
    specialize (Hret (syncBookmarks this (syncUI this (syncRecent this db))) Hq).
    destruct (syncLocations persist this _) as [[[]|] db']; simpl in *;
      [apply syncTLESources_user_tle | discriminate].
Qed.

(** The best-effort scenario: five user locations, the third refused. *)
Example full_rewrite_five_locations :
  fst (syncLocations persist_but_L3 five_locations empty_db) = Return tt /\
  ctx_user_locations (snd (syncLocations persist_but_L3 five_locations empty_db)) =
    serialized (Location.serialize persist_but_L3)
      (filter Location.userLocation (QMap.values (locations five_locations))) /\
  ctx_user_tle (syncTLESources persist_but_L3 five_locations empty_db) =
    serialized (TLESource.serialize persist_but_L3)
      (filter TLESource.user (QMap.values (tleSources five_locations))) /\
  fst (sync persist_but_L3 five_locations empty_db) = Return tt /\
  ctx_user_locations (snd (sync persist_but_L3 five_locations empty_db)) =
    serialized (Location.serialize persist_but_L3)
      (filter Location.userLocation (QMap.values (locations five_locations))) /\
  ctx_user_tle (snd (sync persist_but_L3 five_locations empty_db)) =
    serialized (TLESource.serialize persist_but_L3)
      (filter TLESource.user (QMap.values (tleSources five_locations))).
Proof.
  apply (full_rewrite_skips_failed_records persist_but_L3 five_locations empty_db).
  simpl. discriminate.
Qed.

(** A [sync] that raises has not run [syncTLESources]: the "user_tle"
    context is the one the store held. *)
Lemma sync_raise_skips_tle (persist : Object -> Exc Object) (this : Singleton)
  (db : ConfDB) :
  fst (sync persist this db) = Throw ->
  have_qth this = true /\
  Location.serialize persist (qth this) = Throw /\
  ctx_user_tle (snd (sync persist this db)) = ctx_user_tle db /\
  ctx_qth (snd (sync persist this db)) = [].
Proof.
  unfold sync, syncLocations.
  destruct (have_qth this); [|discriminate].
  destruct (Location.serialize persist (qth this)); [discriminate|].
  intros _. repeat apply conj; reflexivity.
Qed.

(** What [sync] leaves in the store and when it raises, for every
    registry, store and [persist]: the loops skip the entities whose
    serialization raises, and the one exception that leaves the call is
    the one of the home location. *)
Lemma sync_outcome (persist : Object -> Exc Object) (this : Singleton)
  (db : ConfDB) :
  ctx_user_locations (snd (sync persist this db)) =
    serialized (Location.serialize persist)
      (filter Location.userLocation (QMap.values (locations this))) /\
  (fst (sync persist this db) = Throw <->
   have_qth this = true /\ Location.serialize persist (qth this) = Throw) /\
  (fst (sync persist this db) = Throw ->
   ctx_user_tle (snd (sync persist this db)) = ctx_user_tle db /\
   ctx_qth (snd (sync persist this db)) = []) /\
  (fst (sync persist this db) = Return tt ->
   ctx_user_tle (snd (sync persist this db)) =
     serialized (TLESource.serialize persist)
       (filter TLESource.user (QMap.values (tleSources this)))).
Proof.
  split; [|split; [|split]].
  - pose proof (syncLocations_user_locations persist this
                  (syncBookmarks this (syncUI this (syncRecent this db))))
      as Hloc.
    unfold sync.
    destruct (syncLocations persist this _) as [[[]|] db']; simpl in *;
      exact Hloc.
  - split.
    + intros Hthrow. apply sync_raise_skips_tle in Hthrow. tauto.
    + intros [Hq Hs].
      apply (syncLocations_qth_failure_escapes persist this db Hq Hs).
  - intros Hthrow. apply sync_raise_skips_tle in Hthrow. tauto.
  - unfold sync.
    destruct (syncLocations persist this _) as [[[]|] db']; simpl;
      [|discriminate].
    intros _. apply syncTLESources_user_tle.
Qed.

(** C3.  The full rewrite is best effort in its loops and not on the home
    location.  For every registry, store and [persist], the loop of
    [syncLocations] skips exactly the locations whose serialization
    raises, and [sync] raises exactly when a home location is set and its
    serialization raises: the write of the home location, after the loop,
    has no [try] around it.  Then the "qth" context stays cleared and
    [syncTLESources] is never run, so that the "user_tle" context is the
    one of the store.  In the scenario, five user locations L1 .. L5 are
    registered, L3 is the home location and the serialization of L3
    raises: L1, L2, L4 and L5 are written, in that order, the exception of
    the home location leaves [syncLocations] and [sync], and "user_tle"
    keeps its stale record and lacks the source of the registry, which
    [syncTLESources] alone would write.  Without the home location the
    same registry is synced to the end. *)
Theorem sync_raises_on_failing_home_location :
  (forall (persist : Object -> Exc Object) (this : Singleton) (db : ConfDB),
      ctx_user_locations (snd (sync persist this db)) =
        serialized (Location.serialize persist)
          (filter Location.userLocation (QMap.values (locations this))) /\
      (fst (sync persist this db) = Throw <->
       have_qth this = true /\
       Location.serialize persist (qth this) = Throw) /\
      (fst (sync persist this db) = Throw ->
       ctx_user_tle (snd (sync persist this db)) = ctx_user_tle db /\
       ctx_qth (snd (sync persist this db)) = []) /\
      (fst (sync persist this db) = Return tt ->
       ctx_user_tle (snd (sync persist this db)) =
         serialized (TLESource.serialize persist)
           (filter TLESource.user (QMap.values (tleSources this))))) /\
  fst (syncLocations persist_but_L3 five_locations_home_L3 stale_tle_db) = Throw /\
  fst (sync persist_but_L3 five_locations_home_L3 stale_tle_db) = Throw /\
  record_names
    (ctx_user_locations
       (snd (sync persist_but_L3 five_locations_home_L3 stale_tle_db))) =
    ["L1"; "L2"; "L4"; "L5"]%string /\
  ctx_qth (snd (sync persist_but_L3 five_locations_home_L3 stale_tle_db)) = [] /\
  record_names
    (ctx_user_tle (snd (sync persist_but_L3 five_locations_home_L3 stale_tle_db))) =
    ["stale"]%string /\
  record_names
    (ctx_user_tle
       (syncTLESources persist_but_L3 five_locations_home_L3 stale_tle_db)) =
    ["mine"]%string /\
  record_names
    (ctx_user_locations
       (snd (sync persist_but_L3 five_locations stale_tle_db))) =
    ["L1"; "L2"; "L4"; "L5"]%string /\
  fst (sync persist_but_L3 five_locations stale_tle_db) = Return tt.
Proof.
  split.
  - intros persist this db. apply sync_outcome.
  - repeat apply conj; reflexivity.
Qed.

(** ** Positional reconciliation *)

Lemma replace_at_middle (before : ConfigContext) (x d : ObjectData)
  (l : ConfigContext) :
  Ctx.replace_at (List.length before) d (before ++ x :: l) = before ++ d :: l.
Proof.
  induction before as [|y before IH]; simpl; [reflexivity|].
  rewrite IH. reflexivity.
Qed.

(** Past the end of the list every put raises and every owned
    configuration is appended. *)
Lemma syncUI_loop_past_end (conf : list Object) :
  forall (i : nat) (lst : ConfigContext),
    List.length lst <= i ->
    syncUI_loop i conf lst = lst ++ map instance (filter owned conf).
Proof.
  induction conf as [|o conf IH]; intros i lst Hlen; simpl.
  - rewrite app_nil_r. reflexivity.
  - unfold owned at 1. destruct (negb (Obj.isBorrowed o)); simpl.
    + unfold Ctx.put.
      assert (Hlt : Nat.ltb i (List.length lst) = false)
        by (apply Nat.ltb_ge; assumption).
      rewrite Hlt. rewrite IH.
      * unfold Ctx.append. rewrite <- app_assoc. reflexivity.
      * unfold Ctx.append. rewrite length_app. simpl. lia.
    + apply IH. lia.
Qed.

(** The loop of [syncUI]: positions that exist are overwritten in place,
    the owned configurations beyond the end of the list are appended. *)
Lemma syncUI_loop_overlay (conf : list Object) :
  forall (before l : ConfigContext),
    syncUI_loop (List.length before) conf (before ++ l) =
    before ++ overlay conf l
      ++ map instance (filter owned (skipn (List.length l) conf)).
Proof.
  induction conf as [|o conf IH]; intros before l.
  - simpl. rewrite skipn_nil. simpl. rewrite app_nil_r.
    destruct l; reflexivity.
  - destruct l as [|x l].
    + rewrite app_nil_r. rewrite syncUI_loop_past_end by lia. reflexivity.
    + simpl syncUI_loop. simpl overlay. simpl skipn.
      assert (Hpos : Nat.ltb (List.length before)
                       (List.length (before ++ x :: l)) = true).
      { apply Nat.ltb_lt. rewrite length_app. simpl. lia. }
      unfold Ctx.put. rewrite Hpos. rewrite replace_at_middle.
      assert (Hstep : forall y : ObjectData,
                 syncUI_loop (S (List.length before)) conf (before ++ y :: l) =
                 before ++ (y :: overlay conf l)
                   ++ map instance (filter owned (skipn (List.length l) conf))).
      { intros y. specialize (IH (before ++ [y]) l).
        rewrite length_app in IH. simpl in IH.
        replace (List.length before + 1) with (S (List.length before)) in IH by lia.
        rewrite <- app_assoc in IH. simpl in IH.
        rewrite IH. rewrite <- app_assoc. reflexivity. }
      destruct (negb (Obj.isBorrowed o)); apply Hstep.
Qed.

Lemma overlay_length (conf : list Object) :
  forall l : ConfigContext, List.length (overlay conf l) = List.length l.
Proof.
  induction conf as [|o conf IH]; intros [|x l]; simpl; auto.
Qed.

Lemma overlay_nth (conf : list Object) :
  forall (l : ConfigContext) (i : nat),
    nth_error (overlay conf l) i =
    match nth_error l i, nth_error conf i with
    | Some x, Some o => if owned o then Some (instance o) else Some x
    | Some x, None => Some x
    | None, _ => None
    end.
Proof.
  induction conf as [|o conf IH]; intros [|x l] [|i]; simpl; try reflexivity.
  - destruct (nth_error l i); reflexivity.
  - unfold owned. destruct (negb (Obj.isBorrowed o)); reflexivity.
  - apply IH.
Qed.

Lemma overlay_idempotent (conf : list Object) :
  forall l : ConfigContext, overlay conf (overlay conf l) = overlay conf l.
Proof.
  induction conf as [|o conf IH]; intros [|x l]; simpl; try reflexivity.
  rewrite IH. destruct (negb (Obj.isBorrowed o)); reflexivity.
Qed.

Lemma ctx_uiconfig_syncUI (this : Singleton) (db : ConfDB) :
  ctx_uiconfig (syncUI this db) =
  overlay (uiConfig this) (ctx_uiconfig db)
    ++ map instance
         (filter owned (skipn (List.length (ctx_uiconfig db)) (uiConfig this))).
Proof.
  unfold syncUI. simpl.
  apply (syncUI_loop_overlay (uiConfig this) [] (ctx_uiconfig db)).
Qed.

(** The loop of [syncBookmarks] over the keys of a map whose lookups
    return the values it iterates: one record appended per unsaved
    bookmark. *)
Lemma syncBookmarks_loop (this : Singleton) (es : QMap.t Z Bookmark) :
  (forall k bm, In (k, bm) es -> bookmark_at k this = bm) ->
  forall lst : ConfigContext,
    fold_left (syncBookmarks_step this) (QMap.keys es) lst =
    lst ++ map (fun bm => instance (bookmark_record bm))
             (filter unsaved (QMap.values es)).
Proof.
  induction es as [|[k bm] es IH]; intros Hat lst; simpl.
  - rewrite app_nil_r. reflexivity.
  - rewrite IH by (intros; apply Hat; right; assumption).
    unfold syncBookmarks_step. rewrite (Hat k bm) by (left; reflexivity).
    unfold unsaved at 2. destruct (entry bm =? -1)%Z; [|reflexivity].
    simpl. unfold Ctx.append. rewrite <- app_assoc. reflexivity.
Qed.

Lemma ctx_bookmarks_syncBookmarks (this : Singleton) (db : ConfDB) :
  QMap.sorted (bookmarks this) ->
  ctx_bookmarks (syncBookmarks this db) =
  ctx_bookmarks db
    ++ map (fun bm => instance (bookmark_record bm))
         (filter unsaved (QMap.values (bookmarks this))).
Proof.
  intros Hs. unfold syncBookmarks. simpl.
  apply syncBookmarks_loop.
  intros k bm Hin. unfold bookmark_at.
  rewrite (In_find k bm (bookmarks this) Hs Hin). reflexivity.
Qed.

(** C2, as the claim states it, fails on the positional scenario: the
    registry holds one bookmark with backing index 3 whose name differs
    from the record stored at position 3, and two syncs in a row leave the
    bookmarks context as it was, with the stale record still at position
    3: no put with the content of the bookmark takes place. *)
Lemma bookmark_sync_performs_no_put :
  ~ (nth_error
       (ctx_bookmarks
          (syncBookmarks one_bookmark (syncBookmarks one_bookmark bookmarks_db)))
       3
     = Some (instance (bookmark_record (mkBookmark modified_info 3)))) /\
  syncBookmarks one_bookmark bookmarks_db = bookmarks_db /\
  syncBookmarks one_bookmark (syncBookmarks one_bookmark bookmarks_db)
    = bookmarks_db /\
  nth_error (record_names (ctx_bookmarks bookmarks_db)) 3 = Some "old"%string.
Proof.
  repeat apply conj; try reflexivity.
  vm_compute. intros Heq. discriminate Heq.
Qed.

(** A bookmark modified through [replaceBookmark] carries the unsaved
    index, and every sync appends one more record for it. *)
Example replaced_bookmark_is_appended_by_every_sync :
  match replaceBookmark remove_slot modified_info loaded_bookmark bookmarks_db with
  | (r, this, db) =>
      r = Return tt /\
      option_map entry (QMap.find 400%Z (bookmarks this)) = Some (-1)%Z /\
      record_names (ctx_bookmarks db) = ["b0"; "b1"; "b2"; "b4"]%string /\
      record_names (ctx_bookmarks (syncBookmarks this (syncBookmarks this db)))
      = ["b0"; "b1"; "b2"; "b4"; "new"; "new"]%string
  end.
Proof. vm_compute. repeat split. Qed.

(** C2, amended.  [syncUI] writes every configuration that is not
    borrowed with a put at its own position, and appends it when the
    backing list has no such position; configurations that are borrowed
    leave their record as it is.  [syncBookmarks] has no dirty flag to
    look at: it appends one record for every bookmark whose backing index
    is -1 and writes nothing for the others, so with no unsaved bookmark
    (one bookmark at backing index 3, say) any number of syncs leaves the
    store as it was: no put, no duplicate, no drift. *)
Theorem positional_sync_writes :
  forall (this : Singleton) (db : ConfDB),
    QMap.sorted (bookmarks this) ->
    let ui := ctx_uiconfig db in
    let ui' := ctx_uiconfig (syncUI this db) in
    (forall i o, nth_error (uiConfig this) i = Some o ->
                 Obj.isBorrowed o = false -> i < List.length ui ->
                 nth_error ui' i = Some (instance o)) /\
    (forall i o, nth_error (uiConfig this) i = Some o ->
                 Obj.isBorrowed o = true -> i < List.length ui ->
                 nth_error ui' i = nth_error ui i) /\
    skipn (List.length ui) ui' =
      map instance (filter owned (skipn (List.length ui) (uiConfig this))) /\
    (List.length (uiConfig this) <= List.length ui ->
     syncUI this (syncUI this db) = syncUI this db) /\
    ctx_bookmarks (syncBookmarks this db) =
      ctx_bookmarks db
        ++ map (fun bm => instance (bookmark_record bm))
             (filter unsaved (QMap.values (bookmarks this))) /\
    (filter unsaved (QMap.values (bookmarks this)) = [] ->
     syncBookmarks this db = db /\
     syncBookmarks this (syncBookmarks this db) = db).
Proof.
  intros this db Hs ui ui'.
  assert (Hui : ui' = overlay (uiConfig this) ui
                      ++ map instance
                           (filter owned (skipn (List.length ui) (uiConfig this))))
    by apply ctx_uiconfig_syncUI.
  assert (Hbm : forall d,
             filter unsaved (QMap.values (bookmarks this)) = [] ->
             syncBookmarks this d = d).
  { intros d Hnone.
    pose proof (ctx_bookmarks_syncBookmarks this d Hs) as Hd.
    rewrite Hnone in Hd. simpl in Hd. rewrite app_nil_r in Hd.
    unfold syncBookmarks in *. simpl in Hd. rewrite Hd.
    destruct d; reflexivity. }
  repeat apply conj.
  - intros i o Ho Hb Hi. rewrite Hui.
    rewrite nth_error_app1 by (rewrite overlay_length; assumption).
    rewrite overlay_nth, Ho.
    destruct (nth_error ui i) eqn:E.
    + unfold owned. rewrite Hb. reflexivity.
    + apply nth_error_None in E. lia.
  - intros i o Ho Hb Hi. rewrite Hui.
    rewrite nth_error_app1 by (rewrite overlay_length; assumption).
    rewrite overlay_nth, Ho.
    destruct (nth_error ui i) eqn:E.
    + unfold owned. rewrite Hb. reflexivity.
    + reflexivity.
  - rewrite Hui. rewrite <- (overlay_length (uiConfig this) ui) at 1.
    rewrite skipn_app, skipn_all, Nat.sub_diag. reflexivity.
  - intros Hlen.
    assert (Hno : forall l : ConfigContext,
               List.length (uiConfig this) <= List.length l ->
                     skipn (List.length l) (uiConfig this) = []).
    { intros l Hl. apply skipn_all2. assumption. }
    assert (Hone : forall d, List.length (uiConfig this) <= List.length (ctx_uiconfig d) ->
                     ctx_uiconfig (syncUI this d) = overlay (uiConfig this) (ctx_uiconfig d)).
    { intros d Hd. rewrite ctx_uiconfig_syncUI, Hno by assumption.
      simpl. apply app_nil_r. }
    assert (Hin : ctx_uiconfig (syncUI this (syncUI this db))
                  = ctx_uiconfig (syncUI this db)).
    { rewrite (Hone (syncUI this db)).
      - rewrite (Hone db) by assumption. apply overlay_idempotent.
      - rewrite (Hone db) by assumption. rewrite overlay_length. assumption. }
    unfold syncUI in *. simpl in *. rewrite Hin. reflexivity.
  - apply ctx_bookmarks_syncBookmarks. assumption.
  - intros Hnone. split.
    + apply Hbm. assumption.
    + rewrite (Hbm db Hnone). apply Hbm. assumption.
Qed.

(** The positional scenario: one bookmark at backing index 3. *)
Lemma positional_sync_one_bookmark :
  QMap.sorted (bookmarks one_bookmark) /\
  filter unsaved (QMap.values (bookmarks one_bookmark)) = [] /\
  syncBookmarks one_bookmark (syncBookmarks one_bookmark bookmarks_db)
  = bookmarks_db.
Proof.
  assert (Hs : QMap.sorted (bookmarks one_bookmark)) by (simpl; auto).
  split; [exact Hs|]. split; [reflexivity|].
  apply (positional_sync_writes one_bookmark bookmarks_db Hs). reflexivity.
Defined.

(** ** Replacing a bookmark *)

Lemma to_unsigned_valid (e : Z) :
  (0 <= e < 2 ^ 31)%Z -> to_unsigned e = Z.to_nat e.
Proof.
  intros He. unfold to_unsigned. rewrite Z.mod_small; [reflexivity|].
  split; [lia|]. apply Z.lt_trans with (2 ^ 31)%Z; [lia | reflexivity].
Qed.

Lemma inserted_after_remove {K V : Type} `{KeyOrderLaws K}
  (k : K) (v : V) (m : QMap.t K V) :
  inserted k v m (QMap.insert k v (QMap.remove k m)).
Proof.
  split.
  - apply find_insert_same.
  - intros k' Hk'. rewrite find_insert_other by assumption.
    apply find_remove_other. assumption.
Qed.

Lemma inserted_absent {K V : Type} `{KeyOrderLaws K}
  (k : K) (v : V) (m : QMap.t K V) :
  inserted k v m (QMap.insert k v m).
Proof.
  split.
  - apply find_insert_same.
  - intros k' Hk'. apply find_insert_other. assumption.
Qed.


(** When the store accepts the delete it is sent, [replaceBookmark] is an
    upsert: it takes the bookmark of the same frequency out of the map,
    issues the positional delete of its slot on the bookmarks context
    within the call when its backing index is not -1 (for a non-negative
    index, at that index), and stores the fresh value with the backing
    index -1. *)
Lemma replaceBookmark_upserts :
  forall (list_remove : nat -> ConfigContext -> Exc ConfigContext)
         (info : BookmarkInfo) (this : Singleton) (db : ConfDB),
    (forall old,
        QMap.find (frequency info) (bookmarks this) = Some old ->
        entry old <> (-1)%Z ->
        returned (list_remove (to_unsigned (entry old)) (ctx_bookmarks db)) = true) ->
    upsert_outcome list_remove info this db.
Proof.
  intros list_remove info this db Hok.
  unfold upsert_outcome, replaceBookmark, removeBookmark.
  destruct (QMap.find (frequency info) (bookmarks this)) as [old|] eqn:Hold.
  - specialize (Hok old eq_refl).
    destruct (entry old =? -1)%Z eqn:He; simpl.
    + apply Z.eqb_eq in He.
      eexists. eexists. split; [reflexivity|]. split.
      * eexists. split; [reflexivity|]. simpl. apply inserted_after_remove.
      * repeat split; try reflexivity; intros; lia.
    + apply Z.eqb_neq in He. specialize (Hok He).
      destruct (list_remove (to_unsigned (entry old)) (ctx_bookmarks db))
        as [l|] eqn:Hl; [|discriminate].
      eexists. eexists. split; [reflexivity|]. split.
      * eexists. split; [reflexivity|]. simpl. apply inserted_after_remove.
      * repeat split.
        -- intros Habs. contradiction.
        -- intros _. exists l. split; [reflexivity|reflexivity].
        -- intros Hv. exists l. rewrite <- to_unsigned_valid by assumption.
           split; [assumption|reflexivity].
  - eexists. eexists. split; [reflexivity|]. split.
    + eexists. split; [reflexivity|]. simpl. apply inserted_absent.
    + reflexivity.
Qed.

(** The positional scenario: the bookmark loaded from slot 3 is replaced. *)
Example replaceBookmark_upserts_loaded :
  upsert_outcome remove_slot modified_info loaded_bookmark bookmarks_db.
Proof.
  apply (replaceBookmark_upserts remove_slot modified_info loaded_bookmark
           bookmarks_db).
  intros old Hold _. vm_compute in Hold. inversion Hold; subst. reflexivity.
Qed.



(** ** Lazy subsystem gates *)

Lemma gate_flag_registerSourceConfig (g : Gate)
  (cs : list suscan_source_config_t) :
  forall this : Singleton,
    gate_flag g (fold_left (fun s c => registerSourceConfig c s) cs this)
    = gate_flag g this.
Proof.
  induction cs as [|c cs IH]; intros this; simpl; [reflexivity|].
  rewrite IH. destruct g; reflexivity.
Qed.

Lemma gate_flag_registerSourceDevice (g : Gate)
  (ds : list suscan_source_device_t) :
  forall this : Singleton,
    gate_flag g (fold_left (fun s d => registerSourceDevice d s) ds this)
    = gate_flag g this.
Proof.
  induction ds as [|d ds IH]; intros this; simpl; [reflexivity|].
  rewrite IH. destruct g; reflexivity.
Qed.

Lemma Gate_eqb_eq (a b : Gate) : Gate_eqb a b = true <-> a = b.
Proof. destruct a, b; simpl; split; congruence. Qed.

Lemma outcomes_of_app (g : Gate) (a b : list (Gate * bool)) :
  outcomes_of g (a ++ b) = outcomes_of g a ++ outcomes_of g b.
Proof. unfold outcomes_of. rewrite filter_app, map_app. reflexivity. Qed.

Section GateFacts.
Variable Lib : Type.
Variables i1 i2 i3 i4 : Lib -> bool * Lib.
Variable cw : Lib -> list suscan_source_config_t.
Variable dw : Lib -> list suscan_source_device_t.

Let gate := init_gate i1 i2 i3 i4 cw dw.
Let init := initializer i1 i2 i3 i4.

(** An open gate: the call returns at once and touches nothing, the
    library included. *)
Lemma gate_open_noop (g : Gate) (this : Singleton) (lib : Lib) :
  gate_flag g this = true -> gate g this lib = (Return tt, this, lib).
Proof.
  unfold gate. destruct g; simpl; intros Hf;
    unfold init_sources, init_estimators, init_spectrum_sources,
      init_inspectors; rewrite Hf; reflexivity.
Qed.

(** A closed gate whose initializer fails: the exception reaches the
    caller and the registry is as it was, the flag still unset. *)
Lemma gate_failure_propagates (g : Gate) (this : Singleton) (lib lib' : Lib) :
  gate_flag g this = false -> init g lib = (false, lib') ->
  gate g this lib = (Throw, this, lib').
Proof.
  unfold gate, init. destruct g; simpl; intros Hf Hi;
    unfold init_sources, init_estimators, init_spectrum_sources,
      init_inspectors, SU_ATTEMPT; rewrite Hf, Hi; reflexivity.
Qed.

(** A closed gate whose initializer succeeds: the call returns, its flag
    is set and the flags of the other gates are as they were. *)
Lemma gate_success_sets_flag (g : Gate) (this : Singleton) (lib lib' : Lib) :
  gate_flag g this = false -> init g lib = (true, lib') ->
  exists this',
    gate g this lib = (Return tt, this', lib') /\
    gate_flag g this' = true /\
    forall g', g' <> g -> gate_flag g' this' = gate_flag g' this.
Proof.
  unfold gate, init. destruct g; simpl; intros Hf Hi;
    unfold init_sources, init_estimators, init_spectrum_sources,
      init_inspectors, SU_ATTEMPT; rewrite Hf, Hi; simpl;
    eexists; (split; [reflexivity|]); (split; [reflexivity|]);
    intros g' Hg'; destruct g'; try congruence; simpl;
    try reflexivity.
  - exact (eq_trans
             (gate_flag_registerSourceDevice GEstimators _ _)
             (gate_flag_registerSourceConfig GEstimators _ _)).
  - exact (eq_trans
             (gate_flag_registerSourceDevice GSpectrumSources _ _)
             (gate_flag_registerSourceConfig GSpectrumSources _ _)).
  - exact (eq_trans
             (gate_flag_registerSourceDevice GInspectors _ _)
             (gate_flag_registerSourceConfig GInspectors _ _)).
Qed.
End GateFacts.

Section GateRuns.
Variable Lib : Type.
Variables i1 i2 i3 i4 : Lib -> bool * Lib.
Variable cw : Lib -> list suscan_source_config_t.
Variable dw : Lib -> list suscan_source_device_t.

Let inits := initializer i1 i2 i3 i4.
Let run :=
  run_gates (logged inits GSources) (logged inits GEstimators)
    (logged inits GSpectrumSources) (logged inits GInspectors)
    (fun l : Logged Lib => cw (fst l)) (fun l : Logged Lib => dw (fst l)).

Lemma logged_initializer (g : Gate) :
  initializer (logged inits GSources) (logged inits GEstimators)
    (logged inits GSpectrumSources) (logged inits GInspectors) g
  = logged inits g.
Proof. destruct g; reflexivity. Qed.

(** Over any run the log grows by the invocations of the run, and for
    each gate these are failures closed by at most one success. *)
Lemma run_gates_log (calls : list Gate) :
  forall (this : Singleton) (l : Lib) (log0 : list (Gate * bool)),
  exists new,
    snd (snd (run calls this (l, log0))) = log0 ++ new /\
    forall g,
      once_initialized (gate_flag g this)
        (gate_flag g (fst (run calls this (l, log0))))
        (outcomes_of g new).
Proof.
  induction calls as [|g0 calls IH]; intros this l log0.
  - exists []. simpl. split; [rewrite app_nil_r; reflexivity|].
    intros g. unfold once_initialized.
    destruct (gate_flag g this); [auto|]. exists 0. reflexivity.
  - unfold run. simpl. fold run.
    destruct (gate_flag g0 this) eqn:Hf.
    + erewrite gate_open_noop by exact Hf. apply IH.
    + destruct (inits g0 l) as [ok l'] eqn:Hi.
      assert (Hlog : logged inits g0 (l, log0) = (ok, (l', log0 ++ [(g0, ok)]))).
      { unfold logged. simpl. rewrite Hi. reflexivity. }
      rewrite <- logged_initializer in Hlog.
      destruct ok.
      * destruct (gate_success_sets_flag _ _ _ _
                    (fun l : Logged Lib => cw (fst l))
                    (fun l : Logged Lib => dw (fst l)) g0 this _ Hf Hlog)
          as [this' [Hcall [Hset Hothers]]].
        rewrite Hcall.
        destruct (IH this' l' (log0 ++ [(g0, true)])) as [new [Hnew Hinv]].
        exists ((g0, true) :: new). split.
        { rewrite Hnew, <- app_assoc. reflexivity. }
        intros g. specialize (Hinv g).
        change ((g0, true) :: new) with ([(g0, true)] ++ new).
        rewrite outcomes_of_app. unfold outcomes_of at 1. simpl.
        destruct (Gate_eqb g0 g) eqn:Eg.
        -- apply Gate_eqb_eq in Eg. subst g.
           rewrite Hset in Hinv. rewrite Hf. unfold once_initialized in *.
           destruct Hinv as [Hnow Hnone]. rewrite Hnow, Hnone.
           exists 0. reflexivity.
        -- rewrite Hothers in Hinv; [exact Hinv|].
           intros Habs. subst g. destruct g0; discriminate.
      * rewrite (gate_failure_propagates _ _ _ _
                   (fun l : Logged Lib => cw (fst l))
                   (fun l : Logged Lib => dw (fst l)) g0 this _ Hf Hlog).
        destruct (IH this l' (log0 ++ [(g0, false)])) as [new [Hnew Hinv]].
        exists ((g0, false) :: new). split.
        { rewrite Hnew, <- app_assoc. reflexivity. }
        intros g. specialize (Hinv g).
        change ((g0, false) :: new) with ([(g0, false)] ++ new).
        rewrite outcomes_of_app. unfold outcomes_of at 1. simpl.
        destruct (Gate_eqb g0 g) eqn:Eg; [|exact Hinv].
        apply Gate_eqb_eq in Eg. subst g.
        rewrite Hf in *. unfold once_initialized in *.
        destruct Hinv as [n Hn]. exists (S n). simpl. rewrite Hn. reflexivity.
Qed.
End GateRuns.

Lemma once_initialized_count (was now : bool) (outcomes : list bool) :
  once_initialized was now outcomes ->
  count_occ bool_dec outcomes true <= 1.
Proof.
  unfold once_initialized. destruct was.
  - intros [_ ->]. simpl. lia.
  - intros [n ->]. rewrite count_occ_app.
    assert (Hrep : count_occ bool_dec (repeat false n) true = 0).
    { apply count_occ_not_In. intros Hin. apply repeat_spec in Hin.
      discriminate. }
    rewrite Hrep. destruct now; simpl; lia.
Qed.

(** The retry scenario: the initializer of the estimators gate fails once
    and then succeeds.  Three calls of the gate invoke it twice, the failed
    attempt and the retry that opens the gate; the third call finds the
    gate open and invokes nothing. *)
Example retry_scenario_log :
  snd retry_run = [(GEstimators, false); (GEstimators, true)] /\
  count_occ bool_dec (outcomes_of GEstimators (snd retry_run)) true = 1 /\
  estimators_initd (fst retry_run) = true.
Proof. repeat apply conj; reflexivity. Qed.

(** C7.  Each of the four lazy gates (sources, estimators, spectrum
    sources, inspectors) initializes its subsystem at most once over any
    sequence of calls: a call on an open gate returns at once, without
    error, and touches nothing; a call on a closed gate whose initializer
    fails raises to the caller and leaves the registry, the flag included,
    as it was, so that the next call attempts the initialization again; a
    call whose initializer succeeds sets the flag of its gate only.  Over
    a run the invocations of an initializer are therefore failed attempts
    closed by at most one successful initialization, after which the
    initializer is never invoked again. *)
Theorem gates_initialize_once :
  forall (Lib : Type) (i1 i2 i3 i4 : Lib -> bool * Lib)
         (cw : Lib -> list suscan_source_config_t)
         (dw : Lib -> list suscan_source_device_t),
    (forall g this lib,
        gate_flag g this = true ->
        init_gate i1 i2 i3 i4 cw dw g this lib = (Return tt, this, lib)) /\
    (forall g this lib lib',
        gate_flag g this = false ->
        initializer i1 i2 i3 i4 g lib = (false, lib') ->
        init_gate i1 i2 i3 i4 cw dw g this lib = (Throw, this, lib')) /\
    (forall g this lib lib',
        gate_flag g this = false ->
        initializer i1 i2 i3 i4 g lib = (true, lib') ->
        exists this',
          init_gate i1 i2 i3 i4 cw dw g this lib = (Return tt, this', lib') /\
          gate_flag g this' = true /\
          forall g', g' <> g -> gate_flag g' this' = gate_flag g' this) /\
    (forall calls this lib g,
        let r := gate_log i1 i2 i3 i4 cw dw calls this lib in
        once_initialized (gate_flag g this) (gate_flag g (fst r))
          (outcomes_of g (snd r)) /\
        count_occ bool_dec (outcomes_of g (snd r)) true <= 1).
Proof.
  intros Lib i1 i2 i3 i4 cw dw. repeat apply conj.
  - intros g this lib. apply gate_open_noop.
  - intros g this lib lib'. apply gate_failure_propagates.
  - intros g this lib lib'. apply gate_success_sets_flag.
  - intros calls this lib g r.
    destruct (run_gates_log i1 i2 i3 i4 cw dw calls this lib [])
      as [new [Hnew Hinv]].
    assert (Hr : once_initialized (gate_flag g this) (gate_flag g (fst r))
                   (outcomes_of g (snd r))).
    { unfold r, gate_log. simpl. simpl in Hnew. rewrite Hnew. apply Hinv. }
    split; [exact Hr|]. eapply once_initialized_count. exact Hr.
Qed.

(** ** The registry keeps its maps in key order *)

Lemma well_formed_blank : well_formed Singleton_blank.
Proof. repeat split. Qed.

Lemma loadLocations_sorted (lst : list Object) :
  forall (loc : Location.t) (m : QMap.t string Location.t),
    QMap.sorted m -> QMap.sorted (loadLocations lst loc m).
Proof.
  induction lst as [|r rest IH]; intros loc m Hs; simpl; [assumption|].
  apply IH. apply insert_sorted. assumption.
Qed.

Lemma loadTLESources_sorted (lst : list Object) :
  forall (src : TLESource.t) (m : QMap.t string TLESource.t),
    QMap.sorted m -> QMap.sorted (loadTLESources lst src m).
Proof.
  induction lst as [|r rest IH]; intros src m Hs; simpl; [assumption|].
  apply IH. apply insert_sorted. assumption.
Qed.

Lemma well_formed_init_locations (db : ConfDB) (this : Singleton) :
  well_formed this -> well_formed (init_locations db this).
Proof.
  unfold well_formed. intros [Hb [Hl [Ht Hu]]].
  rewrite locations_init_locations.
  assert (Hsame : bookmarks (init_locations db this) = bookmarks this /\
                  tleSources (init_locations db this) = tleSources this /\
                  spectrumUnits (init_locations db this) = spectrumUnits this).
  { unfold init_locations.
    destruct (Ctx.items (ctx_qth db)) as [|r rest]; [repeat split|].
    destruct (Obj.getType r); try destruct (String.eqb _ _); repeat split. }
  destruct Hsame as [-> [-> ->]].
  repeat split; try assumption.
  apply loadLocations_sorted. apply loadLocations_sorted. assumption.
Qed.

Lemma well_formed_init_tle_sources (db : ConfDB) (this : Singleton) :
  well_formed this -> well_formed (init_tle_sources db this).
Proof.
  unfold well_formed. intros [Hb [Hl [Ht Hu]]]. simpl.
  repeat split; try assumption.
  apply loadTLESources_sorted. apply loadTLESources_sorted. assumption.
Qed.

Lemma well_formed_register (this : Singleton) :
  well_formed this ->
  (forall info, well_formed (snd (registerBookmark info this))) /\
  (forall loc, well_formed (snd (registerLocation loc this))) /\
  (forall src, well_formed (snd (registerTLESource src this))) /\
  (forall name dB zero,
      well_formed (snd (registerSpectrumUnit name dB zero this))) /\
  (forall name, well_formed (snd (removeTLESource name this))).
Proof.
  unfold well_formed. intros [Hb [Hl [Ht Hu]]]. repeat apply conj; intros.
  all: unfold registerBookmark, registerLocation, registerTLESource,
         registerSpectrumUnit, removeTLESource.
  all: try match goal with
         | |- context [QMap.contains ?k ?m] => destruct (QMap.contains k m)
         end.
  all: try match goal with
         | |- context [QMap.find ?k ?m] =>
             destruct (QMap.find k m) as [src0|];
             [destruct (negb (TLESource.user src0))|]
         end.
  all: simpl; repeat split; try assumption.
  all: first [apply insert_sorted | apply remove_sorted]; assumption.
Qed.

Lemma well_formed_replaceBookmark
  (list_remove : nat -> ConfigContext -> Exc ConfigContext)
  (info : BookmarkInfo) (this : Singleton) (db : ConfDB) :
  well_formed this ->
  well_formed (snd (fst (replaceBookmark list_remove info this db))).
Proof.
  unfold well_formed. intros [Hb [Hl [Ht Hu]]].
  unfold replaceBookmark, removeBookmark.
  destruct (QMap.find (frequency info) (bookmarks this)) as [old|].
  - destruct (negb (entry old =? -1)%Z).
    + destruct (list_remove _ _); simpl; repeat split; try assumption;
        try apply insert_sorted; apply remove_sorted; assumption.
    + simpl. repeat split; try assumption.
      apply insert_sorted. apply remove_sorted. assumption.
  - simpl. repeat split; try assumption. apply insert_sorted. assumption.
Qed.

(* ------------------------------------------------------------------ *)
(** ** The most-recently-used list *)

Lemma removeRecent_loop_inside (name : string) (after : list string) :
  forall (before : list string) (found : bool),
    before <> [] ->
    removeRecent_loop name before after found =
    Some (found || existsb (fun x => String.eqb x name) after,
          rev before ++ filter (differs_from name) after).
Proof.
  induction after as [|x after IH]; intros before found Hne; simpl.
  - rewrite orb_false_r, app_nil_r. reflexivity.
  - unfold differs_from at 1. destruct (String.eqb x name) eqn:E; simpl.
    + destruct before as [|b before]; [contradiction|].
      rewrite IH by discriminate. rewrite orb_true_r. reflexivity.
    + rewrite IH by discriminate. simpl. rewrite <- app_assoc. reflexivity.
Qed.

Lemma removeRecent_loop_start (name : string) (l : list string) :
  removeRecent_loop name [] l false =
  match l with
  | [] => Some (false, [])
  | x :: rest =>
      if String.eqb x name then None
      else Some (existsb (fun y => String.eqb y name) l,
                 filter (differs_from name) l)
  end.
Proof.
  destruct l as [|x rest]; simpl; [reflexivity|].
  unfold differs_from at 1.
  destruct (String.eqb x name) eqn:E; [reflexivity|].
  rewrite removeRecent_loop_inside by discriminate. reflexivity.
Qed.

Lemma existsb_eqb_In (name : string) (l : list string) :
  existsb (fun x => String.eqb x name) l = true <-> In name l.
Proof.
  rewrite existsb_exists. split.
  - intros [x [Hin Heq]]. apply String.eqb_eq in Heq. subst. assumption.
  - intros Hin. exists name. split; [assumption | apply String.eqb_refl].
Qed.

Lemma filter_differs_not_In (name : string) (l : list string) :
  ~ In name (filter (differs_from name) l).
Proof.
  intros Hin. apply filter_In in Hin. destruct Hin as [_ Hd].
  unfold differs_from in Hd. rewrite String.eqb_refl in Hd. discriminate.
Qed.

(** X1.  [removeRecent] steps back from the first element of the list
    exactly when that element is the name to remove, which [std::list]
    leaves undefined.  In every other case it returns, the list is the
    old one without any occurrence of the name, the other names in their
    order, and the result tells whether the name was there. *)
Theorem removeRecent_removes_every_occurrence :
  forall (name : string) (this : Singleton),
    (removeRecent name this = None <->
     exists rest, recentProfiles this = name :: rest) /\
    (forall found this',
        removeRecent name this = Some (found, this') ->
        this' = set_recentProfiles
                  (filter (differs_from name) (recentProfiles this)) this /\
        ~ In name (recentProfiles this') /\
        (found = true <-> In name (recentProfiles this))).
Proof.
  intros name this. unfold removeRecent.
  rewrite removeRecent_loop_start.
  destruct (recentProfiles this) as [|x rest] eqn:Hl.
  - split.
    + split; [discriminate | intros [r Hr]; discriminate].
    + intros found this' Heq. inversion Heq; subst. simpl.
      repeat split; try tauto; try discriminate.
  - destruct (String.eqb x name) eqn:E.
    + apply String.eqb_eq in E. subst x. split.
      * split; [intros _; exists rest; reflexivity | reflexivity].
      * intros found this' Heq. discriminate.
    + split.
      * split; [discriminate|]. intros [r Hr]. inversion Hr; subst.
        rewrite String.eqb_refl in E. discriminate.
      * intros found this' Heq. inversion Heq; subst. clear Heq.
        split; [reflexivity|]. split.
        -- apply (filter_differs_not_In name (x :: rest)).
        -- apply (existsb_eqb_In name (x :: rest)).
Qed.

(** X2.  [notifyRecent] on a name that is not already the most recent
    one returns, puts the name at the head of the list, once, leaves the
    other names in their order, and tells whether the name was listed
    before; a list without repetition stays without repetition. *)
Theorem notifyRecent_moves_to_front :
  forall (name : string) (this : Singleton),
    (forall rest, recentProfiles this <> name :: rest) ->
    exists this',
      notifyRecent name this
      = Some (existsb (fun x => String.eqb x name) (recentProfiles this), this') /\
      recentProfiles this'
      = name :: filter (differs_from name) (recentProfiles this) /\
      count_occ string_dec (recentProfiles this') name = 1 /\
      (NoDup (recentProfiles this) -> NoDup (recentProfiles this')).
Proof.
  intros name this Hhead. unfold notifyRecent, removeRecent.
  rewrite removeRecent_loop_start.
  assert (Hcount : count_occ string_dec
                     (name :: filter (differs_from name) (recentProfiles this))
                     name = 1).
  { rewrite count_occ_cons_eq by reflexivity. f_equal.
    apply count_occ_not_In. apply filter_differs_not_In. }
  assert (Hnodup : NoDup (recentProfiles this) ->
                   NoDup (name :: filter (differs_from name) (recentProfiles this))).
  { intros Hnd. constructor.
    - apply filter_differs_not_In.
    - apply NoDup_filter. assumption. }
  destruct (recentProfiles this) as [|x rest] eqn:Hl.
  - eexists. split; [reflexivity|]. simpl. repeat split; assumption.
  - destruct (String.eqb x name) eqn:E.
    + apply String.eqb_eq in E. subst x. exfalso. apply (Hhead rest).
      reflexivity.
    + eexists. split; [reflexivity|]. simpl. repeat split; assumption.
Qed.

(** The scenario: gamma, the last of three names, is used again. *)
Lemma notifyRecent_gamma :
  exists this',
    notifyRecent "gamma" recent_three
    = Some (existsb (fun x => String.eqb x "gamma"%string)
              (recentProfiles recent_three),
            this') /\
    recentProfiles this'
    = "gamma"%string
        :: filter (differs_from "gamma"%string) (recentProfiles recent_three) /\
    count_occ string_dec (recentProfiles this') "gamma"%string = 1 /\
    (NoDup (recentProfiles recent_three) -> NoDup (recentProfiles this')).
Proof.
  apply (@notifyRecent_moves_to_front "gamma"%string recent_three).
  intros rest. simpl. discriminate.
Defined.

(* ------------------------------------------------------------------ *)
(** ** Codecs and the store: round trips *)

Lemma insert_last {K V : Type} `{KeyOrderLaws K}
  (k : K) (v : V) (m rest : QMap.t K V) :
  QMap.sorted (m ++ (k, v) :: rest) -> QMap.insert k v m = m ++ [(k, v)].
Proof.
  induction m as [|[k0 v0] m IH]; simpl; [reflexivity|].
  intros [Hlow Hs].
  assert (Hlt : key_lt k0 k).
  { eapply lower_than_all_In; [exact Hlow|].
    apply in_or_app. right. left. reflexivity. }
  apply key_compare_gt_lt in Hlt. rewrite Hlt. rewrite IH by assumption.
  reflexivity.
Qed.

(** Storing the entries of a map in key order rebuilds the map. *)
Lemma fold_insert_sorted {K V : Type} `{KeyOrderLaws K}
  (es : QMap.t K V) :
  forall m : QMap.t K V,
    QMap.sorted (m ++ es) ->
    fold_left (fun acc e => QMap.insert (fst e) (snd e) acc) es m = m ++ es.
Proof.
  induction es as [|[k v] es IH]; intros m Hs; simpl.
  - rewrite app_nil_r. reflexivity.
  - rewrite (insert_last k v m es Hs).
    rewrite IH; rewrite <- app_assoc; simpl; [reflexivity | assumption].
Qed.

Lemma lower_than_all_filter {K V : Type} `{KeyOrder K}
  (p : K * V -> bool) (k : K) (m : QMap.t K V) :
  QMap.lower_than_all k m -> QMap.lower_than_all k (filter p m).
Proof.
  induction m as [|[k0 v0] m IH]; simpl; [tauto|].
  intros [H1 H2]. destruct (p (k0, v0)); simpl; auto.
Qed.

Lemma filter_sorted {K V : Type} `{KeyOrder K}
  (p : K * V -> bool) (m : QMap.t K V) :
  QMap.sorted m -> QMap.sorted (filter p m).
Proof.
  induction m as [|[k0 v0] m IH]; simpl; [tauto|].
  intros [H1 H2]. destruct (p (k0, v0)); simpl; auto.
  split; auto. apply lower_than_all_filter. assumption.
Qed.

Lemma TLESource_decodes_encoded (persist : Object -> Exc Object)
  (src target : TLESource.t) :
  persist_returns persist ->
  exists obj,
    TLESource.serialize persist src = Return obj /\
    TLESource.deserialize (Obj.wrap (instance obj)) target
    = TLESource.set_user (TLESource.user target) src.
Proof.
  intros Hp. unfold TLESource.serialize. rewrite Hp.
  eexists. split; [reflexivity|]. destruct src; reflexivity.
Qed.

Lemma Location_decodes_encoded (persist : Object -> Exc Object)
  (loc target : Location.t) :
  persist_returns persist ->
  exists obj,
    Location.serialize persist loc = Return obj /\
    Obj.getType obj = SUSCAN_OBJECT_TYPE_OBJECT /\
    Obj.getClass obj = "Location"%string /\
    Location.deserialize (Obj.wrap (instance obj)) target
    = through_store (Location.userLocation target) loc.
Proof.
  intros Hp. unfold Location.serialize. rewrite Hp.
  eexists. repeat (split; [reflexivity|]).
  destruct loc as [n c [la lo h] u]; reflexivity.
Qed.

(** X3.  What [TLESource::serialize] writes, [TLESource::deserialize]
    reads back: name and URL of the source; the user flag is not written
    and stays the one of the object deserialized into. *)
Theorem TLESource_codec_round_trip :
  forall (persist : Object -> Exc Object) (src target : TLESource.t),
    persist_returns persist ->
    exists obj,
      TLESource.serialize persist src = Return obj /\
      Obj.getClass obj = "tle_source"%string /\
      TLESource.deserialize (Obj.wrap (instance obj)) target
      = TLESource.set_user (TLESource.user target) src.
Proof.
  intros persist src target Hp. unfold TLESource.serialize. rewrite Hp.
  eexists. split; [reflexivity|]. split; [reflexivity|].
  destruct src; reflexivity.
Qed.

Lemma TLESource_codec_scenario :
  exists obj,
    TLESource.serialize persist_id (TLESource.mk "A" "sys://a" false)
    = Return obj /\
    Obj.getClass obj = "tle_source"%string /\
    TLESource.deserialize (Obj.wrap (instance obj)) TLESource.fresh
    = TLESource.set_user (TLESource.user TLESource.fresh)
        (TLESource.mk "A" "sys://a" false).
Proof.
  apply (@TLESource_codec_round_trip persist_id).
  intros o. reflexivity.
Defined.

(** X4.  What [Location::serialize] writes, [Location::deserialize]
    reads back: name, country, latitude and longitude as they were, the
    altitude multiplied by 1e3 on the way out and by 1e-3 on the way in;
    the user flag is not written and stays the one of the object
    deserialized into. *)
Theorem Location_codec_round_trip :
  forall (persist : Object -> Exc Object) (loc target : Location.t),
    persist_returns persist ->
    exists obj,
      Location.serialize persist loc = Return obj /\
      Obj.getType obj = SUSCAN_OBJECT_TYPE_OBJECT /\
      Obj.getClass obj = "Location"%string /\
      Location.deserialize (Obj.wrap (instance obj)) target
      = through_store (Location.userLocation target) loc.
Proof.
  intros persist loc target Hp. unfold Location.serialize. rewrite Hp.
  eexists. split; [reflexivity|]. split; [reflexivity|].
  split; [reflexivity|].
  destruct loc as [n c [la lo h] u]; reflexivity.
Qed.

Lemma Location_codec_scenario :
  exists obj,
    Location.serialize persist_id (user_location "L1") = Return obj /\
    Obj.getType obj = SUSCAN_OBJECT_TYPE_OBJECT /\
    Obj.getClass obj = "Location"%string /\
    Location.deserialize (Obj.wrap (instance obj)) Location.fresh
    = through_store (Location.userLocation Location.fresh)
        (user_location "L1").
Proof.
  apply (@Location_codec_round_trip persist_id).
  intros o. reflexivity.
Defined.

Lemma serialized_all_return {V : Type} (ser : V -> Exc Object)
  (obj_of : V -> Object) (l : list V) :
  (forall v, ser v = Return (obj_of v)) ->
  serialized ser l = map (fun v => instance (obj_of v)) l.
Proof.
  intros Hser. induction l as [|v l IH]; simpl; [reflexivity|].
  rewrite Hser, IH. reflexivity.
Qed.

Lemma values_filter {K V : Type} (p : V -> bool) (m : QMap.t K V) :
  filter p (QMap.values m) = QMap.values (filter (fun e => p (snd e)) m).
Proof.
  unfold QMap.values. induction m as [|[k v] m IH]; simpl; [reflexivity|].
  destruct (p v); simpl; rewrite IH; reflexivity.
Qed.

(** Loading the records written for entities that are filed under their
    names and belong to the user layer stores these entities again. *)
Lemma loadTLESources_of_serialized (persist : Object -> Exc Object)
  (es : QMap.t string TLESource.t) :
  persist_returns persist ->
  tle_keyed es ->
  (forall k e, In (k, e) es -> TLESource.user e = true) ->
  forall (target : TLESource.t) (m : QMap.t string TLESource.t),
    TLESource.user target = true ->
    loadTLESources
      (Ctx.items (serialized (TLESource.serialize persist) (QMap.values es)))
      target m
    = fold_left (fun acc e => QMap.insert (fst e) (snd e) acc) es m.
Proof.
  intros Hp. induction es as [|[k e] es IH]; intros Hk Hu target m Ht.
  - reflexivity.
  - simpl.
    destruct (TLESource_decodes_encoded e target Hp) as [obj [Hser Hde]].
    assert (He : TLESource.set_user (TLESource.user target) e = e).
    { rewrite Ht. rewrite <- (Hu k e (or_introl eq_refl)).
      destruct e; reflexivity. }
    rewrite He in Hde.
    rewrite Hser.
    change (loadTLESources
              (Ctx.items
                 (serialized (TLESource.serialize persist) (QMap.values es)))
              (TLESource.deserialize (Obj.wrap (instance obj)) target)
              (QMap.insert
                 (TLESource.name
                    (TLESource.deserialize (Obj.wrap (instance obj)) target))
                 (TLESource.deserialize (Obj.wrap (instance obj)) target) m)
            = fold_left (fun acc e0 => QMap.insert (fst e0) (snd e0) acc) es
                (QMap.insert k e m)).
    rewrite Hde. rewrite (Hk k e (or_introl eq_refl)).
    apply IH.
    + intros k' e' Hin. apply Hk. right. assumption.
    + intros k' e' Hin. apply (Hu k'). right. assumption.
    + apply (Hu k). left. reflexivity.
Qed.

(** X5.  Sync, then load: when the TLE sources are filed under their
    names and [persist] hands the object back, the user context written
    by [syncTLESources], loaded by [initTLESourcesFromContext] as the user
    layer into an empty collection, gives back the user-owned sources of
    the registry, all of them and nothing else. *)
Theorem tle_sources_survive_sync_and_reload :
  forall (persist : Object -> Exc Object) (this fresh : Singleton) (db : ConfDB),
    persist_returns persist ->
    QMap.sorted (tleSources this) ->
    tle_keyed (tleSources this) ->
    tleSources fresh = QMap.empty ->
    tleSources
      (initTLESourcesFromContext
         (ctx_user_tle (syncTLESources persist this db)) true fresh)
    = user_tle_sources (tleSources this).
Proof.
  intros persist this fresh db Hp Hs Hk Hempty.
  rewrite syncTLESources_user_tle. rewrite values_filter.
  unfold initTLESourcesFromContext. simpl. rewrite Hempty.
  fold (user_tle_sources (tleSources this)).
  rewrite loadTLESources_of_serialized; try assumption; try reflexivity.
  - apply (fold_insert_sorted (user_tle_sources (tleSources this)) []).
    simpl. apply filter_sorted. assumption.
  - intros k e Hin. apply Hk. apply filter_In in Hin. tauto.
  - intros k e Hin. apply filter_In in Hin. destruct Hin as [_ Hu]. exact Hu.
Qed.

Lemma tle_keyed_merged : tle_keyed (tleSources merged).
Proof.
  intros k e Hin. vm_compute in Hin.
  repeat (destruct Hin as [Hin | Hin];
          [inversion Hin; subst; reflexivity|]).
  contradiction.
Qed.

(** The merge scenario: A of the system layer, B and C of the user layer. *)
Lemma tle_sources_survive_scenario :
  tleSources
    (initTLESourcesFromContext
       (ctx_user_tle (syncTLESources persist_id merged empty_db)) true
       Singleton_blank)
  = user_tle_sources (tleSources merged).
Proof.
  apply (@tle_sources_survive_sync_and_reload persist_id merged Singleton_blank
           empty_db).
  - intros o. reflexivity.
  - vm_compute. repeat split.
  - exact tle_keyed_merged.
  - reflexivity.
Defined.

Lemma loadLocations_of_serialized (persist : Object -> Exc Object)
  (es : QMap.t string Location.t) :
  persist_returns persist ->
  locations_keyed es ->
  forall (target : Location.t) (m : QMap.t string Location.t),
    Location.userLocation target = true ->
    loadLocations
      (Ctx.items (serialized (Location.serialize persist) (QMap.values es)))
      target m
    = fold_left (fun acc e => QMap.insert (fst e) (snd e) acc)
        (map (fun e => (fst e, through_store true (snd e))) es) m.
Proof.
  intros Hp. induction es as [|[k e] es IH]; intros Hk target m Ht.
  - reflexivity.
  - simpl.
    destruct (Location_decodes_encoded e target Hp) as [obj [Hser [_ [_ Hde]]]].
    rewrite Ht in Hde.
    assert (Hkey : Location.getLocationName (through_store true e) = k).
    { rewrite <- (Hk k e (or_introl eq_refl)). reflexivity. }
    rewrite Hser.
    change (loadLocations
              (Ctx.items
                 (serialized (Location.serialize persist) (QMap.values es)))
              (Location.deserialize (Obj.wrap (instance obj)) target)
              (QMap.insert
                 (Location.getLocationName
                    (Location.deserialize (Obj.wrap (instance obj)) target))
                 (Location.deserialize (Obj.wrap (instance obj)) target) m)
            = fold_left (fun acc e0 => QMap.insert (fst e0) (snd e0) acc)
                (map (fun e0 => (fst e0, through_store true (snd e0))) es)
                (QMap.insert k (through_store true e) m)).
    rewrite Hde, Hkey.
    apply IH.
    + intros k' e' Hin. apply Hk. right. assumption.
    + reflexivity.
Qed.

Lemma sorted_map_values {K V : Type} `{KeyOrder K} (f : V -> V)
  (m : QMap.t K V) :
  QMap.sorted m -> QMap.sorted (map (fun e => (fst e, f (snd e))) m).
Proof.
  assert (Hlow : forall k (m0 : QMap.t K V),
             QMap.lower_than_all k m0 ->
             QMap.lower_than_all k (map (fun e => (fst e, f (snd e))) m0)).
  { intros k m0. induction m0 as [|[k0 v0] m0 IH]; simpl; [tauto|].
    intros [H1 H2]. auto. }
  induction m as [|[k0 v0] m IH]; simpl; [tauto|].
  intros [H1 H2]. auto.
Qed.

(** X6.  Sync, then load, for the locations, when [persist] hands every
    object back and the locations are filed under their names in key
    order: the user context written by [syncLocations], loaded as the user
    layer into an empty collection, gives back the user-owned locations
    under their names, each with its name, country, latitude and
    longitude, and with its altitude scaled by 1e3 and back by 1e-3.  (A
    location on which [persist] raises is not written, hence the
    condition.) *)
Theorem locations_survive_sync_and_reload :
  forall (persist : Object -> Exc Object) (this fresh : Singleton) (db : ConfDB),
    persist_returns persist ->
    QMap.sorted (locations this) ->
    locations_keyed (locations this) ->
    locations fresh = QMap.empty ->
    locations
      (initLocationsFromContext
         (ctx_user_locations (snd (syncLocations persist this db))) true fresh)
    = map (fun e => (fst e, through_store true (snd e)))
        (user_locations (locations this)).
Proof.
  intros persist this fresh db Hp Hs Hk Hempty.
  rewrite syncLocations_user_locations. rewrite values_filter.
  unfold initLocationsFromContext. simpl. rewrite Hempty.
  fold (user_locations (locations this)).
  rewrite loadLocations_of_serialized; try assumption; try reflexivity.
  - apply (fold_insert_sorted
             (map (fun e => (fst e, through_store true (snd e)))
                (user_locations (locations this))) []).
    simpl. apply sorted_map_values. apply filter_sorted. assumption.
  - intros k e Hin. apply Hk. apply filter_In in Hin. tauto.
Qed.

Lemma locations_keyed_five : locations_keyed (locations five_locations).
Proof.
  intros k e Hin. vm_compute in Hin.
  repeat (destruct Hin as [Hin | Hin];
          [inversion Hin; subst; reflexivity|]).
  contradiction.
Qed.

(** The five user locations of the best-effort scenario. *)
Lemma locations_survive_scenario :
  locations
    (initLocationsFromContext
       (ctx_user_locations (snd (syncLocations persist_id five_locations empty_db)))
       true Singleton_blank)
  = map (fun e => (fst e, through_store true (snd e)))
      (user_locations (locations five_locations)).
Proof.
  apply (@locations_survive_sync_and_reload persist_id five_locations
           Singleton_blank empty_db).
  - intros o. reflexivity.
  - vm_compute. repeat split.
  - exact locations_keyed_five.
  - reflexivity.
Defined.

(* ------------------------------------------------------------------ *)
(** ** Entities are filed under their own names *)

Lemma In_insert {K V : Type} `{KeyOrder K} (k : K) (v : V) (m : QMap.t K V)
  (e : K * V) :
  In e (QMap.insert k v m) -> e = (k, v) \/ In e m.
Proof.
  induction m as [|[k0 v0] m IH]; simpl.
  - intros [<- | []]. left. reflexivity.
  - destruct (key_compare k k0); simpl.
    + intros [<- | Hin]; [left; reflexivity | right; right; assumption].
    + intros [<- | Hin]; [left; reflexivity | right; assumption].
    + intros [<- | Hin]; [right; left; reflexivity|].
      destruct (IH Hin); [left | right; right]; assumption.
Qed.

Lemma In_remove {K V : Type} `{KeyOrder K} (k : K) (m : QMap.t K V)
  (e : K * V) :
  In e (QMap.remove k m) -> In e m.
Proof.
  induction m as [|[k0 v0] m IH]; simpl; [tauto|].
  destruct (key_compare k k0); simpl; intuition.
Qed.

Lemma loadTLESources_keyed (lst : list Object) :
  forall (src : TLESource.t) (m : QMap.t string TLESource.t),
    tle_keyed m -> tle_keyed (loadTLESources lst src m).
Proof.
  induction lst as [|r rest IH]; intros src m Hk; simpl; [assumption|].
  apply IH. intros k e Hin. apply In_insert in Hin.
  destruct Hin as [Heq | Hin]; [inversion Heq; reflexivity | auto].
Qed.

Lemma loadLocations_keyed (lst : list Object) :
  forall (loc : Location.t) (m : QMap.t string Location.t),
    locations_keyed m -> locations_keyed (loadLocations lst loc m).
Proof.
  induction lst as [|r rest IH]; intros loc m Hk; simpl; [assumption|].
  apply IH. intros k e Hin. apply In_insert in Hin.
  destruct Hin as [Heq | Hin]; [inversion Heq; reflexivity | auto].
Qed.

(** X7.  Whatever is loaded, registered or removed, every TLE source and
    every location of the registry is filed under its own name, in key
    order: the empty registry is so, and the layered loads, the register
    operations and [removeTLESource] keep it so. *)
Theorem layered_collections_stay_keyed :
  layered_ok Singleton_blank /\
  forall this : Singleton,
    layered_ok this ->
    (forall db, layered_ok (init_locations db this)) /\
    (forall db, layered_ok (init_tle_sources db this)) /\
    (forall loc, layered_ok (snd (registerLocation loc this))) /\
    (forall src, layered_ok (snd (registerTLESource src this))) /\
    (forall name, layered_ok (snd (removeTLESource name this))).
Proof.
  split.
  - unfold layered_ok, tle_keyed, locations_keyed. simpl. tauto.
  - intros this [Ht [Hl [Hst Hsl]]]. unfold layered_ok. repeat apply conj.
    + intros db. rewrite locations_init_locations.
      assert (Hsame : tleSources (init_locations db this) = tleSources this).
      { unfold init_locations.
        destruct (Ctx.items (ctx_qth db)) as [|r rest]; [reflexivity|].
        destruct (Obj.getType r); try destruct (String.eqb _ _); reflexivity. }
      rewrite Hsame. repeat split; try assumption.
      * apply loadLocations_keyed. apply loadLocations_keyed. assumption.
      * apply loadLocations_sorted. apply loadLocations_sorted. assumption.
    + intros db. simpl. repeat split; try assumption.
      * apply loadTLESources_keyed. apply loadTLESources_keyed. assumption.
      * apply loadTLESources_sorted. apply loadTLESources_sorted. assumption.
    + intros loc. unfold registerLocation.
      destruct (QMap.contains _ (locations this)); simpl;
        repeat split; try assumption.
      * intros k e Hin. apply In_insert in Hin.
        destruct Hin as [Heq | Hin]; [inversion Heq; reflexivity | auto].
      * apply insert_sorted. assumption.
    + intros src. unfold registerTLESource.
      destruct (QMap.contains _ (tleSources this)); simpl;
        repeat split; try assumption.
      * intros k e Hin. apply In_insert in Hin.
        destruct Hin as [Heq | Hin]; [inversion Heq; reflexivity | auto].
      * apply insert_sorted. assumption.
    + intros name. unfold removeTLESource.
      destruct (QMap.find name (tleSources this)) as [src|]; simpl;
        [destruct (negb (TLESource.user src)); simpl|];
        repeat split; try assumption.
      * intros k e Hin. apply In_remove in Hin. auto.
      * apply remove_sorted. assumption.
Qed.

(* ------------------------------------------------------------------ *)
(** ** The home location *)

(** X8.  The home location has one slot.  When [persist] hands every
    object back: after [setQth], [syncLocations] returns and leaves
    exactly one record in the "qth" context, whatever it held before, and
    [init_locations] on another registry reads the home location back from
    it: name, country, latitude and longitude as set, the altitude scaled
    by 1e3 and back by 1e-3.  Without a home location the sync does not
    touch the context. *)
Theorem qth_survives_sync_and_reload :
  forall (persist : Object -> Exc Object) (Lib : Type)
         (suscan_set_qth : xyz_t -> Lib -> Lib)
         (loc : Location.t) (this other : Singleton) (lib : Lib) (db : ConfDB),
    persist_returns persist ->
    let this' := fst (setQth suscan_set_qth loc this lib) in
    let r := syncLocations persist this' db in
    haveQth this' = true /\ getQth this' = loc /\
    snd (setQth suscan_set_qth loc this lib)
      = suscan_set_qth (Location.site loc) lib /\
    fst r = Return tt /\
    List.length (ctx_qth (snd r)) = 1 /\
    haveQth (init_locations (snd r) other) = true /\
    getQth (init_locations (snd r) other)
      = through_store (Location.userLocation (getQth other)) loc /\
    (have_qth this = false ->
     ctx_qth (snd (syncLocations persist this db)) = ctx_qth db).
Proof.
  intros persist Lib suscan_set_qth loc this other lib db Hp this' r.
  destruct (Location_decodes_encoded loc (qth other) Hp)
    as [obj [Hser [Hty [Hcl Hde]]]].
  assert (Hr : r = (Return tt,
                    set_ctx_qth [instance obj]
                      (set_ctx_user_locations
                         (fold_left (syncLocations_step persist)
                            (QMap.values (locations this')) [])
                         db))).
  { unfold r, syncLocations. simpl. rewrite Hser. reflexivity. }
  repeat apply conj; try reflexivity.
  - rewrite Hr. reflexivity.
  - rewrite Hr. reflexivity.
  - rewrite Hr. unfold init_locations. simpl.
    unfold Obj.getType in Hty. unfold Obj.getClass in Hcl. simpl in Hty, Hcl.
    unfold Obj.getType, Obj.getClass. simpl. rewrite Hty, Hcl. reflexivity.
  - rewrite Hr. unfold init_locations. simpl.
    unfold Obj.getType in Hty. unfold Obj.getClass in Hcl. simpl in Hty, Hcl.
    unfold Obj.getType, Obj.getClass. simpl. rewrite Hty, Hcl. simpl.
    unfold getQth. simpl. exact Hde.
  - intros Hno. unfold syncLocations. rewrite Hno. reflexivity.
Qed.

Lemma qth_survives_scenario :
  let this' := fst (setQth (fun _ (n : nat) => S n) (user_location "L1")
                      Singleton_blank 0) in
  let r := syncLocations persist_id this' bookmarks_db in
  haveQth this' = true /\ getQth this' = user_location "L1" /\
  snd (setQth (fun _ (n : nat) => S n) (user_location "L1") Singleton_blank 0)
    = 1 /\
  fst r = Return tt /\
  List.length (ctx_qth (snd r)) = 1 /\
  haveQth (init_locations (snd r) Singleton_blank) = true /\
  getQth (init_locations (snd r) Singleton_blank)
    = through_store (Location.userLocation (getQth Singleton_blank))
        (user_location "L1") /\
  (have_qth Singleton_blank = false ->
   ctx_qth (snd (syncLocations persist_id Singleton_blank bookmarks_db))
   = ctx_qth bookmarks_db).
Proof.
  apply (@qth_survives_sync_and_reload persist_id nat (fun _ n => S n)
           (user_location "L1") Singleton_blank Singleton_blank 0 bookmarks_db).
  intros o. reflexivity.
Defined.

(* ------------------------------------------------------------------ *)
(** ** The recent list and the store *)

Lemma syncRecent_records (l : list string) :
  forall lst : ConfigContext,
    fold_left (fun acc p => Ctx.append (Obj.makeField p) acc) l lst
    = lst ++ map (fun p => instance (Obj.makeField p)) l.
Proof.
  induction l as [|p l IH]; intros lst; simpl.
  - rewrite app_nil_r. reflexivity.
  - rewrite IH. unfold Ctx.append. rewrite <- app_assoc. reflexivity.
Qed.

Lemma init_recent_list_fields (l : list string) :
  forall recent : list string,
    fold_left init_recent_list_step
      (Ctx.items (map (fun p => instance (Obj.makeField p)) l)) recent
    = recent ++ l.
Proof.
  induction l as [|p l IH]; intros recent; simpl.
  - rewrite app_nil_r. reflexivity.
  - rewrite IH. unfold init_recent_list_step. simpl.
    rewrite <- app_assoc. reflexivity.
Qed.

(** X9.  [syncRecent] rewrites the "recent" context with one field per
    name, in the order of the list and whatever the context held, and
    [init_recent_list] appends the fields it finds to the list it is
    given: on an empty list the names come back as they were, on the list
    that was just synced they come twice. *)
Theorem recent_list_survives_sync_and_reload :
  forall (this other : Singleton) (db : ConfDB),
    List.length (ctx_recent (syncRecent this db))
      = List.length (recentProfiles this) /\
    recentProfiles (init_recent_list (syncRecent this db) other)
      = recentProfiles other ++ recentProfiles this /\
    recentProfiles (init_recent_list (syncRecent this db) (clearRecent other))
      = recentProfiles this /\
    recentProfiles (init_recent_list (syncRecent this db) this)
      = recentProfiles this ++ recentProfiles this.
Proof.
  intros this other db.
  assert (Hctx : ctx_recent (syncRecent this db)
                 = map (fun p => instance (Obj.makeField p)) (recentProfiles this)).
  { unfold syncRecent. simpl. apply (syncRecent_records _ []). }
  assert (Hload : forall s, recentProfiles (init_recent_list (syncRecent this db) s)
                            = recentProfiles s ++ recentProfiles this).
  { intros s. unfold init_recent_list. rewrite Hctx. simpl.
    apply init_recent_list_fields. }
  repeat apply conj.
  - rewrite Hctx. apply length_map.
  - apply Hload.
  - rewrite Hload. reflexivity.
  - apply Hload.
Qed.

(* ------------------------------------------------------------------ *)
(** ** UI configuration slots *)

Lemma assign_at_nth {A : Type} (x : A) (v : list A) :
  forall pos, pos < List.length v ->
    nth_error (assign_at pos x v) pos = Some x /\
    List.length (assign_at pos x v) = List.length v /\
    forall i, i <> pos -> nth_error (assign_at pos x v) i = nth_error v i.
Proof.
  induction v as [|y v IH]; intros pos Hpos; simpl in Hpos; [lia|].
  destruct pos as [|pos]; simpl.
  - repeat split. intros [|i] Hi; [contradiction | reflexivity].
  - destruct (IH pos) as [H1 [H2 H3]]; [lia|].
    repeat split; try congruence.
    intros [|i] Hi; simpl; [reflexivity|]. apply H3. congruence.
Qed.

Lemma uint_succ_small (pos : nat) :
  (Z.of_nat pos < 2 ^ 32 - 1)%Z -> uint_succ pos = pos + 1.
Proof.
  intros Hpos. unfold uint_succ.
  assert (H32 : (2 ^ 32 = 4294967296)%Z) by reflexivity.
  rewrite H32 in *. rewrite Z.mod_small by lia. lia.
Qed.

Lemma uint_succ_wraps (pos : nat) :
  (Z.of_nat pos = 2 ^ 32 - 1)%Z -> uint_succ pos = 0.
Proof.
  intros Hpos. unfold uint_succ.
  replace (Z.of_nat pos + 1)%Z with (2 ^ 32)%Z by lia.
  rewrite Z.mod_same by discriminate. reflexivity.
Qed.

Lemma resize_grows {A : Type} (blank : A) (n : nat) (v : list A) :
  List.length v <= n ->
  resize blank n v = v ++ repeat blank (n - List.length v).
Proof.
  intros Hle. unfold resize. rewrite firstn_all2 by assumption. reflexivity.
Qed.

(** Away from the wrap-around, or on a position the vector already has,
    [putUIConfig] is defined and writes the slot. *)
Lemma putUIConfig_slot (blank rv : Object) (pos : nat) (this : Singleton) :
  (Z.of_nat pos < 2 ^ 32 - 1)%Z \/ pos < List.length (uiConfig this) ->
  exists v' : list Object,
    putUIConfig blank pos rv this = Some (set_uiConfig v' this) /\
    nth_error v' pos = Some rv /\
    List.length v' = Nat.max (List.length (uiConfig this)) (pos + 1) /\
    (forall i, i <> pos -> i < List.length (uiConfig this) ->
               nth_error v' i = nth_error (uiConfig this) i) /\
    (forall i, List.length (uiConfig this) <= i -> i < pos ->
               nth_error v' i = Some blank).
Proof.
  intros Hpos. unfold putUIConfig.
  destruct (Nat.leb (List.length (uiConfig this)) pos) eqn:E.
  - apply Nat.leb_le in E.
    destruct Hpos as [Hpos | Hpos]; [|lia].
    rewrite (uint_succ_small _ Hpos), resize_grows by lia.
    destruct (@assign_at_nth _ rv
                (uiConfig this
                   ++ repeat blank (pos + 1 - List.length (uiConfig this))) pos)
      as [H1 [H2 H3]].
    { rewrite length_app, repeat_length. lia. }
    assert (Hlt : Nat.ltb pos
                    (List.length
                       (uiConfig this
                          ++ repeat blank (pos + 1 - List.length (uiConfig this))))
                  = true).
    { apply Nat.ltb_lt. rewrite length_app, repeat_length. lia. }
    rewrite Hlt. eexists. split; [reflexivity|]. repeat apply conj.
    + exact H1.
    + rewrite H2, length_app, repeat_length. lia.
    + intros i Hi Hlti. rewrite H3 by assumption.
      apply nth_error_app1. assumption.
    + intros i Hge Hlti. rewrite H3 by lia.
      rewrite nth_error_app2 by assumption.
      apply nth_error_repeat. lia.
  - apply Nat.leb_gt in E.
    destruct (@assign_at_nth _ rv (uiConfig this) pos E) as [H1 [H2 H3]].
    assert (Hlt : Nat.ltb pos (List.length (uiConfig this)) = true)
      by (apply Nat.ltb_lt; assumption).
    rewrite Hlt. eexists. split; [reflexivity|]. repeat apply conj.
    + exact H1.
    + rewrite H2. lia.
    + intros i Hi _. apply H3. assumption.
    + intros i Hge Hlti. lia.
Qed.

(** At the last [unsigned int], on a vector that has no such position,
    [pos + 1] is 0: the vector is emptied and the write is past its end. *)
Lemma putUIConfig_wraps (blank rv : Object) (pos : nat) (this : Singleton) :
  (Z.of_nat pos = 2 ^ 32 - 1)%Z ->
  List.length (uiConfig this) <= pos ->
  putUIConfig blank pos rv this = None.
Proof.
  intros Hpos Hle. unfold putUIConfig.
  apply Nat.leb_le in Hle. rewrite Hle.
  rewrite (uint_succ_wraps _ Hpos). unfold resize. simpl.
  reflexivity.
Qed.

(** X10.  [putUIConfig] makes room before it writes.  For a position
    below the last [unsigned int], or one the vector already has, the call
    is defined: the configuration is at its position afterwards, the
    vector is as long as before or reaches just past the position, every
    other slot that existed keeps what it held, the slots created on the
    way hold default objects, and nothing else of the registry changes.
    At the last [unsigned int], 2^32 - 1, on a vector without that
    position, [pos + 1] wraps around to 0: the vector is resized to
    nothing and the write falls outside it. *)
Theorem putUIConfig_writes_slot :
  forall (blank rv : Object) (pos : nat) (this : Singleton),
    let v := uiConfig this in
    ((Z.of_nat pos < 2 ^ 32 - 1)%Z \/ pos < List.length v ->
     exists v' : list Object,
       putUIConfig blank pos rv this = Some (set_uiConfig v' this) /\
       nth_error v' pos = Some rv /\
       List.length v' = Nat.max (List.length v) (pos + 1) /\
       (forall i, i <> pos -> i < List.length v ->
                  nth_error v' i = nth_error v i) /\
       (forall i, List.length v <= i -> i < pos ->
                  nth_error v' i = Some blank)) /\
    ((Z.of_nat pos = 2 ^ 32 - 1)%Z -> List.length v <= pos ->
     putUIConfig blank pos rv this = None).
Proof.
  intros blank rv pos this v. split.
  - apply putUIConfig_slot.
  - apply putUIConfig_wraps.
Qed.

(** The panel configuration put at position 2 of an empty vector. *)
Example putUIConfig_scenario :
  option_map uiConfig (putUIConfig blank_object 2 panel_config Singleton_blank)
  = Some [blank_object; blank_object; panel_config].
Proof. reflexivity. Qed.

(** X11.  A configuration the caller owns, put at a position the
    "uiconfig" context has, is the record of that position after the next
    sync, and the context is as long as before when every configuration
    has a position in it.  The context is indexed by an [unsigned int]:
    it holds fewer than 2^32 records, so that the position is below the
    last [unsigned int] and [putUIConfig] is defined. *)
Theorem putUIConfig_then_syncUI :
  forall (blank rv : Object) (pos : nat) (this : Singleton) (db : ConfDB),
    Obj.isBorrowed rv = false ->
    pos < List.length (ctx_uiconfig db) ->
    (Z.of_nat (List.length (ctx_uiconfig db)) < 2 ^ 32)%Z ->
    exists this' : Singleton,
      putUIConfig blank pos rv this = Some this' /\
      let db' := syncUI this' db in
      nth_error (ctx_uiconfig db') pos = Some (instance rv) /\
      (List.length (uiConfig this) <= List.length (ctx_uiconfig db) ->
       List.length (ctx_uiconfig db') = List.length (ctx_uiconfig db)).
Proof.
  intros blank rv pos this db Hown Hpos Hfits.
  destruct (@putUIConfig_slot blank rv pos this) as [v' [Hput [Hat [Hlen _]]]].
  { left. lia. }
  exists (set_uiConfig v' this). split; [exact Hput|].
  intros db'. unfold db'. rewrite ctx_uiconfig_syncUI.
  change (uiConfig (set_uiConfig v' this)) with v'. split.
  - rewrite nth_error_app1 by (rewrite overlay_length; assumption).
    rewrite overlay_nth.
    destruct (nth_error (ctx_uiconfig db) pos) eqn:E.
    + rewrite Hat. unfold owned. rewrite Hown. reflexivity.
    + apply nth_error_None in E. lia.
  - intros Hfit. rewrite skipn_all2 by (rewrite Hlen; lia).
    simpl. rewrite app_nil_r. apply overlay_length.
Qed.

Lemma putUIConfig_then_syncUI_scenario :
  exists this' : Singleton,
    putUIConfig blank_object 2 panel_config Singleton_blank = Some this' /\
    let db' :=
      syncUI this' (set_ctx_uiconfig (ctx_bookmarks bookmarks_db) empty_db) in
    nth_error (ctx_uiconfig db') 2 = Some (instance panel_config) /\
    (List.length (uiConfig Singleton_blank)
     <= List.length (ctx_uiconfig
                       (set_ctx_uiconfig (ctx_bookmarks bookmarks_db) empty_db)) ->
     List.length (ctx_uiconfig db')
     = List.length (ctx_uiconfig
                      (set_ctx_uiconfig (ctx_bookmarks bookmarks_db) empty_db))).
Proof.
  apply (@putUIConfig_then_syncUI blank_object panel_config 2 Singleton_blank
           (set_ctx_uiconfig (ctx_bookmarks bookmarks_db) empty_db)).
  - reflexivity.
  - simpl. lia.
  - reflexivity.
Defined.

(* ------------------------------------------------------------------ *)
(** ** Palettes, auto-gain presets and frequency allocation tables *)

Section NamedRecordFacts.
Variable value : Value -> string.










End NamedRecordFacts.



(* ------------------------------------------------------------------ *)
(** ** Discovery: profiles and devices *)

Lemma set_devices_registerSourceDevice (ds : list suscan_source_device_t) :
  forall this : Singleton,
    fold_left (fun s d => registerSourceDevice d s) ds this
    = set_devices (devices this ++ walked_devices ds) this.
Proof.
  induction ds as [|d ds IH]; intros this; simpl.
  - rewrite app_nil_r. destruct this; reflexivity.
  - rewrite IH. unfold registerSourceDevice. simpl.
    rewrite <- app_assoc. reflexivity.
Qed.

Lemma profiles_registerSourceConfig (cs : list suscan_source_config_t) :
  forall this : Singleton,
    devices (fold_left (fun s c => registerSourceConfig c s) cs this)
      = devices this /\
    profiles_after_walk cs (profiles this)
      (profiles (fold_left (fun s c => registerSourceConfig c s) cs this)).
Proof.
  unfold profiles_after_walk.
  induction cs as [|c cs IH]; intros this; simpl; [split; reflexivity|].
  destruct (IH (registerSourceConfig c this)) as [Hd Hp].
  split; [exact Hd|]. intros k. rewrite Hp.
  destruct (last_with_key discovered_label k cs); [reflexivity|].
  unfold registerSourceConfig. simpl. fold (discovered_label c).
  destruct (String.eqb (discovered_label c) k) eqn:E.
  - apply String.eqb_eq in E. rewrite <- E. apply find_insert_same.
  - apply String.eqb_neq in E. apply find_insert_other. congruence.
Qed.

(** X13.  A first, successful [init_sources] fills the registry from the
    two walks of the library: every configuration walked is the profile
    of its label, "(Null profile)" when it has none, the last one walked
    winning a label that comes twice and the profiles of other labels
    staying as they were; the devices walked are appended, in order, each
    on channel 0. *)
Theorem init_sources_discovers :
  forall (Lib : Type) (i1 : Lib -> bool * Lib)
         (cw : Lib -> list suscan_source_config_t)
         (dw : Lib -> list suscan_source_device_t)
         (this : Singleton) (lib lib' : Lib),
    sources_initd this = false ->
    i1 lib = (true, lib') ->
    exists this',
      init_sources i1 cw dw this lib = (Return tt, this', lib') /\
      profiles_after_walk (cw lib') (profiles this) (profiles this') /\
      devices this' = devices this ++ walked_devices (dw lib').
Proof.
  intros Lib i1 cw dw this lib lib' Hf Hi.
  unfold init_sources, SU_ATTEMPT. rewrite Hf, Hi. simpl.
  eexists. split; [reflexivity|].
  rewrite set_devices_registerSourceDevice. simpl.
  destruct (profiles_registerSourceConfig (cw lib') this) as [Hd Hp].
  split; [exact Hp|]. rewrite Hd. reflexivity.
Qed.

Lemma init_sources_discovers_scenario :
  exists this',
    init_sources always_ok walk_configs walk_devices Singleton_blank 0
    = (Return tt, this', 1) /\
    profiles_after_walk (walk_configs 1) (profiles Singleton_blank)
      (profiles this') /\
    devices this' = devices Singleton_blank ++ walked_devices (walk_devices 1).
Proof.
  apply (@init_sources_discovers nat always_ok walk_configs walk_devices
           Singleton_blank 0 1).
  - reflexivity.
  - reflexivity.
Defined.

(** X14.  [refreshDevices] forgets the devices it held and keeps those of
    the walk, in the order of the walk and on channel 0: the last walk
    wins, and nothing else of the registry changes. *)
Theorem refreshDevices_keeps_last_walk :
  forall (Lib : Type) (dw : Lib -> list suscan_source_device_t)
         (this : Singleton) (lib : Lib),
    refreshDevices dw this lib = set_devices (walked_devices (dw lib)) this /\
    refreshDevices dw (refreshDevices dw this lib) lib
    = refreshDevices dw this lib /\
    forall index,
      getDeviceAt index (refreshDevices dw this lib)
      = nth_error (walked_devices (dw lib)) index.
Proof.
  intros Lib dw this lib.
  assert (Hr : forall s, refreshDevices dw s lib
                         = set_devices (walked_devices (dw lib)) s).
  { intros s. unfold refreshDevices.
    rewrite set_devices_registerSourceDevice. destruct s; reflexivity. }
  repeat apply conj.
  - apply Hr.
  - rewrite (Hr (refreshDevices dw this lib)), Hr. reflexivity.
  - intros index. rewrite Hr. unfold getDeviceAt. simpl.
    destruct (Nat.ltb index (List.length (walked_devices (dw lib)))) eqn:E;
      [reflexivity|].
    apply Nat.ltb_ge in E. symmetry. apply nth_error_None. assumption.
Qed.

(** X15.  [saveProfile] stores the profile under its label before it
    registers it with the library: whether the registration succeeds or
    raises, the profile is the one [getProfile] finds under that label
    afterwards, the profiles of other labels are as they were, and the
    call raises exactly when the library refuses. *)
Theorem saveProfile_stores_before_registering :
  forall (Lib : Type)
         (register : suscan_source_config_t -> Lib -> bool * Lib)
         (label : suscan_source_config_t -> string)
         (profile : suscan_source_config_t) (this : Singleton) (lib : Lib),
    let r := saveProfile register label profile this lib in
    getProfile (label profile) (snd (fst r)) = Some profile /\
    (forall k, k <> label profile ->
               getProfile k (snd (fst r)) = getProfile k this) /\
    (fst (fst r) = Return tt <-> fst (register profile lib) = true) /\
    (fst (fst r) = Throw <-> fst (register profile lib) = false) /\
    snd r = snd (register profile lib).
Proof.
  intros Lib register label profile this lib r.
  assert (Hfind : QMap.find (label profile)
                    (QMap.insert (label profile) profile (profiles this))
                  = Some profile) by apply find_insert_same.
  unfold r, saveProfile. simpl. rewrite Hfind.
  destruct (register profile lib) as [ok lib'] eqn:Hreg. simpl.
  assert (Hget : forall k s, getProfile k s = QMap.find k (profiles s)).
  { intros k s. unfold getProfile, QMap.contains.
    destruct (QMap.find k (profiles s)); reflexivity. }
  assert (Hother : forall k,
             k <> label profile ->
             getProfile k
               (set_profiles
                  (QMap.insert (label profile) profile (profiles this)) this)
             = getProfile k this).
  { intros k Hk. rewrite !Hget. simpl.
    apply find_insert_other. assumption. }
  destruct ok; simpl; rewrite Hget; simpl.
  - split; [exact Hfind|]. split; [exact Hother|].
    repeat split; congruence.
  - split; [exact Hfind|]. split; [exact Hother|].
    repeat split; congruence.
Qed.

(* ------------------------------------------------------------------ *)
(** ** Spectrum units, bookmarks: replace and remove *)

Lemma remove_absent {K V : Type} `{KeyOrder K} (k : K) (m : QMap.t K V) :
  QMap.find k m = None -> QMap.remove k m = m.
Proof.
  induction m as [|[k0 v0] m IH]; simpl; [reflexivity|].
  destruct (key_compare k k0); [discriminate | |];
    intros Hf; rewrite IH by assumption; reflexivity.
Qed.

Lemma remove_insert_absent {K V : Type} `{KeyOrderLaws K}
  (k : K) (v : V) (m : QMap.t K V) :
  QMap.find k m = None -> QMap.remove k (QMap.insert k v m) = m.
Proof.
  induction m as [|[k0 v0] m IH]; simpl.
  - intros _. rewrite key_compare_refl. reflexivity.
  - destruct (key_compare k k0) eqn:E; [discriminate | |]; intros Hf; simpl.
    + rewrite key_compare_refl, E. rewrite remove_absent by assumption.
      reflexivity.
    + rewrite E. rewrite IH by assumption. reflexivity.
Qed.

(** X16.  [replaceSpectrumUnit] always leaves the unit of the given
    factors under the name, every other unit as it was, and a register of
    the same name is refused afterwards; [removeSpectrumUnit] takes the
    unit of the name out, whichever it is, and hands the registry back
    untouched when there is none. *)
Theorem spectrum_unit_replace_and_remove :
  forall (name : string) (dB zero : float) (this : Singleton),
    (exists m',
        replaceSpectrumUnit name dB zero this = set_spectrumUnits m' this /\
        inserted name (mkSpectrumUnit name dB zero) (spectrumUnits this) m') /\
    fst (registerSpectrumUnit name dB zero
           (replaceSpectrumUnit name dB zero this)) = false /\
    (exists m',
        removeSpectrumUnit name this = set_spectrumUnits m' this /\
        removed name (spectrumUnits this) m') /\
    (QMap.find name (spectrumUnits this) = None ->
     removeSpectrumUnit name this = this).
Proof.
  intros name dB zero this.
  assert (Hrep : replaceSpectrumUnit name dB zero this
                 = set_spectrumUnits
                     (QMap.insert name (mkSpectrumUnit name dB zero)
                        (QMap.remove name (spectrumUnits this))) this).
  { unfold replaceSpectrumUnit, removeSpectrumUnit, QMap.contains.
    destruct (QMap.find name (spectrumUnits this)) eqn:Hf; simpl;
      [reflexivity|].
    rewrite (remove_absent name (spectrumUnits this) Hf). reflexivity. }
  repeat apply conj.
  - eexists. split; [exact Hrep|]. apply inserted_after_remove.
  - rewrite Hrep. unfold registerSpectrumUnit, QMap.contains. simpl.
    rewrite find_insert_same. reflexivity.
  - unfold removeSpectrumUnit, QMap.contains.
    destruct (QMap.find name (spectrumUnits this)) eqn:Hf.
    + eexists. split; [reflexivity|]. split.
      * apply find_remove_same.
      * intros k' Hk'. apply find_remove_other. assumption.
    + exists (spectrumUnits this). split; [destruct this; reflexivity|].
      split; [assumption | reflexivity].
  - intros Hf. unfold removeSpectrumUnit, QMap.contains. rewrite Hf.
    reflexivity.
Qed.

(** X17.  [removeBookmark] takes the bookmark out of the map before it
    talks to the store: whatever the store answers, the frequency is free
    afterwards and the other bookmarks are as they were; when the store
    refuses the delete the exception leaves the call with the bookmark
    already gone and the store untouched; and a frequency without
    bookmark changes nothing and sends nothing to the store. *)
Theorem removeBookmark_frees_frequency :
  forall (list_remove : nat -> ConfigContext -> Exc ConfigContext)
         (freq : Z) (this : Singleton) (db : ConfDB),
    let r := removeBookmark list_remove freq this db in
    removed freq (bookmarks this) (bookmarks (snd (fst r))) /\
    (fst (fst r) = Throw -> snd r = db) /\
    (QMap.find freq (bookmarks this) = None -> r = (Return tt, this, db)) /\
    (forall bm, QMap.find freq (bookmarks this) = Some bm ->
                entry bm = (-1)%Z -> fst (fst r) = Return tt /\ snd r = db).
Proof.
  intros list_remove freq this db r. unfold r, removeBookmark.
  destruct (QMap.find freq (bookmarks this)) as [bm|] eqn:Hf.
  - assert (Hrem : removed freq (bookmarks this)
                     (QMap.remove freq (bookmarks this))).
    { split; [apply find_remove_same|].
      intros k' Hk'. apply find_remove_other. assumption. }
    assert (Hbm : forall bm', Some bm = Some bm' -> entry bm' = entry bm)
      by (intros bm' Heq; inversion Heq; reflexivity).
    destruct (entry bm =? -1)%Z eqn:He; simpl.
    + split; [exact Hrem|]. split; [discriminate|]. split; [discriminate|].
      intros bm' _ _. split; reflexivity.
    + apply Z.eqb_neq in He.
      destruct (list_remove (to_unsigned (entry bm)) (ctx_bookmarks db));
        simpl.
      * split; [exact Hrem|]. split; [discriminate|]. split; [discriminate|].
        intros bm' Heq Hneg. rewrite (Hbm bm' Heq) in Hneg. contradiction.
      * split; [exact Hrem|]. split; [reflexivity|]. split; [discriminate|].
        intros bm' Heq Hneg. rewrite (Hbm bm' Heq) in Hneg. contradiction.
  - simpl. split; [split; [assumption | reflexivity]|].
    split; [discriminate|]. split; [reflexivity|]. intros bm Hbm. discriminate.
Qed.

(** X18.  Register, then remove: removing a TLE source that was just
    registered gives back the registry as it was before the register,
    exactly, and the same name can be registered again. *)
Theorem registerTLESource_then_remove :
  forall (src : TLESource.t) (this : Singleton),
    fst (registerTLESource src this) = true ->
    removeTLESource (TLESource.name src) (snd (registerTLESource src this))
    = (true, this).
Proof.
  intros src this. unfold registerTLESource.
  destruct (QMap.contains (TLESource.name src) (tleSources this)) eqn:E;
    simpl; [discriminate|]. intros _.
  apply contains_false_find in E.
  unfold removeTLESource. simpl.
  rewrite (find_insert_same (TLESource.name src)). simpl.
  rewrite remove_insert_absent by assumption.
  destruct this; reflexivity.
Qed.

Lemma registerTLESource_then_remove_scenario :
  removeTLESource (TLESource.name (TLESource.mk "celestrak" "http://c" false))
    (snd (registerTLESource (TLESource.mk "celestrak" "http://c" false) merged))
  = (true, merged).
Proof.
  apply (@registerTLESource_then_remove
           (TLESource.mk "celestrak" "http://c" false) merged).
  reflexivity.
Defined.

(* ------------------------------------------------------------------ *)
(** ** Loading the bookmarks *)

Section LoadBookmarkFacts.
Variable value : Value -> string.
Variable scan_lg : string -> option float.
Variable scan_d : string -> option Z.
Variable qint64_of_double : float -> Z.
Variable QColor : string -> string.

Let step := init_bookmarks_step value scan_lg scan_d qint64_of_double QColor.
Let loop := init_bookmarks_loop value scan_lg scan_d qint64_of_double QColor.

Lemma load_extended_keeps_name (r : Object) (i : BookmarkInfo) :
  bm_name (load_extended value scan_d r i) = bm_name i.
Proof.
  unfold load_extended.
  destruct (field_string value "low_freq_cut" r); [|reflexivity].
  destruct (field_string value "high_freq_cut" r); [|reflexivity].
  destruct (field_string value "modulation" r); reflexivity.
Qed.

(** What one record can add to the map: nothing, or one bookmark under
    its own frequency, with a name and the position of the record. *)
Lemma init_bookmarks_step_entry (i : nat) (r : Object)
  (m : QMap.t Z Bookmark) (k : Z) (bm : Bookmark) :
  In (k, bm) (step i r m) ->
  In (k, bm) m \/
  (frequency (info bm) = k /\ bm_name (info bm) <> EmptyString /\
   entry bm = to_int i).
Proof.
  unfold step, init_bookmarks_step.
  destruct (field_string value "frequency" r) as [f|]; [|tauto].
  destruct (field_string value "name" r) as [n|]; [|tauto].
  destruct (field_string value "color" r) as [c|]; [|tauto].
  destruct (scan_lg f) as [freq|]; [|tauto].
  destruct (Nat.ltb 0 (String.length n)) eqn:Hn; [|tauto].
  intros Hin. apply In_insert in Hin. destruct Hin as [Heq | Hin]; [|tauto].
  right. inversion Heq; subst. simpl. repeat split.
  rewrite load_extended_keeps_name. simpl.
  intros Hempty. rewrite Hempty in Hn. discriminate.
Qed.

Lemma init_bookmarks_loop_entries (lst : list Object) :
  forall (i : nat) (m : QMap.t Z Bookmark) (k : Z) (bm : Bookmark),
    In (k, bm) (loop i lst m) ->
    In (k, bm) m \/
    (frequency (info bm) = k /\ bm_name (info bm) <> EmptyString /\
     exists j, i <= j < i + List.length lst /\ entry bm = to_int j).
Proof.
  induction lst as [|r rest IH]; intros i m k bm; simpl; [tauto|].
  intros Hin. apply IH in Hin. destruct Hin as [Hin | [Hf [Hn [j [Hj He]]]]].
  - apply init_bookmarks_step_entry in Hin.
    destruct Hin as [Hin | [Hf [Hn He]]]; [tauto|].
    right. repeat split; try assumption. exists i. split; [lia | assumption].
  - right. repeat split; try assumption. exists j. split; [lia | assumption].
Qed.

Lemma init_bookmarks_loop_sorted (lst : list Object) :
  forall (i : nat) (m : QMap.t Z Bookmark),
    QMap.sorted m -> QMap.sorted (loop i lst m).
Proof.
  induction lst as [|r rest IH]; intros i m Hs; simpl; [assumption|].
  apply IH. unfold step, init_bookmarks_step.
  destruct (field_string value "frequency" r) as [f|]; [|assumption].
  destruct (field_string value "name" r) as [n|]; [|assumption].
  destruct (field_string value "color" r) as [c|]; [|assumption].
  destruct (scan_lg f) as [freq|]; [|assumption].
  destruct (Nat.ltb 0 (String.length n)); [|assumption].
  apply insert_sorted. assumption.
Qed.
End LoadBookmarkFacts.

Lemma find_entry {K V : Type} `{KeyOrderLaws K}
  (k : K) (v : V) (m : QMap.t K V) :
  QMap.find k m = Some v -> In (k, v) m.
Proof.
  induction m as [|[k0 v0] m IH]; simpl; [discriminate|].
  destruct (key_compare k k0) eqn:E; intros Hf.
  - apply key_compare_eq in E. subst. left. congruence.
  - right. auto.
  - right. auto.
Qed.

Lemma syncBookmarks_nothing_unsaved (this : Singleton) (db : ConfDB) :
  QMap.sorted (bookmarks this) ->
  filter unsaved (QMap.values (bookmarks this)) = [] ->
  syncBookmarks this db = db.
Proof.
  intros Hs Hnone.
  pose proof (ctx_bookmarks_syncBookmarks this db Hs) as Hd.
  rewrite Hnone in Hd. simpl in Hd. rewrite app_nil_r in Hd.
  unfold syncBookmarks in *. simpl in Hd. rewrite Hd.
  destruct db; reflexivity.
Qed.

Lemma to_int_small (i : nat) :
  (Z.of_nat i < 2 ^ 31)%Z -> to_int i = Z.of_nat i.
Proof.
  intros Hi. unfold to_int.
  rewrite Z.mod_small by (split; [lia|]; apply Z.lt_trans with (2 ^ 31)%Z;
                          [assumption | reflexivity]).
  apply Z.ltb_lt in Hi. rewrite Hi. reflexivity.
Qed.

Lemma init_bookmarks_loaded
  (value : Value -> string) (scan_lg : string -> option float)
  (scan_d : string -> option Z) (cast : float -> Z)
  (QColor : string -> string) (db : ConfDB) (this : Singleton) :
  bookmarks this = QMap.empty ->
  (Z.of_nat (List.length (ctx_bookmarks db)) < 2 ^ 31)%Z ->
  QMap.sorted
    (bookmarks (init_bookmarks value scan_lg scan_d cast QColor db this)) /\
  forall k bm,
    In (k, bm)
      (bookmarks (init_bookmarks value scan_lg scan_d cast QColor db this)) ->
    loaded_from_slot (List.length (ctx_bookmarks db)) k bm /\
    (0 <= entry bm < Z.of_nat (List.length (ctx_bookmarks db)))%Z.
Proof.
  intros Hempty Hlen. split.
  - unfold init_bookmarks. simpl. apply init_bookmarks_loop_sorted.
    rewrite Hempty. exact I.
  - intros k bm Hin. unfold init_bookmarks in Hin. simpl in Hin.
    apply init_bookmarks_loop_entries in Hin. rewrite Hempty in Hin.
    destruct Hin as [[] | [Hf [Hn [j [Hj He]]]]].
    unfold Ctx.items in Hj. rewrite length_map in Hj.
    split.
    + repeat split; try assumption. exists j. split; [lia | assumption].
    + rewrite He, to_int_small by lia. lia.
Qed.

(** X19.  Every bookmark [init_bookmarks] loads into an empty map is
    filed under its own frequency, has a name, and carries as backing
    index the position of a record of the "bookmarks" context; the map is
    in key order.  With fewer than 2^31 records the index is never the
    unsaved mark -1, so a sync right after the load writes nothing to the
    context. *)
Theorem init_bookmarks_indexes_records :
  forall (value : Value -> string) (scan_lg : string -> option float)
         (scan_d : string -> option Z) (cast : float -> Z)
         (QColor : string -> string) (db : ConfDB) (this : Singleton),
    bookmarks this = QMap.empty ->
    (Z.of_nat (List.length (ctx_bookmarks db)) < 2 ^ 31)%Z ->
    let this' := init_bookmarks value scan_lg scan_d cast QColor db this in
    QMap.sorted (bookmarks this') /\
    (forall k bm,
        QMap.find k (bookmarks this') = Some bm ->
        loaded_from_slot (List.length (ctx_bookmarks db)) k bm /\
        (0 <= entry bm < Z.of_nat (List.length (ctx_bookmarks db)))%Z) /\
    syncBookmarks this' db = db.
Proof.
  intros value scan_lg scan_d cast QColor db this Hempty Hlen this'.
  destruct (init_bookmarks_loaded value scan_lg scan_d cast QColor db this
              Hempty Hlen) as [Hs Hin].
  fold this' in Hs, Hin.
  split; [exact Hs|]. split.
  - intros k bm Hf. apply Hin. apply find_entry. assumption.
  - apply syncBookmarks_nothing_unsaved; [assumption|].
    assert (Hall : forall k bm, In (k, bm) (bookmarks this') ->
                                unsaved bm = false).
    { intros k bm Hkb. destruct (Hin k bm Hkb) as [_ Hr].
      unfold unsaved. apply Z.eqb_neq. lia. }
    revert Hall. generalize (bookmarks this'). intros q.
    induction q as [|[k0 v0] q IH]; intros Hall; simpl; [reflexivity|].
    rewrite (Hall k0 v0 (or_introl eq_refl)).
    apply IH. intros k bm Hkb. apply (Hall k). right. assumption.
Qed.

Lemma init_bookmarks_scenario :
  let this' :=
    init_bookmarks plain_value scan_100MHz no_scan cast_100MHz (fun c => c)
      text_bookmarks_db Singleton_blank in
  QMap.sorted (bookmarks this') /\
  (forall k bm,
      QMap.find k (bookmarks this') = Some bm ->
      loaded_from_slot (List.length (ctx_bookmarks text_bookmarks_db)) k bm /\
      (0 <= entry bm
       < Z.of_nat (List.length (ctx_bookmarks text_bookmarks_db)))%Z) /\
  syncBookmarks this' text_bookmarks_db = text_bookmarks_db.
Proof.
  apply (@init_bookmarks_indexes_records plain_value scan_100MHz no_scan
           cast_100MHz (fun c => c) text_bookmarks_db Singleton_blank).
  - reflexivity.
  - reflexivity.
Defined.

(** In the scenario the first record has no frequency that converts and
    is skipped; the second is loaded with backing index 1. *)
Example init_bookmarks_scenario_entries :
  map (fun e => (fst e, bm_name (info (snd e)), entry (snd e)))
    (bookmarks
       (init_bookmarks plain_value scan_100MHz no_scan cast_100MHz
          (fun c => c) text_bookmarks_db Singleton_blank))
  = [(100000000%Z, "beacon"%string, 1%Z)].
Proof. reflexivity. Qed.

Section LoadBookmarkRecords.
Variable value : Value -> string.
Variable scan_lg : string -> option float.
Variable scan_d : string -> option Z.
Variable qint64_of_double : float -> Z.
Variable QColor : string -> string.

Let step := init_bookmarks_step value scan_lg scan_d qint64_of_double QColor.
Let loop := init_bookmarks_loop value scan_lg scan_d qint64_of_double QColor.

(** The bookmark a record adds to the map is read from that record and
    carries its position. *)
Lemma init_bookmarks_step_record (i : nat) (r : Object)
  (m : QMap.t Z Bookmark) (k : Z) (bm : Bookmark) :
  In (k, bm) (step i r m) ->
  In (k, bm) m \/
  (entry bm = to_int i /\ read_from value scan_lg qint64_of_double r bm).
Proof.
  unfold step, init_bookmarks_step.
  destruct (field_string value "frequency" r) as [f|] eqn:Hf; [|tauto].
  destruct (field_string value "name" r) as [n|] eqn:Hn; [|tauto].
  destruct (field_string value "color" r) as [c|]; [|tauto].
  destruct (scan_lg f) as [freq|] eqn:Hscan; [|tauto].
  destruct (Nat.ltb 0 (String.length n)); [|tauto].
  intros Hin. apply In_insert in Hin. destruct Hin as [Heq | Hin]; [|tauto].
  right. inversion Heq; subst. simpl. split; [reflexivity|].
  unfold read_from. simpl. rewrite load_extended_keeps_name. simpl.
  split; [exact Hn|]. exists f, freq. repeat split; assumption.
Qed.

Lemma init_bookmarks_loop_records (lst : list Object) :
  forall (i : nat) (m : QMap.t Z Bookmark) (k : Z) (bm : Bookmark),
    In (k, bm) (loop i lst m) ->
    In (k, bm) m \/
    exists (j : nat) (r : Object),
      nth_error lst j = Some r /\ entry bm = to_int (i + j) /\
      read_from value scan_lg qint64_of_double r bm.
Proof.
  induction lst as [|r rest IH]; intros i m k bm; simpl; [tauto|].
  intros Hin. apply IH in Hin.
  destruct Hin as [Hin | [j [r' [Hnth [He Hread]]]]].
  - apply init_bookmarks_step_record in Hin.
    destruct Hin as [Hin | [He Hread]]; [tauto|].
    right. exists 0, r. rewrite Nat.add_0_r.
    split; [reflexivity|]. split; assumption.
  - right. exists (S j), r'. rewrite Nat.add_succ_r.
    split; [exact Hnth|]. split; assumption.
Qed.

(** After a load into an empty map from fewer than 2^31 records, the
    backing index of a bookmark is the position of the record it was read
    from. *)
Lemma init_bookmarks_entry_is_position (db : ConfDB) (this : Singleton)
  (k : Z) (bm : Bookmark) :
  bookmarks this = QMap.empty ->
  (Z.of_nat (List.length (ctx_bookmarks db)) < 2 ^ 31)%Z ->
  In (k, bm)
    (bookmarks
       (init_bookmarks value scan_lg scan_d qint64_of_double QColor db this)) ->
  exists r : Object,
    nth_error (Ctx.items (ctx_bookmarks db)) (Z.to_nat (entry bm)) = Some r /\
    read_from value scan_lg qint64_of_double r bm.
Proof.
  intros Hempty Hlen Hin. unfold init_bookmarks in Hin. simpl in Hin.
  apply init_bookmarks_loop_records in Hin. rewrite Hempty in Hin.
  destruct Hin as [[] | [j [r [Hnth [He Hread]]]]].
  exists r. split; [|exact Hread].
  assert (Hj : j < List.length (Ctx.items (ctx_bookmarks db))).
  { apply nth_error_Some. congruence. }
  unfold Ctx.items in Hj. rewrite length_map in Hj.
  simpl in He. rewrite He, to_int_small by lia.
  rewrite Nat2Z.id. exact Hnth.
Qed.
End LoadBookmarkRecords.

(** X20.  Load, then replace.  The registry is the one [init_bookmarks]
    has just loaded into an empty map from a context of fewer than 2^31
    records, and the store accepts the delete of every position it holds.
    Then [replaceBookmark] returns and leaves the fresh bookmark, with
    backing index -1, under its frequency.  When it replaces a loaded
    bookmark, the positional delete it issues is at a position the context
    has, and the record at that position is the one the bookmark was read
    from: its field "name" is the name of the bookmark and its field
    "frequency" converts to the frequency of the bookmark. *)
Theorem replaceBookmark_after_load :
  forall (value : Value -> string) (scan_lg : string -> option float)
         (scan_d : string -> option Z) (cast : float -> Z)
         (QColor : string -> string)
         (list_remove : nat -> ConfigContext -> Exc ConfigContext)
         (info0 : BookmarkInfo) (db : ConfDB) (this : Singleton),
    bookmarks this = QMap.empty ->
    (Z.of_nat (List.length (ctx_bookmarks db)) < 2 ^ 31)%Z ->
    deletes_in_range list_remove ->
    let this' := init_bookmarks value scan_lg scan_d cast QColor db this in
    let r := replaceBookmark list_remove info0 this' db in
    fst (fst r) = Return tt /\
    QMap.find (frequency info0) (bookmarks (snd (fst r)))
      = Some (mkBookmark info0 (-1)) /\
    forall old,
      QMap.find (frequency info0) (bookmarks this') = Some old ->
      Z.to_nat (entry old) < List.length (ctx_bookmarks db) /\
      to_unsigned (entry old) = Z.to_nat (entry old) /\
      (exists rec : Object,
          nth_error (Ctx.items (ctx_bookmarks db)) (Z.to_nat (entry old))
            = Some rec /\
          read_from value scan_lg cast rec old) /\
      exists l,
        list_remove (Z.to_nat (entry old)) (ctx_bookmarks db) = Return l /\
        snd r = set_ctx_bookmarks l db.
Proof.
  intros value scan_lg scan_d cast QColor list_remove info0 db this
         Hempty Hlen Hdel this' r.
  destruct (init_bookmarks_loaded value scan_lg scan_d cast QColor db this
              Hempty Hlen) as [_ Hin].
  fold this' in Hin.
  unfold r, replaceBookmark, removeBookmark.
  destruct (QMap.find (frequency info0) (bookmarks this')) as [old|] eqn:Hold.
  - destruct (Hin _ _ (find_entry _ _ Hold)) as [_ Hrange].
    pose proof (@init_bookmarks_entry_is_position value scan_lg scan_d cast
                  QColor db this _ _ Hempty Hlen (find_entry _ _ Hold))
      as Hrec.
    assert (Hne : (entry old =? -1)%Z = false) by (apply Z.eqb_neq; lia).
    assert (Hu : to_unsigned (entry old) = Z.to_nat (entry old))
      by (apply to_unsigned_valid; lia).
    assert (Hpos : Z.to_nat (entry old) < List.length (ctx_bookmarks db))
      by lia.
    rewrite Hne, Hu. simpl.
    pose proof (Hdel _ _ Hpos) as Hret.
    destruct (list_remove (Z.to_nat (entry old)) (ctx_bookmarks db))
      as [l|] eqn:Hl; [|discriminate].
    simpl. split; [reflexivity|]. split; [apply find_insert_same|].
    intros old' Heq. inversion Heq; subst old'.
    split; [assumption|]. split; [assumption|]. split; [exact Hrec|].
    exists l. split; [exact Hl | reflexivity].
  - simpl. split; [reflexivity|]. split; [apply find_insert_same|].
    intros old Heq. discriminate.
Qed.

Lemma replaceBookmark_after_load_scenario :
  let this' :=
    init_bookmarks plain_value scan_100MHz no_scan cast_100MHz (fun c => c)
      text_bookmarks_db Singleton_blank in
  let info0 := mkBookmarkInfo "beacon 2" 100000000 "#00ff00" 0 0 "CW" in
  let r := replaceBookmark remove_slot info0 this' text_bookmarks_db in
  fst (fst r) = Return tt /\
  QMap.find (frequency info0) (bookmarks (snd (fst r)))
    = Some (mkBookmark info0 (-1)) /\
  forall old,
    QMap.find (frequency info0) (bookmarks this') = Some old ->
    Z.to_nat (entry old) < List.length (ctx_bookmarks text_bookmarks_db) /\
    to_unsigned (entry old) = Z.to_nat (entry old) /\
    (exists rec : Object,
        nth_error (Ctx.items (ctx_bookmarks text_bookmarks_db))
          (Z.to_nat (entry old)) = Some rec /\
        read_from plain_value scan_100MHz cast_100MHz rec old) /\
    exists l,
      remove_slot (Z.to_nat (entry old)) (ctx_bookmarks text_bookmarks_db)
        = Return l /\
      snd r = set_ctx_bookmarks l text_bookmarks_db.
Proof.
  apply (@replaceBookmark_after_load plain_value scan_100MHz no_scan
           cast_100MHz (fun c => c) remove_slot
           (mkBookmarkInfo "beacon 2" 100000000 "#00ff00" 0 0 "CW")
           text_bookmarks_db Singleton_blank).
  - reflexivity.
  - reflexivity.
  - intros pos l Hpos. unfold remove_slot.
    apply Nat.ltb_lt in Hpos. rewrite Hpos. reflexivity.
Defined.

(* ------------------------------------------------------------------ *)
(** ** Names of TLE files *)

Section NormalizeFacts.
Variable isSpace : ascii -> bool.

Lemma replace_outside_class_safe (s : string) :
  all_chars safe_char (replace_outside_class s) = true.
Proof.
  induction s as [|c s IH]; simpl; [reflexivity|].
  rewrite IH, andb_true_r. unfold safe_char.
  destruct (in_class c) eqn:E; [rewrite E; reflexivity|].
  apply orb_true_r.
Qed.

Lemma replace_outside_class_length (s : string) :
  String.length (replace_outside_class s) = String.length s.
Proof. induction s as [|c s IH]; simpl; congruence. Qed.

Lemma replace_outside_class_fixes_safe (s : string) :
  all_chars safe_char s = true -> replace_outside_class s = s.
Proof.
  induction s as [|c s IH]; simpl; [reflexivity|].
  intros Hall. apply andb_prop in Hall. destruct Hall as [Hc Hs].
  rewrite IH by assumption. f_equal.
  unfold safe_char in Hc. destruct (in_class c); [reflexivity|].
  simpl in Hc. apply Ascii.eqb_eq in Hc. congruence.
Qed.

Lemma trim_left_length (s : string) :
  String.length (trim_left isSpace s) <= String.length s.
Proof.
  induction s as [|c s IH]; simpl; [lia|].
  destruct (isSpace c); simpl; lia.
Qed.

Lemma trim_right_length (s : string) :
  String.length (trim_right isSpace s) <= String.length s.
Proof.
  induction s as [|c s IH]; simpl; [lia|].
  destruct (trim_right isSpace s); simpl in *;
    [destruct (isSpace c); simpl; lia | lia].
Qed.

Lemma trimmed_without_space (s : string) :
  all_chars (fun c => negb (isSpace c)) s = true -> trimmed isSpace s = s.
Proof.
  intros Hall. unfold trimmed.
  assert (Hl : trim_left isSpace s = s).
  { destruct s as [|c s]; simpl; [reflexivity|].
    simpl in Hall. apply andb_prop in Hall. destruct Hall as [Hc _].
    apply negb_true_iff in Hc. rewrite Hc. reflexivity. }
  rewrite Hl. clear Hl.
  induction s as [|c s IH]; simpl; [reflexivity|].
  simpl in Hall. apply andb_prop in Hall. destruct Hall as [Hc Hs].
  rewrite IH by assumption. apply negb_true_iff in Hc.
  destruct s; [rewrite Hc|]; reflexivity.
Qed.

Lemma all_chars_weaken (p q : ascii -> bool) (s : string) :
  (forall c, p c = true -> q c = true) ->
  all_chars p s = true -> all_chars q s = true.
Proof.
  intros Hpq. induction s as [|c s IH]; simpl; [reflexivity|].
  intros Hall. apply andb_prop in Hall. destruct Hall as [Hc Hs].
  rewrite (Hpq c Hc), IH by assumption. reflexivity.
Qed.
End NormalizeFacts.

Lemma safe_char_not_separator (c : ascii) :
  safe_char c = true -> not_separator c = true.
Proof.
  destruct c as [[] [] [] [] [] [] [] []]; vm_compute; congruence.
Qed.

Lemma safe_char_not_latin1_space (c : ascii) :
  safe_char c = true -> latin1_isSpace c = false.
Proof.
  destruct c as [[] [] [] [] [] [] [] []]; vm_compute; congruence.
Qed.

(** X21.  [normalizeTLEName] yields a name made of letters, digits,
    hyphens, parentheses and underscores only, so never a path separator
    or a dot, and never longer than the name it was given.  When no
    character of that alphabet counts as white space, a name already made
    of it is returned as it is, and normalizing twice is normalizing
    once. *)
Theorem normalizeTLEName_is_safe :
  forall (isSpace : ascii -> bool) (name : string),
    (forall c, safe_char c = true -> isSpace c = false) ->
    all_chars safe_char (normalizeTLEName isSpace name) = true /\
    all_chars not_separator (normalizeTLEName isSpace name) = true /\
    String.length (normalizeTLEName isSpace name) <= String.length name /\
    (all_chars safe_char name = true -> normalizeTLEName isSpace name = name) /\
    normalizeTLEName isSpace (normalizeTLEName isSpace name)
    = normalizeTLEName isSpace name.
Proof.
  intros isSpace name Hsp.
  assert (Hsafe : forall s, all_chars safe_char (normalizeTLEName isSpace s)
                            = true).
  { intros s. apply replace_outside_class_safe. }
  assert (Hfix : forall s, all_chars safe_char s = true ->
                           normalizeTLEName isSpace s = s).
  { intros s Hs. unfold normalizeTLEName.
    rewrite trimmed_without_space.
    - apply replace_outside_class_fixes_safe. assumption.
    - apply (all_chars_weaken safe_char); [|assumption].
      intros c Hc. rewrite (Hsp c Hc). reflexivity. }
  repeat apply conj.
  - apply Hsafe.
  - apply (all_chars_weaken safe_char); [|apply Hsafe].
    apply safe_char_not_separator.
  - unfold normalizeTLEName, trimmed. rewrite replace_outside_class_length.
    pose proof (trim_right_length isSpace (trim_left isSpace name)).
    pose proof (trim_left_length isSpace name). lia.
  - apply Hfix.
  - apply Hfix. apply Hsafe.
Qed.

Lemma normalizeTLEName_scenario :
  all_chars safe_char (normalizeTLEName latin1_isSpace " ISS (ZARYA)/1 ") = true /\
  all_chars not_separator (normalizeTLEName latin1_isSpace " ISS (ZARYA)/1 ")
    = true /\
  String.length (normalizeTLEName latin1_isSpace " ISS (ZARYA)/1 ")
    <= String.length " ISS (ZARYA)/1 " /\
  (all_chars safe_char " ISS (ZARYA)/1 " = true ->
   normalizeTLEName latin1_isSpace " ISS (ZARYA)/1 "
   = " ISS (ZARYA)/1 "%string) /\
  normalizeTLEName latin1_isSpace
    (normalizeTLEName latin1_isSpace " ISS (ZARYA)/1 ")
  = normalizeTLEName latin1_isSpace " ISS (ZARYA)/1 ".
Proof.
  apply (@normalizeTLEName_is_safe latin1_isSpace " ISS (ZARYA)/1 ").
  exact safe_char_not_latin1_space.
Defined.

(** The name of the scenario: the blanks around it go, the blank and
    the slash inside it become underscores. *)
Example normalizeTLEName_ISS :
  normalizeTLEName latin1_isSpace " ISS (ZARYA)/1 " = "ISS_(ZARYA)_1"%string.
Proof. reflexivity. Qed.

(* ------------------------------------------------------------------ *)
(** ** What a sync leaves alone *)

Lemma syncBookmarks_appends (this : Singleton) (ks : list Z) :
  forall lst : ConfigContext,
  exists added, fold_left (syncBookmarks_step this) ks lst = lst ++ added.
Proof.
  induction ks as [|k ks IH]; intros lst; simpl.
  - exists []. rewrite app_nil_r. reflexivity.
  - destruct (IH (syncBookmarks_step this lst k)) as [added Hadded].
    rewrite Hadded. unfold syncBookmarks_step.
    destruct (entry (bookmark_at k this) =? -1)%Z.
    + eexists. unfold Ctx.append. rewrite <- app_assoc. reflexivity.
    + exists added. reflexivity.
Qed.

(** X22.  Whether it returns or raises, [sync] never writes the contexts
    of the system layer, "locations" and "tle", and never overwrites or
    drops a record of the "bookmarks" context: the records it held are
    still there, in place, with new records behind them at most. *)
Theorem sync_leaves_system_layer :
  forall (persist : Object -> Exc Object) (this : Singleton) (db : ConfDB),
    let r := sync persist this db in
    ctx_locations (snd r) = ctx_locations db /\
    ctx_tle (snd r) = ctx_tle db /\
    exists added, ctx_bookmarks (snd r) = ctx_bookmarks db ++ added.
Proof.
  intros persist this db r.
  destruct (syncBookmarks_appends this (QMap.keys (bookmarks this))
              (ctx_bookmarks db)) as [added Hadded].
  unfold r, sync, syncLocations.
  destruct (have_qth this);
    [destruct (Location.serialize persist (qth this))|]; simpl;
    (split; [reflexivity|]); (split; [reflexivity|]);
    exists added; exact Hadded.
Qed.

(* ------------------------------------------------------------------ *)
(** ** Layers and removal *)

Lemma find_init_tle_sources (db : ConfDB) (this : Singleton) (k : string) :
  QMap.find k (tleSources (init_tle_sources db this)) =
  match
    last_with_key TLESource.name k
      (loadedTLESources (Ctx.items (ctx_user_tle db))
         (TLESource.set_user true TLESource.fresh))
  with
  | Some e => Some e
  | None =>
      match
        last_with_key TLESource.name k
          (loadedTLESources (Ctx.items (ctx_tle db))
             (TLESource.set_user false TLESource.fresh))
      with
      | Some e => Some e
      | None => QMap.find k (tleSources this)
      end
  end.
Proof.
  unfold init_tle_sources, initTLESourcesFromContext. simpl.
  rewrite loadTLESources_find, loadTLESources_find. reflexivity.
Qed.

(** X23.  After the layered load of the TLE sources, a name that a
    record of the user context carries can be removed, and is then gone
    from the registry even when the system context holds it too; a name
    that only the system context carries cannot be removed: the call
    answers false and the registry stays as it is. *)
Theorem removeTLESource_after_layered_load :
  forall (db : ConfDB) (this : Singleton) (name : string),
    let usr :=
      loadedTLESources (Ctx.items (ctx_user_tle db))
        (TLESource.set_user true TLESource.fresh) in
    let sys :=
      loadedTLESources (Ctx.items (ctx_tle db))
        (TLESource.set_user false TLESource.fresh) in
    let loaded := init_tle_sources db this in
    (last_with_key TLESource.name name usr <> None ->
     fst (removeTLESource name loaded) = true /\
     QMap.find name (tleSources (snd (removeTLESource name loaded))) = None) /\
    (last_with_key TLESource.name name usr = None ->
     last_with_key TLESource.name name sys <> None ->
     removeTLESource name loaded = (false, loaded)).
Proof.
  intros db this name usr sys loaded.
  pose proof (find_init_tle_sources db this name) as Hfind.
  fold usr sys loaded in Hfind.
  unfold removeTLESource. rewrite Hfind. split.
  - intros Husr.
    destruct (last_with_key TLESource.name name usr) as [e|] eqn:He;
      [|contradiction].
    apply last_with_key_In in He. destruct He as [Hin _].
    apply loadedTLESources_layer in Hin. simpl in Hin. rewrite Hin. simpl.
    split; [reflexivity | apply find_remove_same].
  - intros Husr Hsys. rewrite Husr.
    destruct (last_with_key TLESource.name name sys) as [e|] eqn:He;
      [|contradiction].
    apply last_with_key_In in He. destruct He as [Hin _].
    apply loadedTLESources_layer in Hin. simpl in Hin. rewrite Hin.
    reflexivity.
Qed.

(** In the merge scenario B, held by both contexts, can be removed and A,
    held by the system context only, cannot. *)
Example removeTLESource_merge_scenario :
  fst (removeTLESource "B" merged) = true /\
  removeTLESource "A" merged = (false, merged).
Proof. split; reflexivity. Qed.
